(** * config-utils: flatten / unflatten and YAML set operations

    A shallow embedding of [tools/config-utils/cli.py]: [flatten_dict],
    [unflatten_dict], [load_yaml_file], [make_hashable] and
    [perform_set_operation], together with the properties the
    specification states about them.

    Modelling choices.
    - A YAML document is a [value]: null, booleans, integers, strings, lists
      and mappings.  YAML floats are left out of the model.
    - A Python [dict] is an association list in insertion order; a real
      [dict] never holds the same key twice, which is the predicate
      [wf_dict] / [wf_value].  Keys are strings ([Dict[str, Any]]), as in
      the documents of the specification; the other scalar keys that YAML
      allows (numbers, booleans, null) are outside the model.
    - A [value] is a tree: a mapping object that two entries share is two
      values.  Where objects matter ([data.copy()], the walk of
      [unflatten_dict], which writes into the mapping it has reached) the
      module [Store] has objects and references.
    - [==] on Python values is [py_eq]: it ignores the order of the entries
      of a mapping and identifies [True] with [1] and [False] with [0].
    - A Python exception is a constructor of [exn]; code that can raise
      returns an [outcome].
    - The iteration order of a Python [set] is unspecified; it is a parameter
      of the model ([iteration_order]). *)

From Stdlib Require Import ZArith Ascii String List Permutation Lia.
From stdpp Require Import base decidable option list gmap strings.

Local Open Scope string_scope.
Local Open Scope Z_scope.

(* ================================================================= *)
(** ** Values *)

#[local] Set Warnings "-register-all".

Inductive value : Type :=
| VNone
| VBool (b : bool)
| VInt (n : Z)
| VStr (s : string)
| VList (xs : list value)
| VDict (kvs : list (string * value)).

(** A [dict] in insertion order. *)
Abbreviation dict := (list (string * value)).

(** Induction over values that also descends into lists and mappings. *)
Section value_induction.
Variable P : value → Prop.
Hypothesis P_none : P VNone.
Hypothesis P_bool : ∀ b, P (VBool b).
Hypothesis P_int : ∀ n, P (VInt n).
Hypothesis P_str : ∀ s, P (VStr s).
Hypothesis P_list : ∀ xs, Forall P xs → P (VList xs).
Hypothesis P_dict : ∀ kvs, Forall (λ kv, P kv.2) kvs → P (VDict kvs).

Fixpoint value_ind' (v : value) : P v :=
  match v with
  | VNone => P_none
  | VBool b => P_bool b
  | VInt n => P_int n
  | VStr s => P_str s
  | VList xs =>
      P_list xs
        ((fix go (l : list value) : Forall P l :=
            match l with
            | [] => @List.Forall_nil _ P
            | x :: l' => @List.Forall_cons _ P x l' (value_ind' x) (go l')
            end) xs)
  | VDict kvs =>
      P_dict kvs
        ((fix go (l : dict) : Forall (λ kv, P kv.2) l :=
            match l with
            | [] => @List.Forall_nil _ (λ kv, P kv.2)
            | kv :: l' =>
                @List.Forall_cons _ (λ kv, P kv.2) kv l' (value_ind' kv.2) (go l')
            end) kvs)
  end.
End value_induction.

(** [isinstance(value, dict)] *)
Definition is_dict (v : value) : bool :=
  match v with VDict _ => true | _ => false end.

(** Python truthiness ([bool(v)], as used by [if v], [v or w], [not v]). *)
Definition truthy (v : value) : bool :=
  match v with
  | VNone => false
  | VBool b => b
  | VInt n => negb (n =? 0)
  | VStr s => negb (String.eqb s "")
  | VList xs => match xs with [] => false | _ => true end
  | VDict kvs => match kvs with [] => false | _ => true end
  end.

(** Truthiness of a string ([if parent_key]). *)
Definition str_truthy (s : string) : bool :=
  match s with EmptyString => false | String _ _ => true end.

(* ================================================================= *)
(** ** Dictionaries *)

(** The operations of a [dict] whose values have type [V]. *)
Section dict_ops.
Context {V : Type}.

(** [d.keys()] *)
Definition dict_keys (d : list (string * V)) : list string := map fst d.

(** [d.get(k)]: the value bound to [k], if any. *)
Fixpoint dict_get (d : list (string * V)) (k : string) : option V :=
  match d with
  | [] => None
  | (k', v) :: rest => if String.eqb k' k then Some v else dict_get rest k
  end.

(** [k in d] *)
Definition dict_mem (d : list (string * V)) (k : string) : bool :=
  match dict_get d k with Some _ => true | None => false end.

(** [d[k] = v]: an existing key keeps its position, a new key goes last. *)
Fixpoint dict_set (d : list (string * V)) (k : string) (v : V)
    : list (string * V) :=
  match d with
  | [] => [(k, v)]
  | (k', v') :: rest =>
      if String.eqb k' k then (k, v) :: rest
      else (k', v') :: dict_set rest k v
  end.

(** [d.update(other)] *)
Definition dict_update (d other : list (string * V)) : list (string * V) :=
  fold_left (λ acc kv, dict_set acc kv.1 kv.2) other d.
End dict_ops.

(** A mapping value holds no key twice, at any level. *)
Fixpoint wf_valueb (v : value) : bool :=
  match v with
  | VList xs => forallb wf_valueb xs
  | VDict kvs =>
      bool_decide (NoDup (dict_keys kvs)) && forallb (λ kv, wf_valueb kv.2) kvs
  | _ => true
  end.

Definition wf_value (v : value) : Prop := wf_valueb v = true.
Definition wf_dict (d : dict) : Prop := wf_value (VDict d).

(* ================================================================= *)
(** ** Strings: [str.split] and the separator *)

(** The default [sep='.'] of [flatten_dict] and [unflatten_dict]; no caller
    passes another one. *)
Definition sep : ascii := "."%char.

(** [s.split(c)] for a one-character separator: every occurrence splits,
    empty pieces are kept, and the result is never empty. *)
Fixpoint split (c : ascii) (s : string) : list string :=
  match s with
  | EmptyString => [EmptyString]
  | String a s' =>
      if Ascii.eqb a c then EmptyString :: split c s'
      else match split c s' with
           | [] => [String a EmptyString]
           | p :: ps => String a p :: ps
           end
  end.

(** [f"{parent_key}{sep}{key}" if parent_key else key] *)
Definition join_key (parent_key key : string) : string :=
  if str_truthy parent_key then parent_key ++ String sep key else key.

(* ================================================================= *)
(** ** flatten_dict *)

(** The body of the [for key, value in data.items()] loop of [flatten_dict],
    with the recursive call abstracted as [rec]. *)
Definition flatten_loop (rec : string → value → dict) (depth : Z)
    (parent_key : string) : dict → dict → dict :=
  fix loop (data items : dict) : dict :=
    match data with
    | [] => items
    | (key, value) :: rest =>
        let new_key := join_key parent_key key in
        let new_depth := Z.of_nat (length (split sep new_key)) in
        let items' :=
          if (0 <? depth) && (depth <=? new_depth) then
            dict_set items new_key value
          else if is_dict value && truthy value then
            dict_update items (rec new_key value)
          else
            dict_set items new_key value in
        loop rest items'
    end.

(** [flatten_dict(data, depth, parent_key)] with [data] given as a value; the
    recursion only ever reaches mappings. *)
Fixpoint flatten_value (depth : Z) (parent_key : string) (data : value)
    {struct data} : dict :=
  match data with
  | VDict kvs =>
      if (depth =? 1) && negb (str_truthy parent_key) then
        kvs (* data.copy() *)
      else
        flatten_loop (flatten_value depth) depth parent_key kvs []
  | _ => []
  end.

Definition flatten_dict (data : dict) (depth : Z) (parent_key : string) : dict :=
  flatten_value depth parent_key (VDict data).

(* ================================================================= *)
(** ** unflatten_dict *)

Inductive exn : Type :=
| TypeError
| KeyError
| IndexError
| RecursionError.

Inductive outcome (A : Type) : Type :=
| Ok (a : A)
| Raise (e : exn).
Arguments Ok {A} a.
Arguments Raise {A} e.

(** Sequencing: an exception raised by the first computation propagates. *)
#[global] Instance outcome_bind : MBind outcome := λ A B f m,
  match m with Ok a => f a | Raise e => Raise e end.
#[global] Instance outcome_ret : MRet outcome := λ A a, Ok a.
#[global] Instance outcome_fmap : FMap outcome := λ A B f m,
  match m with Ok a => Ok (f a) | Raise e => Raise e end.

(** The walk of [unflatten_dict] for one key: [parts] is [key.split(sep)],
    [current] the mapping the walk has reached.  Every segment but the last
    is looked up (and created as an empty mapping when absent); the last one
    is assigned.  Any operation the walk performs on a [current] that is not
    a mapping raises [TypeError]. *)
Fixpoint set_path (current : dict) (parts : list string) (v : value)
    : outcome dict :=
  match parts with
  | [] => Raise IndexError (* parts[-1] of an empty list; split never returns it *)
  | part :: rest =>
      match rest with
      | [] => Ok (dict_set current part v)
      | _ :: _ =>
          match dict_get current part with
          | None =>
              sub ← set_path [] rest v ;
              Ok (dict_set current part (VDict sub))
          | Some (VDict child) =>
              sub ← set_path child rest v ;
              Ok (dict_set current part (VDict sub))
          | Some _ => Raise TypeError
          end
      end
  end.

(** The outer loop of [unflatten_dict], [result] being the mapping built so
    far. *)
Fixpoint unflatten_loop (data result : dict) : outcome dict :=
  match data with
  | [] => Ok result
  | (key, v) :: rest =>
      result' ← set_path result (split sep key) v ;
      unflatten_loop rest result'
  end.

Definition unflatten_dict (data : dict) : outcome dict :=
  unflatten_loop data [].

(* ================================================================= *)
(** ** Equality of Python values *)

Definition int_of_bool (b : bool) : Z := if b then 1 else 0.

(** [a == b].  Mappings are compared as [dict.__eq__] does: same length, and
    every key of [a] is bound in [b] to an equal value. *)
Fixpoint py_eq (a b : value) {struct a} : bool :=
  match a, b with
  | VNone, VNone => true
  | VBool x, VBool y => Bool.eqb x y
  | VBool x, VInt n => int_of_bool x =? n
  | VInt n, VBool x => n =? int_of_bool x
  | VInt n, VInt m => n =? m
  | VStr s, VStr t => String.eqb s t
  | VList xs, VList ys =>
      (fix go (l1 l2 : list value) : bool :=
         match l1, l2 with
         | [], [] => true
         | x :: l1', y :: l2' => py_eq x y && go l1' l2'
         | _, _ => false
         end) xs ys
  | VDict d1, VDict d2 =>
      (length d1 =? length d2)%nat &&
      (fix go (l : dict) : bool :=
         match l with
         | [] => true
         | (k, v) :: l' =>
             match dict_get d2 k with
             | Some v' => py_eq v v'
             | None => false
             end && go l'
         end) d1
  | _, _ => false
  end.

(* ================================================================= *)
(** ** make_hashable *)

(** The values [make_hashable] returns: scalars as they are, tuples for
    lists and mappings. *)
Inductive hashable : Type :=
| HNone
| HBool (b : bool)
| HInt (n : Z)
| HStr (s : string)
| HTuple (items : list hashable).

(** Induction over hashable values that also descends into tuples. *)
Section hashable_induction.
Variable Q : hashable → Prop.
Hypothesis Q_none : Q HNone.
Hypothesis Q_bool : ∀ b, Q (HBool b).
Hypothesis Q_int : ∀ n, Q (HInt n).
Hypothesis Q_str : ∀ s, Q (HStr s).
Hypothesis Q_tuple : ∀ items, Forall Q items → Q (HTuple items).

Fixpoint hashable_ind' (h : hashable) : Q h :=
  match h with
  | HNone => Q_none
  | HBool b => Q_bool b
  | HInt n => Q_int n
  | HStr s => Q_str s
  | HTuple items =>
      Q_tuple items
        ((fix go (l : list hashable) : Forall Q l :=
            match l with
            | [] => @List.Forall_nil _ Q
            | x :: l' => @List.Forall_cons _ Q x l' (hashable_ind' x) (go l')
            end) items)
  end.
End hashable_induction.

(** [==] on hashable values, which is also how a [set] tells its elements
    apart. *)
Fixpoint hashable_eqb (a b : hashable) {struct a} : bool :=
  match a, b with
  | HNone, HNone => true
  | HBool x, HBool y => Bool.eqb x y
  | HBool x, HInt n => int_of_bool x =? n
  | HInt n, HBool x => n =? int_of_bool x
  | HInt n, HInt m => n =? m
  | HStr s, HStr t => String.eqb s t
  | HTuple xs, HTuple ys =>
      (fix go (l1 l2 : list hashable) : bool :=
         match l1, l2 with
         | [], [] => true
         | x :: l1', y :: l2' => hashable_eqb x y && go l1' l2'
         | _, _ => false
         end) xs ys
  | _, _ => false
  end.

(** [sorted] on [(key, hashable)] pairs with distinct keys: insertion sort on
    the key. *)
Fixpoint insert_sorted (x : string * hashable) (l : list (string * hashable))
    : list (string * hashable) :=
  match l with
  | [] => [x]
  | y :: l' => if String.leb x.1 y.1 then x :: y :: l' else y :: insert_sorted x l'
  end.

Definition sorted (l : list (string * hashable)) : list (string * hashable) :=
  fold_right insert_sorted [] l.

(** The tuple [(k, h)]. *)
Definition pair_tuple (kh : string * hashable) : hashable :=
  HTuple [HStr kh.1; kh.2].

(** [make_hashable(value)]; the [set] branch concerns values a [value] never
    is. *)
Fixpoint make_hashable (v : value) : hashable :=
  match v with
  | VNone => HNone
  | VBool b => HBool b
  | VInt n => HInt n
  | VStr s => HStr s
  | VList xs => HTuple (map make_hashable xs)
  | VDict kvs =>
      HTuple (map pair_tuple
                (sorted (map (λ kv, (kv.1, make_hashable kv.2)) kvs)))
  end.

(* ================================================================= *)
(** ** Python sets *)

(** A [set] is a list without repetition (up to the equality [eqb] of its
    elements); the order in which it is iterated is not part of it. *)
Section pyset.
Context {A : Type} (eqb : A → A → bool).

Definition set_mem (x : A) (s : list A) : bool := existsb (eqb x) s.

Definition set_add (s : list A) (x : A) : list A :=
  if set_mem x s then s else s ++ [x].

(** [set(l)] *)
Definition set_of (l : list A) : list A := fold_left set_add l [].

(** [s1 | s2] *)
Definition set_union (s1 s2 : list A) : list A :=
  s1 ++ filter (λ x, negb (set_mem x s1)) s2.

(** [s1 & s2] *)
Definition set_inter (s1 s2 : list A) : list A :=
  filter (λ x, set_mem x s2) s1.

(** [s1 - s2] *)
Definition set_diff (s1 s2 : list A) : list A :=
  filter (λ x, negb (set_mem x s2)) s1.

(** [s1 ^ s2] *)
Definition set_symdiff (s1 s2 : list A) : list A :=
  set_diff s1 s2 ++ set_diff s2 s1.
End pyset.

(** Equality of the [(key, hashable_value)] tuples of key-value mode. *)
Definition item_eqb (a b : string * hashable) : bool :=
  String.eqb a.1 b.1 && hashable_eqb a.2 b.2.

(** The order in which [for x in s] visits a set: some rearrangement of its
    elements.  One for sets of keys, one for sets of items. *)
Record iteration_order : Type := {
  key_order : list string → list string;
  key_order_perm : ∀ l, key_order l ≡ₚ l;
  item_order : list (string * hashable) → list (string * hashable);
  item_order_perm : ∀ l, item_order l ≡ₚ l
}.

(** Sets visited in the order their elements went in. *)
Definition insertion_order : iteration_order :=
  {| key_order := id; key_order_perm := λ l, reflexivity _;
     item_order := id; item_order_perm := λ l, reflexivity _ |}.

(** Sets visited last element first. *)
Definition reverse_order : iteration_order :=
  {| key_order := λ l, List.rev l; key_order_perm := λ l, symmetry (Permutation_rev l);
     item_order := λ l, List.rev l; item_order_perm := λ l, symmetry (Permutation_rev l) |}.

(** Keys visited first element first, items last element first. *)
Definition mixed_order : iteration_order :=
  {| key_order := id; key_order_perm := λ l, reflexivity _;
     item_order := λ l, List.rev l; item_order_perm := λ l, symmetry (Permutation_rev l) |}.

(* ================================================================= *)
(** ** perform_set_operation *)

(** [flat[key]] *)
Definition subscript (flat : dict) (key : string) : outcome value :=
  match dict_get flat key with
  | Some v => Ok v
  | None => Raise KeyError
  end.

(** [for key in keys: result[key] = flat1[key] if key in flat1 else flat2[key]] *)
Fixpoint prefer_file1 (flat1 flat2 : dict) (keys : list string) (result : dict)
    : outcome dict :=
  match keys with
  | [] => Ok result
  | key :: rest =>
      v ← (if dict_mem flat1 key then subscript flat1 key
           else subscript flat2 key);
      prefer_file1 flat1 flat2 rest (dict_set result key v)
  end.

(** [{k: flat[k] for k in keys}] *)
Fixpoint from_file (flat : dict) (keys : list string) (result : dict)
    : outcome dict :=
  match keys with
  | [] => Ok result
  | key :: rest =>
      v ← subscript flat key;
      from_file flat rest (dict_set result key v)
  end.

(** [set((k, make_hashable(v)) for k, v in flat.items())] *)
Definition items_of (flat : dict) : list (string * hashable) :=
  set_of item_eqb (map (λ kv, (kv.1, make_hashable kv.2)) flat).

(** The body of [perform_set_operation] between the two flatten calls and the
    final unflatten: the mapping [result]. *)
Definition set_operation_result (o : iteration_order) (flat1 flat2 : dict)
    (operation compare_mode : string) : outcome dict :=
  if String.eqb compare_mode "keys" then
    let keys1 := set_of String.eqb (dict_keys flat1) in
    let keys2 := set_of String.eqb (dict_keys flat2) in
    let result_keys :=
      if String.eqb operation "union" then set_union String.eqb keys1 keys2
      else if String.eqb operation "intersect" then set_inter String.eqb keys1 keys2
      else if String.eqb operation "diff" then set_diff String.eqb keys1 keys2
      else if String.eqb operation "rdiff" then set_diff String.eqb keys2 keys1
      else if String.eqb operation "symdiff" then set_symdiff String.eqb keys1 keys2
      else [] in
    prefer_file1 flat1 flat2 (key_order o result_keys) []
  else
    let items1 := items_of flat1 in
    let items2 := items_of flat2 in
    if String.eqb operation "union" then
      prefer_file1 flat1 flat2
        (map fst (item_order o (set_union item_eqb items1 items2))) []
    else if String.eqb operation "intersect" then
      from_file flat1 (map fst (item_order o (set_inter item_eqb items1 items2))) []
    else if String.eqb operation "diff" then
      from_file flat1 (map fst (item_order o (set_diff item_eqb items1 items2))) []
    else if String.eqb operation "rdiff" then
      from_file flat2 (map fst (item_order o (set_diff item_eqb items2 items1))) []
    else if String.eqb operation "symdiff" then
      prefer_file1 flat1 flat2
        (map fst (item_order o (set_symdiff item_eqb items1 items2))) []
    else Ok [].

Definition perform_set_operation (o : iteration_order)
    (file1_data file2_data : dict) (operation compare_mode : string)
    (depth : Z) : outcome dict :=
  let flat1 := flatten_dict file1_data depth "" in
  let flat2 := flatten_dict file2_data depth "" in
  result ← set_operation_result o flat1 flat2 operation compare_mode;
  if 1 <? depth then unflatten_dict result else Ok result.

(* ================================================================= *)
(** ** load_yaml_file and the set-operation commands *)

(** What opening and parsing a file gives: no such file, a parse error with
    its diagnostic, the parsed root ([None] for an empty document), or a
    path that exists and cannot be opened or read as text (a directory, a
    file without read permission, bytes that are no text), with the message
    of the exception [open] or the read raises. *)
Inductive yaml_file : Type :=
| Missing
| Malformed (diagnostic : string)
| Document (root : value)
| Unreadable (message : string).

(** A call returns, or ends the process with [sys.exit(code)] after writing
    [stderr], or raises an exception it does not handle, [message] being
    its [str]. *)
Inductive exit_or (A : Type) : Type :=
| Returned (a : A)
| SysExit (code : Z) (stderr : string)
| Raised (message : string).
Arguments Returned {A} a.
Arguments SysExit {A} code stderr.
Arguments Raised {A} message.

Definition load_yaml_file (file_path : string) (f : yaml_file) : exit_or dict :=
  match f with
  | Missing => SysExit 1 ("Error: File not found: " ++ file_path)
  | Malformed e =>
      SysExit 1 ("Error: Invalid YAML in " ++ file_path ++ ": " ++ e)
  | Document root =>
      (* data = yaml.safe_load(f) or {} *)
      let data := if truthy root then root else VDict [] in
      match data with
      | VDict d => Returned d
      | _ => SysExit 1 ("Error: Root must be a YAML mapping in " ++ file_path)
      end
  | Unreadable e => Raised e (* no [except] clause of the function matches *)
  end.

(** [str(e)] is left to the caller of the model. *)
Section command.
Variable exn_str : exn → string.
Variable fs : string → yaml_file.

(** The body of a set-operation command, over the function it calls on
    the two loaded documents.  [sys.exit] inside [load_yaml_file] is not an
    [Exception], so the handler of the command does not catch it; an
    exception that [load_yaml_file] lets through it does catch. *)
Definition command_with
    (perform : dict → dict → string → string → Z → outcome dict)
    (operation file1 file2 compare : string) (depth : Z) : exit_or dict :=
  match load_yaml_file file1 (fs file1) with
  | SysExit c m => SysExit c m
  | Raised e => SysExit 1 ("Error: " ++ e)
  | Returned file1_data =>
      match load_yaml_file file2 (fs file2) with
      | SysExit c m => SysExit c m
      | Raised e => SysExit 1 ("Error: " ++ e)
      | Returned file2_data =>
          match perform file1_data file2_data operation compare depth with
          | Ok result => Returned result (* yaml.dump(result, sys.stdout) *)
          | Raise e => SysExit 1 ("Error: " ++ exn_str e)
          end
      end
  end.

Definition command (o : iteration_order) :=
  command_with (perform_set_operation o).
End command.

(* ================================================================= *)
(** ** Objects and references

    [flatten_dict] at depth 1 returns [data.copy()], a new object.  To tell
    a copy from an alias the model needs object identity: a store of
    objects addressed by references. *)

Module Store.

Abbreviation ref := positive.

(** A value as an object holds it: scalars, or a reference to a list or a
    mapping. *)
Inductive cell : Type :=
| CNone
| CBool (b : bool)
| CInt (n : Z)
| CStr (s : string)
| CRef (r : ref).

Inductive object : Type :=
| OList (items : list cell)
| ODict (items : list (string * cell)).

Abbreviation store := (gmap ref object).

(** A new object gets a reference the store does not use yet. *)
Definition alloc (st : store) (o : object) : store * ref :=
  let r := fresh (dom st) in (<[r := o]> st, r).

(** [isinstance(value, dict) and value] *)
Definition nonempty_dict (st : store) (c : cell) : bool :=
  match c with
  | CRef r => match st !! r with Some (ODict (_ :: _)) => true | _ => false end
  | _ => false
  end.

(** [items[key] = value], [items] being the mapping at reference [r]. *)
Definition setitem (st : store) (r : ref) (key : string) (c : cell)
    : outcome store :=
  match st !! r with
  | Some (ODict items) => Ok (<[r := ODict (dict_set items key c)]> st)
  | _ => Raise TypeError
  end.

(** [items.update(other)] for the mappings at [r] and [other]. *)
Definition update (st : store) (r other : ref) : outcome store :=
  match st !! r, st !! other with
  | Some (ODict items), Some (ODict more) =>
      Ok (<[r := ODict (dict_update items more)]> st)
  | _, _ => Raise TypeError
  end.

(** [flatten_dict(data, depth, parent_key)] on references; [fuel] bounds
    the depth of the recursion, as the interpreter does. *)
Fixpoint flatten_dict (fuel : nat) (st : store) (data : ref) (depth : Z)
    (parent_key : string) {struct fuel} : outcome (store * ref) :=
  match fuel with
  | O => Raise RecursionError
  | S fuel' =>
      match st !! data with
      | Some (ODict kvs) =>
          if (depth =? 1) && negb (str_truthy parent_key) then
            Ok (alloc st (ODict kvs)) (* data.copy() *)
          else
            let '(st0, items) := alloc st (ODict []) in
            (fix loop (l : list (string * cell)) (st : store)
               : outcome (store * ref) :=
               match l with
               | [] => Ok (st, items)
               | (key, c) :: rest =>
                   let new_key := join_key parent_key key in
                   let new_depth := Z.of_nat (length (split sep new_key)) in
                   st' ←
                     (if (0 <? depth) && (depth <=? new_depth) then
                        setitem st items new_key c
                      else if nonempty_dict st c then
                        match c with
                        | CRef r =>
                            sub ← flatten_dict fuel' st r depth new_key;
                            update sub.1 items sub.2
                        | _ => Raise TypeError
                        end
                      else setitem st items new_key c);
                   loop rest st'
               end) kvs st0
      | _ => Raise TypeError
      end
  end.

(** [represents st v c]: in the store [st], the cell [c] holds the value
    [v]. *)
Fixpoint represents (st : store) (v : value) (c : cell) {struct v} : Prop :=
  match v, c with
  | VNone, CNone => True
  | VBool b, CBool b' => b = b'
  | VInt n, CInt n' => n = n'
  | VStr s, CStr s' => s = s'
  | VList xs, CRef r =>
      ∃ items, st !! r = Some (OList items) ∧
        (fix go (l : list value) (cs : list cell) : Prop :=
           match l, cs with
           | [], [] => True
           | x :: l', c' :: cs' => represents st x c' ∧ go l' cs'
           | _, _ => False
           end) xs items
  | VDict kvs, CRef r =>
      ∃ items, st !! r = Some (ODict items) ∧
        (fix go (l : dict) (cs : list (string * cell)) : Prop :=
           match l, cs with
           | [], [] => True
           | (k, x) :: l', (k', c') :: cs' =>
               k = k' ∧ represents st x c' ∧ go l' cs'
           | _, _ => False
           end) kvs items
  | _, _ => False
  end.

(** The walk of [unflatten_dict] for one key, on references: [current]
    is the mapping the walk has reached.  A segment that is absent gets a
    new empty mapping; a segment that is present is followed, whatever
    object it leads to; the last segment is assigned.  Every operation of
    the walk on something that is not a mapping raises [TypeError]. *)
Fixpoint set_path (st : store) (current : ref) (parts : list string)
    (c : cell) {struct parts} : outcome store :=
  match parts with
  | [] => Raise IndexError
  | part :: rest =>
      match rest with
      | [] => setitem st current part c (* current[parts[-1]] = value *)
      | _ :: _ =>
          match st !! current with
          | Some (ODict items) =>
              match dict_get items part with
              | None =>
                  (* current[part] = {}; current = current[part] *)
                  let '(st1, child) := alloc st (ODict []) in
                  st2 ← setitem st1 current part (CRef child);
                  set_path st2 child rest c
              | Some (CRef next) => set_path st next rest c
              | Some _ => Raise TypeError
              end
          | _ => Raise TypeError
          end
      end
  end.

(** [unflatten_dict(data)] on references: [result] is a new mapping, the
    entries of the mapping at [data] are written into it one by one. *)
Definition unflatten_dict (st : store) (data : ref) : outcome (store * ref) :=
  match st !! data with
  | Some (ODict kvs) =>
      let '(st0, result) := alloc st (ODict []) in
      st' ← (fix loop (l : list (string * cell)) (st : store)
               : outcome store :=
               match l with
               | [] => Ok st
               | (key, c) :: rest =>
                   st1 ← set_path st result (split sep key) c;
                   loop rest st1
               end) kvs st0;
      Ok (st', result)
  | _ => Raise TypeError (* no mapping, no [items]: the call fails *)
  end.

End Store.

(* ================================================================= *)
(** ** The flatten contract, in the words of the specification *)

(** The number of [.]-separated segments of a flat key. *)
Fixpoint count_sep (s : string) : nat :=
  match s with
  | EmptyString => O
  | String a s' => ((if Ascii.eqb a sep then 1 else 0) + count_sep s')%nat
  end.

Definition segments (s : string) : nat := S (count_sep s).

(** [new_key = p ? p + "." + k : k] *)
Definition candidate_key (p k : string) : string :=
  if String.eqb p "" then k else p ++ "." ++ k.

Definition nonempty_mapping (v : value) : bool :=
  match v with VDict (_ :: _) => true | _ => false end.

(** Emitting an entry binds the key in the accumulator; merging emits every
    entry of the recursive result. *)
Definition emit (acc : dict) (k : string) (v : value) : dict := dict_set acc k v.

Definition merge (acc results : dict) : dict :=
  fold_left (λ acc kv, emit acc kv.1 kv.2) results acc.

(** The walk of every key [k] with value [v] at path prefix [p]: emitted
    as-is when the depth limit is reached, recursed into when [v] is a
    non-empty mapping, emitted directly otherwise. *)
Fixpoint flatten_spec (depth : Z) (p : string) (document : value) : dict :=
  match document with
  | VDict kvs =>
      fold_left
        (λ acc kv,
           let new_key := candidate_key p kv.1 in
           if (0 <? depth) && (depth <=? Z.of_nat (segments new_key)) then
             emit acc new_key kv.2
           else if nonempty_mapping kv.2 then
             merge acc (flatten_spec depth new_key kv.2)
           else emit acc new_key kv.2)
        kvs []
  | _ => []
  end.

(* ================================================================= *)
(** ** Paths

    Notions used to state and prove the properties of [unflatten_dict]. *)

(** The segment path [p] is a proper prefix of [q]. *)
Definition proper_prefix (p q : list string) : Prop :=
  p `prefix_of` q ∧ p ≠ q.

#[global] Instance proper_prefix_dec p q : Decision (proper_prefix p q).
Proof. unfold proper_prefix. apply _. Defined.

(** No key's segment path is a proper prefix of another key's path. *)
Definition conflict_free (flat : dict) : Prop :=
  Forall (λ k1,
    Forall (λ k2, ¬ proper_prefix (split sep k1) (split sep k2))
      (dict_keys flat))
    (dict_keys flat).

#[global] Instance conflict_free_dec flat : Decision (conflict_free flat).
Proof. unfold conflict_free. apply _. Defined.

(** The value found by following the path [p] from [node]. *)
Fixpoint get_path (node : value) (p : list string) : option value :=
  match p with
  | [] => Some node
  | k :: p' =>
      match node with
      | VDict d =>
          match dict_get d k with
          | Some child => get_path child p'
          | None => None
          end
      | _ => None
      end
  end.

(** [put node p x] is [node] with [x] at the end of the path [p]; missing
    mappings on the way are created, anything else on the way is an error.
    [set_path] is [put] on a root mapping and a non-empty path
    (lemma [set_path_put]). *)
Fixpoint put (node : value) (p : list string) (x : value) : outcome value :=
  match p with
  | [] => Ok x
  | k :: p' =>
      match node with
      | VDict d =>
          child ← put (default (VDict []) (dict_get d k)) p' x;
          Ok (VDict (dict_set d k child))
      | _ => Raise TypeError
      end
  end.

(** The loop of [unflatten_dict] in terms of [put]
    (lemma [unflatten_loop_put_all]). *)
Fixpoint put_all (data : dict) (node : value) : outcome value :=
  match data with
  | [] => Ok node
  | (key, v) :: rest =>
      node' ← put node (split sep key) v;
      put_all rest node'
  end.

(** [s] does not contain the separator. *)
Fixpoint sep_free (s : string) : bool :=
  match s with
  | EmptyString => true
  | String a s' => negb (Ascii.eqb a sep) && sep_free s'
  end.

(** Every key of every mapping reached through mappings is free of the
    separator. *)
Fixpoint keys_sep_free (v : value) : bool :=
  match v with
  | VDict kvs => forallb (λ kv, sep_free kv.1 && keys_sep_free kv.2) kvs
  | _ => true
  end.

(** The root mapping does not bind the empty key to a non-empty mapping. *)
Definition no_empty_root_key (d : dict) : bool :=
  forallb (λ kv, negb (String.eqb kv.1 "" && nonempty_mapping kv.2)) d.

(** The keys that [flatten_dict] joins into flat keys at depth [depth] are
    free of the separator; [level] is the number of mappings above [v].
    With a depth limit these are the keys of the first [depth] levels: a
    value under a key at level [depth] is emitted as it is, and its own
    keys do not matter.  Without one ([depth <= 0]) they are all the keys,
    as in [keys_sep_free]. *)
Fixpoint keys_sep_free_within (depth : Z) (level : nat) (v : value) : bool :=
  match v with
  | VDict kvs =>
      forallb
        (λ kv, sep_free kv.1 &&
               (((0 <? depth) && (depth <=? Z.of_nat (S level)))
                || keys_sep_free_within depth (S level) kv.2))
        kvs
  | _ => true
  end.

(* ================================================================= *)
(** ** The documents of the test suite *)

Definition file1 : dict :=
  [("database", VStr "postgres"); ("port", VInt 5432); ("debug", VBool true)].

Definition file2 : dict :=
  [("database", VStr "postgres"); ("port", VInt 3306);
   ("logging", VStr "verbose")].

Definition nested1 : dict :=
  [("database", VDict [("host", VStr "localhost"); ("port", VInt 5432)]);
   ("app", VDict [("name", VStr "myapp")])].

Definition nested2 : dict :=
  [("database", VDict [("host", VStr "localhost"); ("port", VInt 3306)]);
   ("app", VDict [("name", VStr "myapp")])].

(* ================================================================= *)
(** ** Flattening as a list of paths *)

(** The entries [flatten_dict] emits for the mapping [v] found at the path
    [P], each under its path instead of its dotted key, in the order of the
    walk. *)
Fixpoint leaves (depth : Z) (P : list string) (v : value)
    : list (list string * value) :=
  match v with
  | VDict kvs =>
      flat_map
        (λ kv,
           let P' := (P ++ [kv.1])%list in
           if (0 <? depth) && (depth <=? Z.of_nat (length P')) then [(P', kv.2)]
           else if nonempty_mapping kv.2 then leaves depth P' kv.2
           else [(P', kv.2)])
        kvs
  | _ => []
  end.

(** [put] for a list of paths and values, first to last. *)
Fixpoint put_paths (l : list (list string * value)) (node : value)
    : outcome value :=
  match l with
  | [] => Ok node
  | (p, x) :: rest =>
      node' ← put node p x;
      put_paths rest node'
  end.

(** The path [p] leaves [node] through a key that is not bound. *)
Fixpoint absent (node : value) (p : list string) : Prop :=
  match p with
  | [] => False
  | k :: p' =>
      match node with
      | VDict d =>
          match dict_get d k with
          | Some child => absent child p'
          | None => True
          end
      | _ => False
      end
  end.

(** Neither path is a prefix of the other. *)
Definition incomparable (p q : list string) : Prop :=
  ¬ p `prefix_of` q ∧ ¬ q `prefix_of` p.

(** [R] holds between any two elements of the list. *)
Inductive pairwise {A : Type} (R : A → A → Prop) : list A → Prop :=
| pairwise_nil : pairwise R []
| pairwise_cons x l : Forall (R x) l → pairwise R l → pairwise R (x :: l).

(** Values that differ only in the order of the entries of their
    mappings. *)
Inductive veq : value → value → Prop :=
| veq_refl v : veq v v
| veq_dict d d' : deq d d' → veq (VDict d) (VDict d')
with deq : dict → dict → Prop :=
| deq_nil : deq [] []
| deq_skip k v v' d d' : veq v v' → deq d d' → deq ((k, v) :: d) ((k, v') :: d')
| deq_swap kv1 kv2 d : deq (kv1 :: kv2 :: d) (kv2 :: kv1 :: d)
| deq_trans d1 d2 d3 : deq d1 d2 → deq d2 d3 → deq d1 d3.

(** Both computations raise, or both return and the results are [veq]. *)
Definition oeq (a b : outcome value) : Prop :=
  match a, b with
  | Ok x, Ok y => veq x y
  | Raise _, Raise _ => True
  | _, _ => False
  end.

(* ================================================================= *)
(** ** Notions used in the proofs *)

Local Open Scope list_scope.
#[local] Set Warnings "-clear-no-such-hyp".

(** One step of the loop of [flatten_dict]. *)
Definition flatten_step (rec : string → value → dict) (depth : Z)
    (parent_key : string) (items : dict) (kv : string * value) : dict :=
  let new_key := join_key parent_key kv.1 in
  if (0 <? depth) && (depth <=? Z.of_nat (length (split sep new_key))) then
    dict_set items new_key kv.2
  else if is_dict kv.2 && truthy kv.2 then
    dict_update items (rec new_key kv.2)
  else dict_set items new_key kv.2.

(** The value the result of a union binds to [k]: the left one when there is
    one, else the right one. *)
Definition resolve (flat1 flat2 : dict) (k : string) : option value :=
  match dict_get flat1 k with
  | Some v => Some v
  | None => dict_get flat2 k
  end.

(** Whether [operation] is one of the five the commands are created for. *)
Definition supported_operation (operation : string) : bool :=
  bool_decide (operation ∈ ["union"; "intersect"; "diff"; "rdiff"; "symdiff"]).

(** Whether [compare_mode] is one of the two the [--compare] option offers. *)
Definition supported_mode (compare_mode : string) : bool :=
  bool_decide (compare_mode ∈ ["keys"; "kv"]).

(** The loop of [dict.__eq__] over the entries of the left mapping. *)
Definition entries_eq (d2 : dict) : dict → bool :=
  fix go (l : dict) : bool :=
    match l with
    | [] => true
    | (k, v) :: l' =>
        match dict_get d2 k with
        | Some v' => py_eq v v'
        | None => false
        end && go l'
    end.

(** The message [load_yaml_file] writes for a root that is not a mapping. *)
Definition root_error (file_path : string) : string :=
  ("Error: Root must be a YAML mapping in " ++ file_path)%string.

(** The root of [list.yml] in the test suite. *)
Definition list_root : value := VList [VStr "item1"; VStr "item2"].

(** The entries of a stored mapping hold the entries of a mapping value. *)
Definition represents_items (st : Store.store) (kvs : dict)
    (items : list (string * Store.cell)) : Prop :=
  Forall2 (λ kv kc, kv.1 = kc.1 ∧ Store.represents st kv.2 kc.2) kvs items.

(** A store holding [{database: {host: localhost}}] at reference 1. *)
Definition example_store : Store.store :=
  <[2%positive := Store.ODict [("host", Store.CStr "localhost")]]>
    (<[1%positive := Store.ODict [("database", Store.CRef 2%positive)]]> ∅).

(** Every value that is not a mapping sits at or below one of the paths
    [paths]. *)
Definition covered (node : value) (paths : list (list string)) : Prop :=
  ∀ q nd, get_path node q = Some nd → is_dict nd = false →
          ∃ p, p ∈ paths ∧ p `prefix_of` q.

(** The leaves one entry of a mapping at the path [P] contributes. *)
Definition leaf_step (depth : Z) (P : list string) (kv : string * value)
    : list (list string * value) :=
  let P' := P ++ [kv.1] in
  if (0 <? depth) && (depth <=? Z.of_nat (length P')) then [(P', kv.2)]
  else if nonempty_mapping kv.2 then leaves depth P' kv.2
  else [(P', kv.2)].

(** What the induction on the document proves of a non-empty mapping [v]:
    putting its leaves, below a path that is absent, is putting [v] at that
    path. *)
Definition grafts (depth : Z) (v : value) : Prop :=
  nonempty_mapping v = true → wf_value v →
  ∀ P node, absent node P →
    put_paths (leaves depth P v) node = put node P v.

(** The entries of a flat mapping under their segment paths. *)
Definition paths_of (flat : dict) : list (list string * value) :=
  map (λ kv, (split sep kv.1, kv.2)) flat.

(** How the prefix string [p] of [flatten_dict] stands for the path [P]. *)
Definition stands_for (p : string) (P : list string) : Prop :=
  (p = "" ∧ P = []) ∨ (p ≠ "" ∧ split sep p = P).

(** What the induction on the document proves of a mapping [v] walked
    with a non-empty prefix. *)
Definition flattens_to_leaves (depth : Z) (v : value) : Prop :=
  ∀ (p : string) P, stands_for p P → p ≠ "" →
         keys_sep_free_within depth (length P) v = true →
         wf_value v →
         paths_of (flatten_value depth p v) = leaves depth P v.

(** Related mappings bind the same keys, to related values. *)
Definition lookup_rel (a b : option value) : Prop :=
  match a, b with
  | Some x, Some y => veq x y
  | None, None => True
  | _, _ => False
  end.

(** Two entries of a list of updates do not get in each other's way. *)
Definition apart (a b : list string * value) : Prop := incomparable a.1 b.1.

(** A document with a dotted key below the second level. *)
Definition dotted_below : dict :=
  [("a", VDict [("b", VDict [("c.d", VInt 1)])]); ("x", VInt 2)].

(** [k] is bound on both sides, to values with equal hashable forms. *)
Definition agree (flat1 flat2 : dict) (k : string) : Prop :=
  ∃ v1 v2, dict_get flat1 k = Some v1 ∧ dict_get flat2 k = Some v2 ∧
           hashable_eqb (make_hashable v1) (make_hashable v2) = true.

(** An entry within the depth limit: its key has at most [depth] segments,
    and exactly [depth] when its value is still a non-empty mapping. *)
Definition within_depth (depth : Z) (kv : string * value) : Prop :=
  Z.of_nat (segments kv.1) ≤ depth ∧
  (nonempty_mapping kv.2 = true → Z.of_nat (segments kv.1) = depth).

(** A document nested three levels deep. *)
Definition three_levels : dict :=
  [("a", VDict [("b", VDict [("c", VInt 1)])]); ("x", VInt 2)].

(** A flat mapping with dotted keys and no conflict. *)
Definition flat_example : dict :=
  [("database.host", VStr "localhost"); ("app.name", VStr "myapp");
   ("database.port", VInt 5432)].

(** Induction over [veq] and [deq] together. *)
Scheme veq_mut := Minimality for veq Sort Prop
  with deq_mut := Minimality for deq Sort Prop.

(** The sorted items [make_hashable] builds for a mapping. *)
Definition hashable_items (d : dict) : list (string * hashable) :=
  sorted (map (λ kv, (kv.1, make_hashable kv.2)) d).

(** The same settings, listed in two orders. *)
Definition settings_ab : value :=
  VDict [("a", VInt 1); ("b", VDict [("x", VInt 2); ("y", VInt 3)])].
Definition settings_ba : value :=
  VDict [("b", VDict [("x", VInt 2); ("y", VInt 3)]); ("a", VInt 1)].

(** Whether [operation] keeps, in [keys] mode, a key that is ([in1]) or is
    not in the first flat mapping and is ([in2]) or is not in the second. *)
Definition keeps (operation : string) (in1 in2 : bool) : bool :=
  if String.eqb operation "union" then in1 || in2
  else if String.eqb operation "intersect" then in1 && in2
  else if String.eqb operation "diff" then in1 && negb in2
  else if String.eqb operation "rdiff" then in2 && negb in1
  else if String.eqb operation "symdiff" then xorb in1 in2
  else false.

(** Both flat mappings bind [k], to values with equal hashable forms. *)
Definition agreeb (flat1 flat2 : dict) (k : string) : bool :=
  match dict_get flat1 k, dict_get flat2 k with
  | Some v1, Some v2 => hashable_eqb (make_hashable v1) (make_hashable v2)
  | _, _ => false
  end.

(** Whether [operation] keeps a key in [kv] mode, [ag] telling whether the
    two flat mappings agree on it. *)
Definition keeps_kv (operation : string) (in1 in2 ag : bool) : bool :=
  if String.eqb operation "union" then in1 || in2
  else if String.eqb operation "intersect" then ag
  else if String.eqb operation "diff" then in1 && negb ag
  else if String.eqb operation "rdiff" then in2 && negb ag
  else if String.eqb operation "symdiff" then (in1 || in2) && negb ag
  else false.

(** The value a kept key gets in [kv] mode. *)
Definition kv_value (operation : string) (flat1 flat2 : dict) (k : string)
    : option value :=
  if String.eqb operation "rdiff" then dict_get flat2 k
  else resolve flat1 flat2 k.

(** One turn of the loop of [Store.flatten_dict]: the entry [kc] is written
    into the mapping at [items]. *)
Definition store_step (fuel : nat) (depth : Z) (parent_key : string)
    (items : Store.ref) (st : Store.store) (kc : string * Store.cell)
    : outcome Store.store :=
  let new_key := join_key parent_key kc.1 in
  let new_depth := Z.of_nat (length (split sep new_key)) in
  if (0 <? depth) && (depth <=? new_depth) then
    Store.setitem st items new_key kc.2
  else if Store.nonempty_dict st kc.2 then
    match kc.2 with
    | Store.CRef r =>
        sub ← Store.flatten_dict fuel st r depth new_key;
        Store.update sub.1 items sub.2
    | _ => Raise TypeError
    end
  else Store.setitem st items new_key kc.2.

(** The loop of [Store.flatten_dict] over the entries [l]. *)
Fixpoint store_loop (fuel : nat) (depth : Z) (parent_key : string)
    (items : Store.ref) (l : list (string * Store.cell)) (st : Store.store)
    : outcome (Store.store * Store.ref) :=
  match l with
  | [] => Ok (st, items)
  | kc :: rest =>
      st' ← store_step fuel depth parent_key items st kc;
      store_loop fuel depth parent_key items rest st'
  end.

(** [held st r c]: in the store [st], [c] is a cell of the mapping at [r],
    or of a mapping that one refers to, directly or through further
    mappings. *)
Inductive held (st : Store.store) : Store.ref → Store.cell → Prop :=
| held_here r items k c :
    st !! r = Some (Store.ODict items) → (k, c) ∈ items → held st r c
| held_below r items k r' c :
    st !! r = Some (Store.ODict items) → (k, Store.CRef r') ∈ items →
    held st r' c → held st r c.

(** With [n] units of fuel or more, [Store.flatten_dict] on a reference that
    holds the mapping [v] returns a new object with the entries of the
    flattened mapping, the cells being cells the argument holds in the base
    store [b]. *)
Definition flattens_on_store (depth : Z) (v : value) (n : nat) : Prop :=
  ∀ (b st : Store.store) (data : Store.ref) (p : string) (fuel : nat),
    (n ≤ fuel)%nat → b ⊆ st → is_dict v = true →
    Store.represents b v (Store.CRef data) →
    ∃ st' r more,
      Store.flatten_dict fuel st data depth p = Ok (st', r) ∧
      st ⊆ st' ∧ st !! r = None ∧
      st' !! r = Some (Store.ODict more) ∧
      represents_items b (flatten_value depth p v) more ∧
      Forall (λ kc, held b data kc.2) more.

(** Item lists with the same keys, in the same order, and values that
    compare equal. *)
Definition items_rel (l1 l2 : list (string * hashable)) : Prop :=
  Forall2 (λ a b, a.1 = b.1 ∧ hashable_eqb a.2 b.2 = true) l1 l2.

(** The entries of [d2] in the order in which [d1] lists their keys. *)
Definition reordered (d1 d2 : dict) : dict :=
  map (λ kv, (kv.1, default VNone (dict_get d2 kv.1))) d1.

(** Two documents that list the same settings in a different order. *)
Definition service_ab : dict :=
  [("service", VDict [("name", VStr "api"); ("replicas", VInt 1)])].
Definition service_ba : dict :=
  [("service", VDict [("replicas", VBool true); ("name", VStr "api")])].

(** The operations whose result takes its keys from one document. *)
Definition one_sided (operation : string) : bool :=
  bool_decide (operation ∈ ["intersect"; "diff"; "rdiff"]).

(** No list occurs in the value, at any level. *)
Fixpoint list_free (v : value) : bool :=
  match v with
  | VList _ => false
  | VDict kvs => forallb (λ kv, list_free kv.2) kvs
  | _ => true
  end.

(** A directory given as the first file. *)
Definition directory_as_file1 (path : string) : yaml_file :=
  if String.eqb path "conf.d" then Unreadable "[Errno 21] Is a directory: 'conf.d'"
  else Document (VDict file2).

(** A store in which the mapping at reference 1 binds [a] to the mapping at
    reference 2, and [a.x] to a number. *)
Definition aliased_store : Store.store :=
  <[2%positive := Store.ODict [("y", Store.CInt 1)]]>
    (<[1%positive := Store.ODict [("a", Store.CRef 2%positive);
                                  ("a.x", Store.CInt 5)]]> ∅).

(* ================================================================= *)
(** * Properties *)

(** ** Facts about dictionaries *)
Section dict_facts.
Context {V : Type}.
Implicit Types (d : list (string * V)) (k : string) (v : V).

Lemma dict_get_set_eq d k v : dict_get (dict_set d k v) k = Some v.
Proof.
  induction d as [|[k' v'] d IH]; simpl.
  - by rewrite String.eqb_refl.
  - destruct (String.eqb k' k) eqn:E; simpl.
    + by rewrite String.eqb_refl.
    + by rewrite E.
Qed.

Lemma dict_get_set_ne d k k' v :
  k ≠ k' → dict_get (dict_set d k v) k' = dict_get d k'.
Proof.
  intros Hne. induction d as [|[k0 v0] d IH]; simpl.
  - destruct (String.eqb_spec k k'); congruence.
  - destruct (String.eqb_spec k0 k) as [->|]; simpl.
    + destruct (String.eqb_spec k k'); congruence.
    + by rewrite IH.
Qed.

Lemma dict_get_None d k : dict_get d k = None ↔ k ∉ dict_keys d.
Proof.
  induction d as [|[k' v'] d IH]; simpl.
  - split; [intros _; apply not_elem_of_nil | done].
  - rewrite not_elem_of_cons.
    destruct (String.eqb_spec k' k) as [->|Hne].
    + split; [done|]. intros [? _]. done.
    + rewrite IH. split; [intros H; split; [congruence|done]|by intros [_ ?]].
Qed.

Lemma dict_get_Some_elem d k v : dict_get d k = Some v → (k, v) ∈ d.
Proof.
  induction d as [|[k' v'] d IH]; simpl; [done|].
  destruct (String.eqb_spec k' k) as [->|Hne].
  - intros [= ->]. left.
  - intros H. right. auto.
Qed.

Lemma dict_get_is_Some d k : is_Some (dict_get d k) ↔ k ∈ dict_keys d.
Proof.
  destruct (dict_get d k) eqn:E.
  - split; [|eauto]. intros _. apply dict_get_Some_elem in E.
    apply list_elem_of_fmap. by exists (k, v).
  - apply dict_get_None in E. split; [by intros [? ?]|done].
Qed.

Lemma dict_get_elem d k v :
  NoDup (dict_keys d) → (k, v) ∈ d → dict_get d k = Some v.
Proof.
  induction d as [|[k' v'] d IH]; simpl.
  - intros _ H. by apply elem_of_nil in H.
  - rewrite NoDup_cons. intros [Hnin Hnd] [[= -> ->]|Hin]%elem_of_cons.
    + by rewrite String.eqb_refl.
    + destruct (String.eqb_spec k' k) as [->|Hne]; [|auto].
      exfalso. apply Hnin. apply list_elem_of_fmap. by exists (k, v).
Qed.

Lemma dict_mem_true d k : dict_mem d k = true ↔ k ∈ dict_keys d.
Proof.
  unfold dict_mem. rewrite <- dict_get_is_Some.
  destruct (dict_get d k); split; intros H; try done; eauto.
Qed.

Lemma dict_set_absent d k v : dict_get d k = None → dict_set d k v = d ++ [(k, v)].
Proof.
  induction d as [|[k' v'] d IH]; simpl; [done|].
  destruct (String.eqb k' k); [done|]. intros H. by rewrite IH.
Qed.

Lemma dict_keys_set d k v :
  dict_keys (dict_set d k v) =
  if dict_mem d k then dict_keys d else dict_keys d ++ [k].
Proof.
  unfold dict_mem. induction d as [|[k' v'] d IH]; simpl; [done|].
  destruct (String.eqb_spec k' k) as [->|Hne]; simpl; [done|].
  rewrite IH. by destruct (dict_get d k).
Qed.

Lemma elem_of_dict_keys_set d k v k' :
  k' ∈ dict_keys (dict_set d k v) ↔ k' = k ∨ k' ∈ dict_keys d.
Proof.
  rewrite dict_keys_set. destruct (dict_mem d k) eqn:E.
  - apply dict_mem_true in E. naive_solver.
  - rewrite elem_of_app, list_elem_of_singleton. naive_solver.
Qed.

Lemma NoDup_dict_keys_set d k v :
  NoDup (dict_keys d) → NoDup (dict_keys (dict_set d k v)).
Proof.
  intros Hnd. rewrite dict_keys_set. destruct (dict_mem d k) eqn:E; [done|].
  apply NoDup_app. split_and!; [done| |apply NoDup_singleton].
  intros x Hx ->%list_elem_of_singleton.
  apply dict_mem_true in Hx. congruence.
Qed.

Lemma dict_set_set d k v v' : dict_set (dict_set d k v) k v' = dict_set d k v'.
Proof.
  induction d as [|[k0 v0] d IH]; simpl.
  - by rewrite String.eqb_refl.
  - destruct (String.eqb k0 k) eqn:E; simpl.
    + by rewrite String.eqb_refl.
    + by rewrite E, IH.
Qed.

Lemma length_dict_set d k v :
  length (dict_set d k v) = if dict_mem d k then length d else S (length d).
Proof.
  unfold dict_mem. induction d as [|[k0 v0] d IH]; simpl; [done|].
  destruct (String.eqb k0 k); simpl; [done|]. rewrite IH.
  by destruct (dict_get d k).
Qed.

(** Binding the entries of a duplicate-free list one after the other
    rebuilds the list. *)
Lemma fold_dict_set_app (l acc : list (string * V)) :
  NoDup (dict_keys (acc ++ l)) →
  fold_left (λ a kv, dict_set a kv.1 kv.2) l acc = acc ++ l.
Proof.
  revert acc. induction l as [|[k v] l IH]; intros acc Hnd; simpl.
  - by rewrite app_nil_r.
  - rewrite dict_set_absent.
    + rewrite IH; rewrite <- app_assoc; done.
    + apply dict_get_None. unfold dict_keys in *.
      rewrite fmap_app in Hnd. apply NoDup_app in Hnd as (_ & Hd & _).
      intros Hin. apply (Hd k Hin). simpl. left.
Qed.

Lemma dict_update_fresh (l acc : list (string * V)) :
  NoDup (dict_keys (acc ++ l)) → dict_update acc l = acc ++ l.
Proof. apply fold_dict_set_app. Qed.
End dict_facts.

(** ** Facts about [split] *)

Lemma split_not_nil c s : split c s ≠ [].
Proof. destruct s as [|a s]; simpl; [done|]. by destruct (Ascii.eqb a c), (split c s). Qed.

Lemma length_split s : length (split sep s) = segments s.
Proof.
  unfold segments. induction s as [|a s IH]; simpl; [done|].
  destruct (Ascii.eqb a sep); simpl; [by rewrite IH|].
  destruct (split sep s) eqn:E; [by apply split_not_nil in E|].
  simpl in *. lia.
Qed.

Lemma split_sep_free s : sep_free s = true → split sep s = [s].
Proof.
  induction s as [|a s IH]; simpl; [done|].
  destruct (Ascii.eqb a sep); simpl; [done|]. intros H. by rewrite IH.
Qed.

Lemma split_app p k :
  split sep (p ++ String sep k)%string = split sep p ++ split sep k.
Proof.
  induction p as [|a p IH]; simpl.
  - done.
  - destruct (Ascii.eqb a sep); simpl; rewrite IH; [done|].
    destruct (split sep p) eqn:E; [by apply split_not_nil in E|done].
Qed.

Lemma join_key_candidate p k : join_key p k = candidate_key p k.
Proof. by destruct p. Qed.

Lemma split_join_key_nonempty p k :
  p ≠ "" → split sep (join_key p k) = split sep p ++ split sep k.
Proof. destruct p; [done|]. intros _. apply (split_app (String a p)). Qed.

Lemma split_inj s t : split sep s = split sep t → s = t.
Proof.
  revert t. induction s as [|a s IH]; intros [|b t]; simpl; try done.
  - destruct (Ascii.eqb b sep); [|by destruct (split sep t)].
    intros [= H]. symmetry in H. by apply split_not_nil in H.
  - destruct (Ascii.eqb a sep); [|by destruct (split sep s)].
    intros [= H]. by apply split_not_nil in H.
  - destruct (Ascii.eqb_spec a sep) as [->|Ha], (Ascii.eqb_spec b sep) as [->|Hb].
    + intros [= H]. f_equal. auto.
    + by destruct (split sep t).
    + by destruct (split sep s).
    + destruct (split sep s) eqn:Es; [by apply split_not_nil in Es|].
      destruct (split sep t) eqn:Et; [by apply split_not_nil in Et|].
      intros [= -> -> ->]. f_equal. apply IH. by rewrite Et.
Qed.

(** ** [flatten_dict] against its contract *)

Lemma nonempty_mapping_spec v : is_dict v && truthy v = nonempty_mapping v.
Proof. by destruct v as [| | | | |[|]]. Qed.

Lemma flatten_loop_fold rec depth p data items :
  flatten_loop rec depth p data items =
  fold_left (flatten_step rec depth p) data items.
Proof.
  revert items. induction data as [|[k v] data IH]; intros items; simpl; [done|].
  by rewrite IH.
Qed.

Lemma flatten_value_dict depth p kvs :
  flatten_value depth p (VDict kvs) =
  if (depth =? 1) && negb (str_truthy p) then kvs
  else fold_left (flatten_step (flatten_value depth) depth p) kvs [].
Proof. simpl. by rewrite flatten_loop_fold. Qed.

Lemma fold_left_ext_Forall {A B} (f g : A → B → A) (P : B → Prop) l a :
  Forall P l → (∀ a b, P b → f a b = g a b) → fold_left f l a = fold_left g l a.
Proof.
  intros Hl Hfg. revert a. induction Hl as [|b l Hb Hl IH]; intros a; simpl; [done|].
  by rewrite Hfg, IH.
Qed.

(** Away from the depth-1 shortcut the code is the walk of the contract. *)
Lemma flatten_value_walk depth v : ∀ p,
  (depth =? 1) && negb (str_truthy p) = false →
  flatten_value depth p v = flatten_spec depth p v.
Proof.
  induction v as [| | | | |kvs IH] using value_ind'; try done.
  intros p Hp. rewrite flatten_value_dict, Hp. simpl.
  apply (fold_left_ext_Forall _ _ _ _ _ IH).
  intros acc [k x] Hx. unfold flatten_step. simpl in *.
  rewrite <- join_key_candidate, length_split, nonempty_mapping_spec.
  destruct ((0 <? depth) && (depth <=? Z.of_nat (segments (join_key p k)))) eqn:E;
    [done|].
  destruct (nonempty_mapping x); [|done].
  unfold merge, emit, dict_update. rewrite Hx; [done|].
  destruct (Z.eqb_spec depth 1) as [->|]; [|done].
  unfold segments in E. simpl in E.
  apply Z.leb_gt in E. lia.
Qed.

(** At depth 1 the walk emits every root entry as it is. *)
Lemma flatten_spec_depth_1 kvs :
  NoDup (dict_keys kvs) → flatten_spec 1 "" (VDict kvs) = kvs.
Proof.
  intros Hnd. simpl.
  rewrite (fold_left_ext_Forall _ (λ a kv, dict_set a kv.1 kv.2) (λ _, True)).
  - by apply (fold_dict_set_app kvs []).
  - by apply Forall_true.
  - intros acc [k x] _. simpl. unfold candidate_key. simpl.
    unfold segments. replace (1 <=? _) with true; [done|].
    symmetry. apply Z.leb_le. lia.
Qed.

(** C2: for every mapping document (a [dict] binds no key twice), every
    depth and every path prefix, [flatten_dict] computes the walk of the
    contract: each key [k] with value [v] gives [new_key = p + "." + k]
    ([k] when [p] is empty); [new_key] is bound to [v] as it is when
    [depth > 0] and [new_key] has [depth] segments or more; else the walk
    recurses into a non-empty mapping [v] with [new_key] as prefix and merges
    the result; else it binds [new_key] to [v]. *)
Theorem flatten_dict_meets_contract (data : dict) (depth : Z) (p : string) :
  NoDup (dict_keys data) →
  flatten_dict data depth p = flatten_spec depth p (VDict data).
Proof.
  intros Hnd. unfold flatten_dict.
  destruct ((depth =? 1) && negb (str_truthy p)) eqn:E.
  - apply andb_true_iff in E as [->%Z.eqb_eq Hp]. destruct p; [|done].
    rewrite flatten_spec_depth_1 by done. done.
  - by apply flatten_value_walk.
Qed.

Lemma flatten_dict_meets_contract_witness :
  NoDup (dict_keys nested1) ∧
  flatten_dict nested1 2 "" = flatten_spec 2 "" (VDict nested1).
Proof.
  assert (NoDup (dict_keys nested1)) as H
    by (apply (bool_decide_eq_true_1 (NoDup _)); reflexivity).
  split; [exact H|]. apply (flatten_dict_meets_contract nested1 2 "" H).
Defined.

(** ** Facts about sets *)
Section pyset_facts.
Context {A : Type} (eqb : A → A → bool).

Lemma elem_of_set_add s x y : y ∈ set_add eqb s x → y ∈ s ∨ y = x.
Proof.
  unfold set_add. destruct (set_mem eqb x s); [by left|].
  rewrite elem_of_app, list_elem_of_singleton. tauto.
Qed.

Lemma set_of_acc_sub l acc x :
  x ∈ fold_left (set_add eqb) l acc → x ∈ acc ∨ x ∈ l.
Proof.
  revert acc. induction l as [|y l IH]; intros acc; simpl; [by left|].
  intros [[H| ->]%elem_of_set_add|H]%IH.
  - by left.
  - right. left.
  - right. by right.
Qed.

Lemma elem_of_set_of l x : x ∈ set_of eqb l → x ∈ l.
Proof. intros [H|H]%set_of_acc_sub; [by apply elem_of_nil in H|done]. Qed.

Lemma elem_of_set_union s1 s2 x : x ∈ set_union eqb s1 s2 → x ∈ s1 ∨ x ∈ s2.
Proof.
  unfold set_union. rewrite elem_of_app, list_elem_of_filter. tauto.
Qed.

Lemma elem_of_set_inter s1 s2 x : x ∈ set_inter eqb s1 s2 → x ∈ s1.
Proof. unfold set_inter. rewrite list_elem_of_filter. tauto. Qed.

Lemma elem_of_set_diff s1 s2 x : x ∈ set_diff eqb s1 s2 → x ∈ s1.
Proof. unfold set_diff. rewrite list_elem_of_filter. tauto. Qed.

Lemma elem_of_set_symdiff s1 s2 x : x ∈ set_symdiff eqb s1 s2 → x ∈ s1 ∨ x ∈ s2.
Proof.
  unfold set_symdiff. rewrite elem_of_app.
  intros [H%elem_of_set_diff|H%elem_of_set_diff]; tauto.
Qed.

(** Membership up to [eqb]. *)
Lemma set_mem_true x s : set_mem eqb x s = true ↔ ∃ y, y ∈ s ∧ eqb x y = true.
Proof.
  unfold set_mem. rewrite existsb_exists.
  split; intros (y & H1 & H2); exists y; split; try done;
    by apply list_elem_of_In.
Qed.

(** Any image of the elements that [eqb] respects is kept by [set(l)] and
    by union. *)
Context {B : Type} (f : A → B) (Hf : ∀ x y, eqb x y = true → f x = f y).

Lemma set_add_image s x b : b ∈ f <$> set_add eqb s x ↔ b ∈ f <$> s ∨ b = f x.
Proof.
  unfold set_add. destruct (set_mem eqb x s) eqn:E.
  - split; [by left|]. intros [H| ->]; [done|].
    apply set_mem_true in E as (y & Hy & Hxy).
    rewrite (Hf _ _ Hxy). by apply list_elem_of_fmap_2.
  - rewrite fmap_app, elem_of_app. simpl. by rewrite list_elem_of_singleton.
Qed.

Lemma set_of_acc_image l acc b :
  b ∈ f <$> fold_left (set_add eqb) l acc ↔ b ∈ f <$> acc ∨ b ∈ f <$> l.
Proof.
  revert acc. induction l as [|y l IH]; intros acc; simpl.
  - split; [by left|]. intros [H|H]; [done|by apply elem_of_nil in H].
  - rewrite IH, set_add_image, elem_of_cons. tauto.
Qed.

Lemma set_of_image l b : b ∈ f <$> set_of eqb l ↔ b ∈ f <$> l.
Proof.
  unfold set_of. rewrite set_of_acc_image. simpl.
  split; [intros [H|H]; [by apply elem_of_nil in H|done]|by right].
Qed.

Lemma set_union_image s1 s2 b :
  b ∈ f <$> set_union eqb s1 s2 ↔ b ∈ f <$> s1 ∨ b ∈ f <$> s2.
Proof.
  unfold set_union. rewrite fmap_app, elem_of_app. split.
  - intros [H|H]; [by left|right].
    apply list_elem_of_fmap in H as (x & -> & [_ Hx]%list_elem_of_filter).
    by apply list_elem_of_fmap_2.
  - intros [H|H]; [by left|].
    apply list_elem_of_fmap in H as (x & -> & Hx).
    destruct (set_mem eqb x s1) eqn:E.
    + left. apply set_mem_true in E as (y & Hy & Hxy).
      rewrite (Hf _ _ Hxy). by apply list_elem_of_fmap_2.
    + right. apply list_elem_of_fmap_2, list_elem_of_filter.
      split; [|done]. by rewrite E.
Qed.
End pyset_facts.

Lemma item_eqb_key x y : item_eqb x y = true → x.1 = y.1.
Proof. unfold item_eqb. intros [H _]%andb_true_iff. by apply String.eqb_eq. Qed.

Lemma String_eqb_id (x y : string) : String.eqb x y = true → id x = id y.
Proof. apply String.eqb_eq. Qed.

Implicit Types (flat acc : dict) (keys : list string).

Lemma keys_items_of flat k : k ∈ (items_of flat).*1 ↔ k ∈ dict_keys flat.
Proof.
  unfold items_of. rewrite (set_of_image item_eqb fst item_eqb_key).
  unfold dict_keys. rewrite <- list_fmap_compose. done.
Qed.

Lemma keys_set_of flat k :
  k ∈ set_of String.eqb (dict_keys flat) ↔ k ∈ dict_keys flat.
Proof.
  pose proof (set_of_image String.eqb id String_eqb_id (dict_keys flat) k) as H.
  by rewrite !list_fmap_id in H.
Qed.

(** ** Building the result mapping *)

Lemma prefer_file1_spec flat1 flat2 keys : ∀ acc,
  (∀ k, k ∈ keys → k ∈ dict_keys flat1 ∨ k ∈ dict_keys flat2) →
  ∃ r, prefer_file1 flat1 flat2 keys acc = Ok r ∧
       (NoDup (dict_keys acc) → NoDup (dict_keys r)) ∧
       (∀ k, dict_get r k =
             if decide (k ∈ keys) then resolve flat1 flat2 k
             else dict_get acc k).
Proof.
  induction keys as [|key keys IH]; intros acc Hkeys; simpl.
  - exists acc. split_and!; [done..|]. intros k.
    destruct (decide (k ∈ [])) as [H|]; [by apply elem_of_nil in H|done].
  - assert (∃ v, resolve flat1 flat2 key = Some v ∧
                 (if dict_mem flat1 key then subscript flat1 key
                  else subscript flat2 key) = Ok v) as (v & Hres & ->).
    { unfold resolve, dict_mem, subscript.
      destruct (dict_get flat1 key) eqn:E1; [eauto|].
      destruct (dict_get flat2 key) eqn:E2; [eauto|].
      apply dict_get_None in E1, E2.
      destruct (Hkeys key) as [?|?]; [left|done..]. }
    simpl. destruct (IH (dict_set acc key v)) as (r & -> & Hnd & Hget).
    { intros k Hk. apply Hkeys. by right. }
    exists r. split_and!; [done| |].
    + intros H. by apply Hnd, NoDup_dict_keys_set.
    + intros k. rewrite Hget.
      destruct (decide (k ∈ keys)) as [Hin|Hnin].
      * rewrite decide_True; [done|by right].
      * destruct (decide (k = key)) as [->|Hne].
        -- rewrite decide_True by left. by rewrite dict_get_set_eq.
        -- rewrite decide_False by (rewrite elem_of_cons; tauto).
           by rewrite dict_get_set_ne.
Qed.

Lemma from_file_spec flat keys : ∀ acc,
  (∀ k, k ∈ keys → k ∈ dict_keys flat) →
  ∃ r, from_file flat keys acc = Ok r ∧
       (NoDup (dict_keys acc) → NoDup (dict_keys r)) ∧
       (∀ k, dict_get r k =
             if decide (k ∈ keys) then dict_get flat k else dict_get acc k).
Proof.
  induction keys as [|key keys IH]; intros acc Hkeys; simpl.
  - exists acc. split_and!; [done..|]. intros k.
    destruct (decide (k ∈ [])) as [H|]; [by apply elem_of_nil in H|done].
  - unfold subscript at 1.
    destruct (dict_get flat key) as [v|] eqn:E.
    2:{ apply dict_get_None in E. destruct E. apply Hkeys. left. }
    simpl. destruct (IH (dict_set acc key v)) as (r & -> & Hnd & Hget).
    { intros k Hk. apply Hkeys. by right. }
    exists r. split_and!; [done| |].
    + intros H. by apply Hnd, NoDup_dict_keys_set.
    + intros k. rewrite Hget.
      destruct (decide (k ∈ keys)) as [Hin|Hnin].
      * rewrite decide_True; [done|by right].
      * destruct (decide (k = key)) as [->|Hne].
        -- rewrite decide_True by left. by rewrite dict_get_set_eq.
        -- rewrite decide_False by (rewrite elem_of_cons; tauto).
           by rewrite dict_get_set_ne.
Qed.

Implicit Types (o : iteration_order).

Lemma elem_of_key_order o l k : k ∈ key_order o l ↔ k ∈ l.
Proof. by rewrite (key_order_perm o l). Qed.

Lemma elem_of_item_order o l x : x ∈ item_order o l ↔ x ∈ l.
Proof. by rewrite (item_order_perm o l). Qed.

Lemma key_order_nil o : key_order o [] = [].
Proof. apply Permutation_nil_r. apply key_order_perm. Qed.

Lemma resolve_Some flat1 flat2 k v :
  resolve flat1 flat2 k = Some v →
  dict_get flat1 k = Some v ∨ dict_get flat2 k = Some v.
Proof. unfold resolve. destruct (dict_get flat1 k); [intros [= ->]; auto|auto]. Qed.

Lemma resolve_None flat1 flat2 k :
  resolve flat1 flat2 k = None ↔ (k ∉ dict_keys flat1) ∧ (k ∉ dict_keys flat2).
Proof.
  unfold resolve. rewrite <- !dict_get_None.
  destruct (dict_get flat1 k); [|tauto]. split; [done|]. by intros [? _].
Qed.

(** The key of an item of [items_of flat] is a key of [flat]. *)
Lemma item_key_in flat x : x ∈ items_of flat → x.1 ∈ dict_keys flat.
Proof. intros H. apply keys_items_of. by apply list_elem_of_fmap_2. Qed.

(** The result mapping exists whatever the operation and the mode, binds no
    key twice, and takes every entry from one of the two flat mappings. *)
Lemma set_operation_result_ok o flat1 flat2 operation compare_mode :
  ∃ r, set_operation_result o flat1 flat2 operation compare_mode = Ok r ∧
       NoDup (dict_keys r) ∧
       (∀ k v, dict_get r k = Some v →
               dict_get flat1 k = Some v ∨ dict_get flat2 k = Some v).
Proof.
  unfold set_operation_result.
  assert (∀ keys, (∀ k, k ∈ keys → k ∈ dict_keys flat1 ∨ k ∈ dict_keys flat2) →
    ∃ r, prefer_file1 flat1 flat2 keys [] = Ok r ∧ NoDup (dict_keys r) ∧
         (∀ k v, dict_get r k = Some v →
                 dict_get flat1 k = Some v ∨ dict_get flat2 k = Some v)) as Hpref.
  { intros keys Hk. destruct (prefer_file1_spec flat1 flat2 keys [] Hk)
      as (r & Hr & Hnd & Hget).
    exists r. split_and!; [done|apply Hnd; constructor|].
    intros k v. rewrite Hget. case_decide; [apply resolve_Some|done]. }
  assert (∀ flat keys, (∀ k, k ∈ keys → k ∈ dict_keys flat) →
    ∃ r, from_file flat keys [] = Ok r ∧ NoDup (dict_keys r) ∧
         (∀ k v, dict_get r k = Some v → dict_get flat k = Some v)) as Hfrom.
  { intros flat keys Hk. destruct (from_file_spec flat keys [] Hk)
      as (r & Hr & Hnd & Hget).
    exists r. split_and!; [done|apply Hnd; constructor|].
    intros k v. rewrite Hget. by case_decide. }
  destruct (String.eqb compare_mode "keys").
  - apply Hpref. intros k. rewrite elem_of_key_order.
    repeat case_match;
      [intros [?|?]%elem_of_set_union
      |intros ?%elem_of_set_inter
      |intros ?%elem_of_set_diff
      |intros ?%elem_of_set_diff
      |intros [?|?]%elem_of_set_symdiff
      |intros ?%elem_of_nil];
      rewrite <- !keys_set_of; tauto.
  - repeat case_match.
    + apply Hpref. intros k (x & -> & Hx)%list_elem_of_fmap.
      apply elem_of_item_order, elem_of_set_union in Hx as [?|?];
        [left|right]; by apply item_key_in.
    + destruct (Hfrom flat1 (item_order o (set_inter item_eqb (items_of flat1)
                  (items_of flat2))).*1) as (r & ? & ? & Hr).
      { intros k (x & -> & Hx)%list_elem_of_fmap.
        apply elem_of_item_order, elem_of_set_inter in Hx. by apply item_key_in. }
      exists r. split_and!; [done..|]. intros k v ?. left. by apply Hr.
    + destruct (Hfrom flat1 (item_order o (set_diff item_eqb (items_of flat1)
                  (items_of flat2))).*1) as (r & ? & ? & Hr).
      { intros k (x & -> & Hx)%list_elem_of_fmap.
        apply elem_of_item_order, elem_of_set_diff in Hx. by apply item_key_in. }
      exists r. split_and!; [done..|]. intros k v ?. left. by apply Hr.
    + destruct (Hfrom flat2 (item_order o (set_diff item_eqb (items_of flat2)
                  (items_of flat1))).*1) as (r & ? & ? & Hr).
      { intros k (x & -> & Hx)%list_elem_of_fmap.
        apply elem_of_item_order, elem_of_set_diff in Hx. by apply item_key_in. }
      exists r. split_and!; [done..|]. intros k v ?. right. by apply Hr.
    + apply Hpref. intros k (x & -> & Hx)%list_elem_of_fmap.
      apply elem_of_item_order, elem_of_set_symdiff in Hx as [?|?];
        [left|right]; by apply item_key_in.
    + exists []. split_and!; [done|constructor|done].
Qed.

Lemma unsupported_operation_eqb operation :
  supported_operation operation = false →
  String.eqb operation "union" = false ∧
  String.eqb operation "intersect" = false ∧
  String.eqb operation "diff" = false ∧
  String.eqb operation "rdiff" = false ∧
  String.eqb operation "symdiff" = false.
Proof.
  unfold supported_operation. intros H%bool_decide_eq_false.
  rewrite !elem_of_cons in H. rewrite !String.eqb_neq. naive_solver.
Qed.

Lemma set_operation_result_unsupported o flat1 flat2 operation compare_mode :
  supported_operation operation = false →
  set_operation_result o flat1 flat2 operation compare_mode = Ok [].
Proof.
  intros (H1 & H2 & H3 & H4 & H5)%unsupported_operation_eqb.
  unfold set_operation_result. rewrite H1, H2, H3, H4, H5.
  destruct (String.eqb compare_mode "keys"); [|done].
  by rewrite key_order_nil.
Qed.

(** The result mapping of a union, in either mode. *)
Lemma set_operation_result_union o flat1 flat2 compare_mode :
  ∃ r, set_operation_result o flat1 flat2 "union" compare_mode = Ok r ∧
       NoDup (dict_keys r) ∧
       (∀ k, dict_get r k = resolve flat1 flat2 k).
Proof.
  unfold set_operation_result. simpl.
  assert (∀ keys, (∀ k, k ∈ keys ↔ k ∈ dict_keys flat1 ∨ k ∈ dict_keys flat2) →
    ∃ r, prefer_file1 flat1 flat2 keys [] = Ok r ∧ NoDup (dict_keys r) ∧
         (∀ k, dict_get r k = resolve flat1 flat2 k)) as Hpref.
  { intros keys Hk.
    destruct (prefer_file1_spec flat1 flat2 keys []) as (r & Hr & Hnd & Hget).
    { intros k. apply Hk. }
    exists r. split_and!; [done|apply Hnd; constructor|].
    intros k. rewrite Hget. case_decide as Hin; [done|]. simpl.
    symmetry. apply resolve_None. rewrite Hk in Hin. tauto. }
  destruct (String.eqb compare_mode "keys"); apply Hpref; intros k.
  - rewrite elem_of_key_order.
    pose proof (set_union_image String.eqb id String_eqb_id
                  (set_of String.eqb (dict_keys flat1))
                  (set_of String.eqb (dict_keys flat2)) k) as H.
    rewrite !list_fmap_id in H. by rewrite H, !keys_set_of.
  - rewrite (fmap_Permutation _ _ _ (item_order_perm o _)).
    rewrite (set_union_image item_eqb fst item_eqb_key).
    by rewrite !keys_items_of.
Qed.

Implicit Types (d : dict).

(** ** Well-formed values *)

Lemma wf_value_dict kvs :
  wf_value (VDict kvs) ↔
  NoDup (dict_keys kvs) ∧ Forall (λ kv, wf_value kv.2) kvs.
Proof.
  unfold wf_value. simpl. rewrite andb_true_iff, bool_decide_eq_true.
  rewrite forallb_forall, Forall_forall.
  split; intros [? H]; (split; [done|]); intros x Hx; apply H;
    by apply list_elem_of_In.
Qed.

Lemma wf_value_list xs : wf_value (VList xs) ↔ Forall wf_value xs.
Proof.
  unfold wf_value. simpl. rewrite forallb_forall, Forall_forall.
  split; intros H x Hx; apply H; by apply list_elem_of_In.
Qed.

(** ** What [flatten_dict] emits *)

Section emitted.
Variable Q : value → Prop.

Lemma Forall_dict_set d k v :
  Forall (λ kv, Q kv.2) d → Q v → Forall (λ kv, Q kv.2) (dict_set d k v).
Proof.
  intros Hd Hv. induction Hd as [|[k' v'] d Hx Hd IH]; simpl.
  - by repeat constructor.
  - destruct (String.eqb k' k); constructor; done.
Qed.

Lemma Forall_dict_update d l :
  Forall (λ kv, Q kv.2) d → Forall (λ kv, Q kv.2) l →
  Forall (λ kv, Q kv.2) (dict_update d l).
Proof.
  intros Hd Hl. revert d Hd. unfold dict_update.
  induction Hl as [|[k v] l Hx Hl IH]; intros d Hd; simpl; [done|].
  apply IH. by apply Forall_dict_set.
Qed.

(** In a fold of [flatten_step], [Q] holds of every emitted value as soon
    as each step emits values satisfying [Q]. *)
Lemma Forall_flatten_fold rec depth p kvs acc :
  Forall (λ kv, Q kv.2) acc →
  Forall (λ kv,
    (Q kv.2 ∨ nonempty_mapping kv.2 = true ∧
              ¬ (0 < depth ≤ Z.of_nat (segments (join_key p kv.1)))) ∧
    (nonempty_mapping kv.2 = true →
     ¬ (0 < depth ≤ Z.of_nat (segments (join_key p kv.1))) →
     Forall (λ kv', Q kv'.2) (rec (join_key p kv.1) kv.2))) kvs →
  Forall (λ kv, Q kv.2) (fold_left (flatten_step rec depth p) kvs acc).
Proof.
  intros Hacc Hkvs. revert acc Hacc.
  induction Hkvs as [|[k v] kvs [Hv Hrec] Hkvs IH]; intros acc Hacc; simpl;
    [done|].
  apply IH. unfold flatten_step. simpl in *.
  rewrite length_split, nonempty_mapping_spec.
  destruct ((0 <? depth) && (depth <=? _)) eqn:E.
  - apply andb_true_iff in E as [E1%Z.ltb_lt E2%Z.leb_le].
    apply Forall_dict_set; [done|]. destruct Hv as [?|[_ Hv]]; [done|].
    destruct Hv. lia.
  - assert (¬ (0 < depth ≤ Z.of_nat (segments (join_key p k)))) as Hn.
    { intros [? ?]. apply andb_false_iff in E as [E%Z.ltb_ge|E%Z.leb_gt]; lia. }
    destruct (nonempty_mapping v) eqn:Ev.
    + apply Forall_dict_update; [done|]. by apply Hrec.
    + apply Forall_dict_set; [done|]. by destruct Hv as [?|[? _]].
Qed.
End emitted.

(** Flattening without a depth limit leaves no non-empty mapping as a
    value. *)
Lemma flatten_value_leaves depth v : ∀ p,
  depth ≤ 0 →
  Forall (λ kv, nonempty_mapping kv.2 = false) (flatten_value depth p v).
Proof.
  induction v as [| | | | |kvs IH] using value_ind'; intros p Hd;
    try by constructor.
  rewrite flatten_value_dict.
  destruct (Z.eqb_spec depth 1) as [->|_]; [lia|]. simpl.
  apply (Forall_flatten_fold (λ x, nonempty_mapping x = false)); [constructor|].
  eapply Forall_impl; [apply IH|]. intros [k x] Hx. simpl in *. split.
  - destruct (nonempty_mapping x); [right; split; [done|lia]|by left].
  - intros _ _. by apply Hx.
Qed.

(** The values [flatten_dict] emits are values of the document. *)
Lemma flatten_value_wf depth v : ∀ p,
  wf_value v → Forall (λ kv, wf_value kv.2) (flatten_value depth p v).
Proof.
  induction v as [| | | | |kvs IH] using value_ind'; intros p Hwf;
    try by constructor.
  apply wf_value_dict in Hwf as [Hnd Hwf].
  rewrite flatten_value_dict. case_match; [done|].
  apply (Forall_flatten_fold wf_value); [constructor|].
  rewrite Forall_forall in IH, Hwf. apply Forall_forall.
  intros [k x] Hx. simpl. split; [left; by apply (Hwf _ Hx)|].
  intros _ _. apply (IH _ Hx). by apply (Hwf _ Hx).
Qed.

(** ** Equality of values *)

Lemma py_eq_dict d1 d2 :
  py_eq (VDict d1) (VDict d2) = (length d1 =? length d2)%nat && entries_eq d2 d1.
Proof. done. Qed.

Lemma entries_eq_true d2 l :
  entries_eq d2 l = true ↔
  ∀ k v, (k, v) ∈ l → ∃ v', dict_get d2 k = Some v' ∧ py_eq v v' = true.
Proof.
  induction l as [|[k v] l IH]; simpl.
  - split; [|done]. intros _ k v H. by apply elem_of_nil in H.
  - rewrite andb_true_iff, IH. split.
    + intros [H1 H2] k' v' [[= -> ->]|Hin]%elem_of_cons; [|by apply H2].
      destruct (dict_get d2 k); [eauto|done].
    + intros H. split.
      * destruct (H k v) as (v' & -> & ?); [left|done].
      * intros k' v' Hin. apply H. by right.
Qed.

Lemma py_eq_list_refl xs :
  Forall (λ x, py_eq x x = true) xs → py_eq (VList xs) (VList xs) = true.
Proof.
  simpl. induction 1 as [|x xs Hx _ IH]; [done|]. by rewrite Hx, IH.
Qed.

Lemma py_eq_refl v : wf_value v → py_eq v v = true.
Proof.
  induction v as [|b|n|s|xs IH|kvs IH] using value_ind'; intros Hwf; simpl;
    try done.
  - by destruct b.
  - apply Z.eqb_refl.
  - apply String.eqb_refl.
  - apply py_eq_list_refl. apply wf_value_list in Hwf.
    rewrite Forall_forall in IH, Hwf. apply Forall_forall. intros x Hx.
    by apply IH, Hwf.
  - apply wf_value_dict in Hwf as [Hnd Hwf].
    change (py_eq (VDict kvs) (VDict kvs) = true).
    rewrite py_eq_dict, Nat.eqb_refl. simpl. apply entries_eq_true.
    intros k v Hin. exists v. split; [by apply dict_get_elem|].
    rewrite Forall_forall in IH, Hwf. by apply (IH _ Hin), (Hwf _ Hin).
Qed.

Lemma NoDup_same_length (l1 l2 : list string) :
  NoDup l1 → NoDup l2 → (∀ k, k ∈ l1 ↔ k ∈ l2) → length l1 = length l2.
Proof. intros H1 H2 H. apply Permutation_length. by apply NoDup_Permutation. Qed.

(** Two mappings that bind the same keys to the same values are equal,
    whatever the order of their entries. *)
Lemma py_eq_same_bindings d1 d2 :
  wf_dict d1 → NoDup (dict_keys d2) →
  (∀ k, dict_get d1 k = dict_get d2 k) →
  py_eq (VDict d1) (VDict d2) = true.
Proof.
  intros [Hnd1 Hwf]%wf_value_dict Hnd2 Hget.
  rewrite py_eq_dict. apply andb_true_iff. split.
  - apply Nat.eqb_eq.
    transitivity (length (dict_keys d1)); [symmetry; apply length_map|].
    transitivity (length (dict_keys d2)); [|apply length_map].
    apply NoDup_same_length; [done..|]. intros k.
    by rewrite <- !dict_get_is_Some, Hget.
  - apply entries_eq_true. intros k v Hin. exists v. split.
    + rewrite <- Hget. by apply dict_get_elem.
    + apply py_eq_refl. rewrite Forall_forall in Hwf. apply (Hwf _ Hin).
Qed.

Lemma unflatten_dict_nil : unflatten_dict [] = Ok [].
Proof. done. Qed.

Lemma perform_set_operation_flat o A B operation compare_mode depth :
  depth ≤ 1 →
  perform_set_operation o A B operation compare_mode depth =
  set_operation_result o (flatten_dict A depth "") (flatten_dict B depth "")
    operation compare_mode.
Proof.
  intros Hd. unfold perform_set_operation.
  destruct (set_operation_result _ _ _ _ _) as [r|e]; simpl; [|done].
  by rewrite (proj2 (Z.ltb_ge 1 depth)).
Qed.

(** C3, as stated, fails: an unknown compare mode is not a no-op. *)
Lemma unsupported_mode_is_not_empty :
  ¬ (∀ o (A B : dict) operation compare_mode depth,
        supported_operation operation = false ∨
        supported_mode compare_mode = false →
        perform_set_operation o A B operation compare_mode depth = Ok []).
Proof.
  intros H.
  discriminate (H insertion_order [("a", VInt 1)] [] "union" "values" 1).
  by right.
Qed.

(** C3, amended: an operation string outside the five supported ones gives
    the empty result and raises nothing, for every compare mode and depth;
    a compare mode other than [keys] is handled as [kv]. *)
Theorem unsupported_operation_is_empty o (A B : dict) operation compare_mode depth :
  supported_operation operation = false →
  perform_set_operation o A B operation compare_mode depth = Ok [] ∧
  (∀ operation',
     String.eqb compare_mode "keys" = false →
     perform_set_operation o A B operation' compare_mode depth =
     perform_set_operation o A B operation' "kv" depth).
Proof.
  intros Hop. split.
  - unfold perform_set_operation.
    rewrite set_operation_result_unsupported by done. simpl.
    by destruct (1 <? depth).
  - intros operation' Hm. unfold perform_set_operation, set_operation_result.
    by rewrite Hm.
Qed.

Lemma unsupported_operation_is_empty_witness :
  perform_set_operation reverse_order [("a", VInt 1)] [("b", VInt 2)]
    "merge" "keys" 2 = Ok [] ∧
  (∀ operation',
     String.eqb "keys" "keys" = false →
     perform_set_operation reverse_order [("a", VInt 1)] [("b", VInt 2)]
       operation' "keys" 2 =
     perform_set_operation reverse_order [("a", VInt 1)] [("b", VInt 2)]
       operation' "kv" 2).
Proof. apply unsupported_operation_is_empty. reflexivity. Defined.

(** ** Loading *)


Lemma load_yaml_file_truthy file_path root :
  truthy root = true → is_dict root = false →
  load_yaml_file file_path (Document root) = SysExit 1 (root_error file_path).
Proof. intros Ht Hd. simpl. rewrite Ht. by destruct root. Qed.




(** An unlimited-depth comparison of nested documents yields dotted keys. *)
Example depth_0_union_example :
  perform_set_operation insertion_order
    [("a", VDict [("b", VInt 1)])] [("a", VDict [("c", VInt 2)])]
    "union" "kv" 0 = Ok [("a.b", VInt 1); ("a.c", VInt 2)].
Proof. reflexivity. Qed.

Lemma set_operation_result_wf o flat1 flat2 operation compare_mode r :
  Forall (λ kv, wf_value kv.2) flat1 → Forall (λ kv, wf_value kv.2) flat2 →
  set_operation_result o flat1 flat2 operation compare_mode = Ok r →
  wf_dict r.
Proof.
  intros H1 H2 Hr.
  destruct (set_operation_result_ok o flat1 flat2 operation compare_mode)
    as (r' & Hr' & Hnd & Hget).
  rewrite Hr in Hr'. injection Hr' as <-.
  apply wf_value_dict. split; [done|]. apply Forall_forall.
  intros [k v] Hin. simpl. apply (dict_get_elem _ _ _ Hnd) in Hin.
  rewrite Forall_forall in H1, H2.
  destruct (Hget _ _ Hin) as [H|H]; apply dict_get_Some_elem in H.
  - apply (H1 _ H).
  - apply (H2 _ H).
Qed.

(** ** The copy made at depth 1 *)

Lemma flatten_dict_depth_1 (d : dict) : flatten_dict d 1 "" = d.
Proof. done. Qed.

Lemma represents_dict st kvs c :
  Store.represents st (VDict kvs) c ↔
  ∃ r items, c = Store.CRef r ∧ st !! r = Some (Store.ODict items) ∧
             represents_items st kvs items.
Proof.
  destruct c as [| | | |r]; simpl;
    try (split; [done|by intros (? & ? & ? & _)]).
  split.
  - intros (items & Hr & H). exists r, items. split_and!; [done..|].
    clear Hr. revert items H.
    induction kvs as [|[k x] kvs IH]; intros [|[k' c'] items] H; try done;
      try (by constructor).
    destruct H as (-> & Hx & H). constructor; [done|]. by apply IH.
  - intros (r' & items & [= <-] & Hr & H). exists items. split; [done|].
    clear Hr. induction H as [|[k x] [k' c'] kvs items [Hk Hx] _ IH]; [done|].
    simpl in *. by subst.
Qed.

Lemma represents_list st xs c :
  Store.represents st (VList xs) c ↔
  ∃ r items, c = Store.CRef r ∧ st !! r = Some (Store.OList items) ∧
             Forall2 (Store.represents st) xs items.
Proof.
  destruct c as [| | | |r]; simpl;
    try (split; [done|by intros (? & ? & ? & _)]).
  split.
  - intros (items & Hr & H). exists r, items. split_and!; [done..|].
    clear Hr. revert items H.
    induction xs as [|x xs IH]; intros [|c' items] H; try done;
      try (by constructor).
    destruct H as (Hx & H). constructor; [done|]. by apply IH.
  - intros (r' & items & [= <-] & Hr & H). exists items. split; [done|].
    clear Hr. induction H as [|x c' xs items Hx _ IH]; done.
Qed.

(** Allocating or adding objects does not change what a Store.cell holds. *)
Lemma represents_mono st st' v : ∀ c,
  st ⊆ st' → Store.represents st v c → Store.represents st' v c.
Proof.
  induction v as [| | | |xs IH|kvs IH] using value_ind'; intros c Hsub;
    try by destruct c.
  - rewrite !represents_list. intros (r & items & -> & Hr & H).
    exists r, items. split_and!; [done|by eapply lookup_weaken|].
    clear Hr. induction H as [|x c' xs items Hx H IH']; [constructor|].
    apply Forall_cons in IH as [IHx IH]. constructor; [by apply IHx|by apply IH'].
  - rewrite !represents_dict. intros (r & items & -> & Hr & H).
    exists r, items. split_and!; [done|by eapply lookup_weaken|].
    clear Hr. unfold represents_items in *.
    induction H as [|[k x] [k' c'] kvs items [Hk Hx] H IH']; [constructor|].
    apply Forall_cons in IH as [IHx IH]. simpl in *.
    constructor; [split; [done|by apply IHx]|by apply IH'].
Qed.

Lemma alloc_fresh (st : Store.store) (o : Store.object) : st !! (Store.alloc st o).2 = None.
Proof. unfold Store.alloc. simpl. apply not_elem_of_dom, is_fresh. Qed.

(** C7: [flatten_dict(d, 1)] is [d], and it is a copy, not an alias: on
    the Store.store the call returns a reference that was not in use, hence
    different from the one of its argument, to a new mapping with the
    entries of the argument (the same cells: a shallow copy); the argument
    is left as it was, and both references hold the value [d]. *)
Theorem flatten_depth_1_is_a_copy (fuel : nat) (st : Store.store) (data : Store.ref)
    (items : list (string * Store.cell)) (d : dict) :
  st !! data = Some (Store.ODict items) →
  Store.represents st (VDict d) (Store.CRef data) →
  flatten_dict d 1 "" = d ∧
  ∃ r,
    Store.flatten_dict (S fuel) st data 1 "" =
      Ok (<[r := Store.ODict items]> st, r) ∧
    st !! r = None ∧ r ≠ data ∧
    (<[r := Store.ODict items]> st) !! data = Some (Store.ODict items) ∧
    Store.represents (<[r := Store.ODict items]> st) (VDict (flatten_dict d 1 "")) (Store.CRef r) ∧
    Store.represents (<[r := Store.ODict items]> st) (VDict d) (Store.CRef data).
Proof.
  intros Hdata Hrep. split; [done|].
  pose proof (alloc_fresh st (Store.ODict items)) as Hfresh.
  set (r := (Store.alloc st (Store.ODict items)).2) in *.
  assert (r ≠ data) as Hne by (intros ->; congruence).
  assert (st ⊆ <[r := Store.ODict items]> st) as Hsub by by apply insert_subseteq.
  exists r. split_and!.
  - simpl. by rewrite Hdata.
  - done.
  - done.
  - by rewrite lookup_insert_ne.
  - rewrite flatten_dict_depth_1.
    apply represents_dict in Hrep as (r' & items' & [= <-] & Hr & Hitems).
    rewrite Hdata in Hr. injection Hr as <-.
    apply represents_dict. exists r, items.
    split_and!; [done|by rewrite lookup_insert_eq|].
    eapply Forall2_impl; [apply Hitems|]. intros [k x] [k' c'] [? ?].
    split; [done|]. by eapply represents_mono.
  - by eapply represents_mono.
Qed.

Lemma flatten_depth_1_is_a_copy_witness :
  example_store !! 1%positive = Some (Store.ODict [("database", Store.CRef 2%positive)]) ∧
  Store.represents example_store
    (VDict [("database", VDict [("host", VStr "localhost")])])
    (Store.CRef 1%positive) ∧
  flatten_dict [("database", VDict [("host", VStr "localhost")])] 1 "" =
    [("database", VDict [("host", VStr "localhost")])].
Proof.
  assert (example_store !! 1%positive =
          Some (Store.ODict [("database", Store.CRef 2%positive)])) as H1 by reflexivity.
  assert (Store.represents example_store
            (VDict [("database", VDict [("host", VStr "localhost")])])
            (Store.CRef 1%positive)) as H2.
  { simpl. eexists. split; [reflexivity|]. split_and!; [done| |done].
    eexists. split; [reflexivity|]. done. }
  split_and!; [done..|].
  apply (flatten_depth_1_is_a_copy 0 example_store 1%positive
           [("database", Store.CRef 2%positive)] _ H1 H2).
Defined.

Implicit Types (node x nd : value) (p q : list string).

(** ** [unflatten_dict] as path updates *)

Lemma put_cons d k p x :
  put (VDict d) (k :: p) x =
  child ← put (default (VDict []) (dict_get d k)) p x;
  Ok (VDict (dict_set d k child)).
Proof. done. Qed.

Lemma set_path_cons d k k' p x :
  set_path d (k :: k' :: p) x =
  match dict_get d k with
  | None => sub ← set_path [] (k' :: p) x; Ok (dict_set d k (VDict sub))
  | Some (VDict child) =>
      sub ← set_path child (k' :: p) x; Ok (dict_set d k (VDict sub))
  | Some _ => Raise TypeError
  end.
Proof. done. Qed.

Lemma set_path_put p : ∀ d x,
  p ≠ [] → put (VDict d) p x = VDict <$> set_path d p x.
Proof.
  induction p as [|k p IH]; intros d x Hp; [done|].
  destruct p as [|k' p]; [done|].
  rewrite put_cons, set_path_cons.
  destruct (dict_get d k) as [[| | | | |child]|] eqn:E; try done.
  - simpl default. rewrite (IH child x) by done.
    by destruct (set_path child _ _).
  - simpl default. rewrite (IH [] x) by done. by destruct (set_path [] _ _).
Qed.

Lemma unflatten_loop_put_all data : ∀ d,
  put_all data (VDict d) = VDict <$> unflatten_loop data d.
Proof.
  induction data as [|[k v] data IH]; intros d; simpl; [done|].
  rewrite set_path_put by apply split_not_nil.
  destruct (set_path d (split sep k) v) as [d'|e]; simpl; [apply IH|done].
Qed.

Lemma get_path_empty q nd :
  get_path (VDict []) q = Some nd → is_dict nd = true.
Proof. destruct q; [by intros [= <-]|done]. Qed.

(** [put] fails only below a value that is not a mapping. *)
Lemma put_blocked p : ∀ node x e,
  put node p x = Raise e →
  ∃ q nd, proper_prefix q p ∧ get_path node q = Some nd ∧ is_dict nd = false.
Proof.
  induction p as [|k p IH]; intros node x e; simpl; [done|].
  destruct node as [| | | | |d];
    try (intros _; eexists [], _; split_and!;
         [split; [apply prefix_nil|done]|done..]).
  destruct (put (default (VDict []) (dict_get d k)) p x) as [c'|e'] eqn:E;
    simpl; [done|]. intros _.
  apply IH in E as (q & nd & [Hq Hne] & Hget & Hnd).
  destruct (dict_get d k) as [c|] eqn:Ek; simpl in *.
  - exists (k :: q), nd. split_and!; [|simpl; by rewrite Ek|done].
    split; [by apply prefix_cons|congruence].
  - apply get_path_empty in Hget. congruence.
Qed.

(** [put] at [p] leaves alone what is not below [p]. *)
Lemma put_get_other p : ∀ node node' x q nd,
  put node p x = Ok node' → ¬ p `prefix_of` q →
  get_path node' q = Some nd → is_dict nd = false →
  get_path node q = Some nd.
Proof.
  induction p as [|k p IH]; intros node node' x q nd Hput Hpq Hget Hnd.
  { destruct Hpq. apply prefix_nil. }
  simpl in Hput. destruct node as [| | | | |d]; try done.
  destruct (put (default (VDict []) (dict_get d k)) p x) as [c'|e'] eqn:E;
    [|done].
  injection Hput as <-.
  destruct q as [|y q]; [injection Hget as <-; done|]. simpl in *.
  destruct (decide (k = y)) as [<-|Hne].
  - rewrite dict_get_set_eq in Hget.
    assert (¬ p `prefix_of` q) as Hpq' by (intros ?; by apply Hpq, prefix_cons).
    pose proof (IH _ _ _ _ _ E Hpq' Hget Hnd) as H.
    destruct (dict_get d k); [done|]. apply get_path_empty in H. congruence.
  - by rewrite dict_get_set_ne in Hget.
Qed.

Lemma proper_prefix_trans_l p q r :
  p `prefix_of` q → proper_prefix q r → proper_prefix p r.
Proof.
  intros Hpq [Hqr Hne]. split; [by etrans|]. intros ->.
  apply Hne. by apply (anti_symm prefix).
Qed.

Lemma put_all_ok data : ∀ node paths,
  covered node paths →
  (∀ p k, p ∈ paths → k ∈ dict_keys data → ¬ proper_prefix p (split sep k)) →
  conflict_free data →
  ∃ r, put_all data node = Ok r.
Proof.
  induction data as [|[k v] data IH]; intros node paths Hcov Hpaths Hcf; simpl.
  { by eexists. }
  unfold conflict_free in Hcf. simpl in Hcf.
  apply Forall_cons in Hcf as [[_ Hk]%Forall_cons Hcf].
  destruct (put node (split sep k) v) as [node'|e] eqn:E; simpl.
  - apply (IH node' (split sep k :: paths)).
    + intros q nd Hget Hnd.
      destruct (decide (split sep k `prefix_of` q)) as [?|Hn].
      * exists (split sep k). split; [left|done].
      * destruct (Hcov q nd) as (p & ? & ?); [by eapply put_get_other|done|].
        exists p. split; [by right|done].
    + intros p k' [->|Hp]%elem_of_cons Hk'.
      * rewrite Forall_forall in Hk. by apply Hk.
      * apply Hpaths; [done|]. by right.
    + unfold conflict_free. eapply Forall_impl; [apply Hcf|].
      intros k' H. simpl in H. by apply Forall_cons in H as [_ ?].
  - apply put_blocked in E as (q & nd & Hq & Hget & Hnd).
    destruct (Hcov q nd Hget Hnd) as (p & Hp & Hpq).
    destruct (Hpaths p k Hp); [left|]. by eapply proper_prefix_trans_l.
Qed.

Lemma conflict_free_unflatten_ok flat :
  conflict_free flat → ∃ r, unflatten_dict flat = Ok r.
Proof.
  intros Hcf. destruct (put_all_ok flat (VDict []) []) as [r Hr]; [| |done|].
  - intros q nd Hget Hnd. apply get_path_empty in Hget. congruence.
  - intros p k Hp. by apply elem_of_nil in Hp.
  - rewrite unflatten_loop_put_all in Hr. unfold unflatten_dict.
    destruct (unflatten_loop flat []); [by eexists|done].
Qed.

(** C10: on a flat mapping in which no key's segment path is a proper prefix
    of another's, [unflatten_dict] returns; on the conflicting mapping that
    binds [a] to a scalar before [a.b] it raises [TypeError] where it would
    descend through the scalar, while with the two keys in the other order
    it returns. *)
Theorem unflatten_total_on_conflict_free (flat : dict) :
  conflict_free flat →
  (∃ r, unflatten_dict flat = Ok r) ∧
  ¬ conflict_free [("a", VInt 1); ("a.b", VInt 2)] ∧
  unflatten_dict [("a", VInt 1); ("a.b", VInt 2)] = Raise TypeError ∧
  unflatten_dict [("a.b", VInt 2); ("a", VInt 1)] = Ok [("a", VInt 1)].
Proof.
  intros Hcf. split_and!; [by apply conflict_free_unflatten_ok| |done..].
  apply (bool_decide_eq_false_1 (conflict_free _)). vm_compute. reflexivity.
Qed.

Lemma unflatten_total_on_conflict_free_witness :
  conflict_free (flatten_dict nested1 0 "") ∧
  ∃ r, unflatten_dict (flatten_dict nested1 0 "") = Ok r.
Proof.
  assert (conflict_free (flatten_dict nested1 0 "")) as H.
  { apply (bool_decide_eq_true_1 (conflict_free _)). vm_compute. reflexivity. }
  split; [exact H|].
  apply (unflatten_total_on_conflict_free (flatten_dict nested1 0 "") H).
Defined.

Implicit Types (P : list string).

(** ** Updating paths one after the other *)

Lemma put_paths_app l1 l2 node :
  put_paths (l1 ++ l2) node = node' ← put_paths l1 node; put_paths l2 node'.
Proof.
  revert node. induction l1 as [|[p x] l1 IH]; intros node; simpl; [done|].
  destruct (put node p x); simpl; [apply IH|done].
Qed.

Lemma put_all_put_paths data node :
  put_all data node = put_paths (map (λ kv, (split sep kv.1, kv.2)) data) node.
Proof.
  revert node. induction data as [|[k v] data IH]; intros node; simpl; [done|].
  destruct (put node (split sep k) v); simpl; [apply IH|done].
Qed.

(** Binding one more key below a path that holds a mapping. *)
Lemma put_snoc_present P : ∀ node d k x,
  get_path node P = Some (VDict d) →
  put node (P ++ [k]) x = put node P (VDict (dict_set d k x)).
Proof.
  induction P as [|y P IH]; intros node d k x Hget; simpl in *.
  - by injection Hget as ->.
  - destruct node as [| | | | |e]; try done.
    destruct (dict_get e y) as [c|]; [|done]. simpl.
    by rewrite (IH c d k x).
Qed.

Lemma get_path_put P : ∀ node node' x,
  put node P x = Ok node' → get_path node' P = Some x.
Proof.
  induction P as [|y P IH]; intros node node' x; simpl.
  - by intros [= ->].
  - destruct node as [| | | | |e]; try done.
    destruct (put _ P x) as [c'|] eqn:E; [|done]. simpl.
    intros [= <-]. rewrite dict_get_set_eq. by eapply IH.
Qed.

Lemma put_put P : ∀ node node' x y,
  put node P x = Ok node' → put node' P y = put node P y.
Proof.
  induction P as [|k P IH]; intros node node' x y; simpl; [done|].
  destruct node as [| | | | |e]; try done.
  destruct (put _ P x) as [c'|] eqn:E; [|done]. simpl.
  intros [= <-]. rewrite dict_get_set_eq. simpl.
  rewrite (IH _ _ _ y E). destruct (put _ P y); simpl; [|done].
  by rewrite dict_set_set.
Qed.

Lemma absent_empty P : P ≠ [] → absent (VDict []) P.
Proof. by destruct P. Qed.

Lemma absent_app P : ∀ node Q, absent node P → absent node (P ++ Q).
Proof.
  induction P as [|k P IH]; intros node Q; simpl; [done|].
  destruct node as [| | | | |e]; try done.
  destruct (dict_get e k); [apply IH|done].
Qed.

Lemma absent_snoc P : ∀ node d k,
  get_path node P = Some (VDict d) → dict_get d k = None →
  absent node (P ++ [k]).
Proof.
  induction P as [|y P IH]; intros node d k; simpl.
  - intros [= ->] Hk. by rewrite Hk.
  - destruct node as [| | | | |e]; try done.
    destruct (dict_get e y); [apply IH|done].
Qed.

Lemma put_absent_ok P : ∀ node x, absent node P → ∃ node', put node P x = Ok node'.
Proof.
  induction P as [|k P IH]; intros node x; simpl; [done|].
  destruct node as [| | | | |e]; try done.
  destruct (dict_get e k) as [c|] eqn:E; simpl.
  - intros [c' ->]%(IH c x). by eexists.
  - intros _. destruct P as [|k' P]; [by eexists|].
    destruct (IH (VDict []) x) as [c' ->]; [done|]. by eexists.
Qed.

Lemma put_present_ok P : ∀ node x y,
  get_path node P = Some y → ∃ node', put node P x = Ok node'.
Proof.
  induction P as [|k P IH]; intros node x y; simpl; [by eexists|].
  destruct node as [| | | | |e]; try done.
  destruct (dict_get e k) as [c|] eqn:E; [|done]. simpl.
  intros [c' ->]%(IH c x). by eexists.
Qed.

Lemma dict_set_same d k x : dict_get d k = Some x → dict_set d k x = d.
Proof.
  induction d as [|[k0 v0] d IH]; simpl; [done|].
  destruct (String.eqb_spec k0 k) as [->|]; [by intros [= ->]|].
  intros H. by rewrite IH.
Qed.

(** Putting back what is there changes nothing. *)
Lemma put_same P : ∀ node x, get_path node P = Some x → put node P x = Ok node.
Proof.
  induction P as [|k P IH]; intros node x; simpl.
  - by intros [= ->].
  - destruct node as [| | | | |e]; try done.
    destruct (dict_get e k) as [c|] eqn:E; [|done]. simpl.
    intros H. rewrite (IH c x H). simpl. by rewrite dict_set_same.
Qed.

(** Binding the first key below a path that is absent. *)
Lemma put_snoc_absent P : ∀ node k x,
  absent node P → put node (P ++ [k]) x = put node P (VDict [(k, x)]).
Proof.
  induction P as [|y P IH]; intros node k x; simpl; [done|].
  destruct node as [| | | | |e]; try done.
  destruct (dict_get e y) as [c|]; simpl.
  - intros H. by rewrite IH.
  - intros _. destruct P as [|y' P]; [done|]. by rewrite IH.
Qed.

(** ** Unflattening the leaves of a mapping, in the order of the walk *)

Lemma leaves_dict depth P kvs :
  leaves depth P (VDict kvs) = flat_map (leaf_step depth P) kvs.
Proof. done. Qed.

Lemma put_leaf_step depth P kv node :
  grafts depth kv.2 → wf_value kv.2 → absent node (P ++ [kv.1]) →
  put_paths (leaf_step depth P kv) node = put node (P ++ [kv.1]) kv.2.
Proof.
  intros Hg Hwf Habs. unfold leaf_step.
  assert (put_paths [(P ++ [kv.1], kv.2)] node = put node (P ++ [kv.1]) kv.2)
    as Hone by (simpl; by destruct (put node _ _)).
  destruct (_ && _); [done|].
  destruct (nonempty_mapping kv.2) eqn:E; [|done]. by apply Hg.
Qed.

(** Putting the leaves of the entries [kvs], below a path that holds the
    mapping [d0], extends [d0] by [kvs]. *)
Lemma put_leaves_present depth P kvs : ∀ node d0,
  Forall (λ kv, grafts depth kv.2) kvs →
  Forall (λ kv, wf_value kv.2) kvs →
  NoDup (dict_keys (d0 ++ kvs)) →
  get_path node P = Some (VDict d0) →
  put_paths (flat_map (leaf_step depth P) kvs) node =
  put node P (VDict (d0 ++ kvs)).
Proof.
  induction kvs as [|[k v] kvs IH]; intros node d0 Hg Hwf Hnd Hget; simpl.
  - rewrite app_nil_r.
    symmetry. by apply put_same.
  - apply Forall_cons in Hg as [Hgv Hg]. apply Forall_cons in Hwf as [Hwfv Hwf].
    assert (dict_get d0 k = None) as Hk.
    { apply dict_get_None. unfold dict_keys in *. rewrite fmap_app in Hnd.
      apply NoDup_app in Hnd as (_ & Hd & _). intros Hin.
      apply (Hd k Hin). left. }
    rewrite put_paths_app.
    rewrite (put_leaf_step depth P (k, v) node Hgv Hwfv)
      by by eapply absent_snoc.
    simpl. rewrite (put_snoc_present P node d0 k v Hget).
    rewrite dict_set_absent by done.
    destruct (put_present_ok P node (VDict (d0 ++ [(k, v)])) _ Hget)
      as [node1 Hput].
    rewrite Hput. simpl.
    rewrite (IH node1 (d0 ++ [(k, v)])); try done.
    + rewrite <- app_assoc. simpl. by eapply put_put.
    + by rewrite <- app_assoc.
    + by eapply get_path_put.
Qed.

Lemma grafts_all depth v : grafts depth v.
Proof.
  induction v as [| | | | |kvs IH] using value_ind'; try done.
  intros Hne [Hnd Hwf]%wf_value_dict P node Habs.
  destruct kvs as [|[k v] kvs]; [done|]. clear Hne.
  apply Forall_cons in IH as [IHv IH]. apply Forall_cons in Hwf as [Hwfv Hwf].
  rewrite leaves_dict. simpl. rewrite put_paths_app.
  rewrite (put_leaf_step depth P (k, v) node IHv Hwfv) by by apply absent_app.
  simpl. rewrite put_snoc_absent by done.
  destruct (put_absent_ok P node (VDict [(k, v)]) Habs) as [node1 Hput].
  rewrite Hput. simpl.
  rewrite (put_leaves_present depth P kvs node1 [(k, v)]); try done.
  - by eapply put_put.
  - by eapply get_path_put.
Qed.

(** Putting the leaves of a document into the empty mapping rebuilds the
    document. *)
Lemma put_leaves_root depth (d : dict) :
  wf_dict d → put_paths (leaves depth [] (VDict d)) (VDict []) = Ok (VDict d).
Proof.
  intros [Hnd Hwf]%wf_value_dict. rewrite leaves_dict.
  rewrite (put_leaves_present depth [] d (VDict []) []); try done.
  apply Forall_forall. intros kv _. apply grafts_all.
Qed.

Implicit Types (Q : list string).

(** ** The flat mapping and the leaves *)

Lemma paths_of_app flat1 flat2 :
  paths_of (flat1 ++ flat2) = paths_of flat1 ++ paths_of flat2.
Proof. apply map_app. Qed.

Lemma elem_of_paths_of_key flat k :
  k ∈ dict_keys flat → split sep k ∈ (paths_of flat).*1.
Proof.
  intros (kv & -> & Hin)%list_elem_of_fmap.
  apply list_elem_of_fmap. exists (split sep kv.1, kv.2). split; [done|].
  apply list_elem_of_fmap. by exists kv.
Qed.

(** Every leaf of the mapping at [P] lies strictly below [P]. *)
Lemma leaves_below depth v : ∀ P e,
  e ∈ leaves depth P v → ∃ k q, e.1 = P ++ k :: q.
Proof.
  induction v as [| | | | |kvs IH] using value_ind'; intros P e;
    try (by intros ?%elem_of_nil).
  rewrite leaves_dict. intros (kv & Hkv & He)%list_elem_of_In%in_flat_map.
  apply list_elem_of_In in Hkv, He. rewrite Forall_forall in IH.
  unfold leaf_step in He.
  assert (e ∈ [(P ++ [kv.1], kv.2)] → ∃ k q, e.1 = P ++ k :: q) as Hone.
  { intros ->%list_elem_of_singleton. by exists kv.1, []. }
  destruct (_ && _); [by apply Hone|].
  destruct (nonempty_mapping kv.2); [|by apply Hone].
  apply (IH _ Hkv) in He as (k & q & ->).
  exists kv.1, (k :: q). by rewrite <- app_assoc.
Qed.

Lemma leaf_step_below depth P kv e :
  e ∈ leaf_step depth P kv → ∃ q, e.1 = P ++ kv.1 :: q.
Proof.
  unfold leaf_step.
  assert (e ∈ [(P ++ [kv.1], kv.2)] → ∃ q, e.1 = P ++ kv.1 :: q) as Hone.
  { intros ->%list_elem_of_singleton. by exists []. }
  destruct (_ && _); [by apply Hone|].
  destruct (nonempty_mapping kv.2); [|by apply Hone].
  intros (k & q & ->)%leaves_below. exists (k :: q). by rewrite <- app_assoc.
Qed.

Lemma flat_map_leaf_step_below depth P kvs e :
  e ∈ flat_map (leaf_step depth P) kvs →
  ∃ k q, k ∈ dict_keys kvs ∧ e.1 = P ++ k :: q.
Proof.
  intros (kv & Hkv & He)%list_elem_of_In%in_flat_map.
  apply list_elem_of_In in Hkv, He.
  apply leaf_step_below in He as [q ->]. exists kv.1, q.
  split; [by apply list_elem_of_fmap_2|done].
Qed.

(** The keys of a flat mapping are distinct. *)
Lemma NoDup_dict_update d l :
  NoDup (dict_keys d) → NoDup (dict_keys (dict_update d l)).
Proof.
  revert d. unfold dict_update.
  induction l as [|[k v] l IH]; intros d Hd; simpl; [done|].
  by apply IH, NoDup_dict_keys_set.
Qed.

Lemma flatten_value_NoDup depth (p : string) v :
  wf_value v → NoDup (dict_keys (flatten_value depth p v)).
Proof.
  destruct v as [| | | | |kvs]; try (intros _; constructor).
  intros [Hnd _]%wf_value_dict. rewrite flatten_value_dict.
  case_match; [done|].
  assert (∀ acc, NoDup (dict_keys acc) →
    NoDup (dict_keys (fold_left (flatten_step (flatten_value depth) depth p)
                        kvs acc))) as Hfold; [|apply Hfold; constructor].
  clear. induction kvs as [|[k v] kvs IH]; intros acc Hacc; simpl; [done|].
  apply IH. unfold flatten_step.
  repeat case_match; by first [apply NoDup_dict_keys_set|apply NoDup_dict_update].
Qed.

Lemma stands_for_join (p : string) P k :
  stands_for p P → sep_free k = true → split sep (join_key p k) = P ++ [k].
Proof.
  intros [[-> ->]|[Hp <-]] Hk.
  - by apply split_sep_free.
  - rewrite split_join_key_nonempty by done. by rewrite (split_sep_free k).
Qed.

Lemma stands_for_next (p : string) P k :
  stands_for p P → sep_free k = true → (p = "" → k ≠ "") →
  stands_for (join_key p k) (P ++ [k]).
Proof.
  intros Hs Hk Hne. right. split; [|by apply stands_for_join].
  destruct p; simpl; [by apply Hne|done].
Qed.

Lemma keys_sep_free_dict kvs :
  keys_sep_free (VDict kvs) = true ↔
  Forall (λ kv, sep_free kv.1 = true ∧ keys_sep_free kv.2 = true) kvs.
Proof.
  simpl. rewrite forallb_forall, Forall_forall. split; intros H kv Hkv.
  - apply andb_true_iff, H. by apply list_elem_of_In.
  - apply andb_true_iff, H. by apply list_elem_of_In.
Qed.

Lemma no_empty_root_key_Forall d :
  no_empty_root_key d = true ↔
  Forall (λ kv, kv.1 = "" → nonempty_mapping kv.2 = false) d.
Proof.
  unfold no_empty_root_key. rewrite forallb_forall, Forall_forall.
  split; intros H kv Hkv.
  - apply list_elem_of_In in Hkv. specialize (H kv Hkv). intros Hk.
    rewrite Hk in H. simpl in H. by destruct (nonempty_mapping kv.2).
  - apply list_elem_of_In in Hkv. specialize (H kv Hkv).
    destruct (String.eqb_spec kv.1 ""); [|done]. simpl. by rewrite H.
Qed.

Lemma keys_sep_free_within_dict depth level kvs :
  keys_sep_free_within depth level (VDict kvs) = true ↔
  Forall (λ kv, sep_free kv.1 = true ∧
                ((0 <? depth) && (depth <=? Z.of_nat (S level)) = true ∨
                 keys_sep_free_within depth (S level) kv.2 = true)) kvs.
Proof.
  simpl. rewrite forallb_forall, Forall_forall. split; intros H kv Hkv.
  - rewrite <- orb_true_iff. apply andb_true_iff, H. by apply list_elem_of_In.
  - apply andb_true_iff. rewrite orb_true_iff. apply H.
    by apply list_elem_of_In.
Qed.

(** Keys free of the separator everywhere are so within every depth. *)
Lemma keys_sep_free_within_all depth v : ∀ level,
  keys_sep_free v = true → keys_sep_free_within depth level v = true.
Proof.
  induction v as [| | | | |kvs IH] using value_ind'; intros level; try done.
  rewrite keys_sep_free_dict, keys_sep_free_within_dict.
  rewrite !Forall_forall in *. intros H kv Hkv.
  destruct (H kv Hkv) as [Hk Hv]. split; [done|]. right. by apply IH.
Qed.

(** The loop of [flatten_dict] appends the leaves of each entry. *)
Lemma flatten_fold_leaves depth (p : string) P kvs : ∀ done_ acc,
  stands_for p P →
  Forall (λ kv, flattens_to_leaves depth kv.2) kvs →
  Forall (λ kv, sep_free kv.1 = true ∧
                ((0 <? depth) && (depth <=? Z.of_nat (S (length P))) = true ∨
                 keys_sep_free_within depth (S (length P)) kv.2 = true)) kvs →
  Forall (λ kv, wf_value kv.2) kvs →
  (p = "" → Forall (λ kv, kv.1 = "" → nonempty_mapping kv.2 = false) kvs) →
  NoDup (dict_keys (done_ ++ kvs)) →
  NoDup (dict_keys acc) →
  paths_of acc = flat_map (leaf_step depth P) done_ →
  paths_of (fold_left (flatten_step (flatten_value depth) depth p) kvs acc) =
  flat_map (leaf_step depth P) (done_ ++ kvs).
Proof.
  induction kvs as [|[k v] kvs IH];
    intros done_ acc Hs Hrec Hsep Hwf Hroot Hnd Hacc Hpaths; simpl.
  { by rewrite app_nil_r. }
  apply Forall_cons in Hrec as [Hrecv Hrec].
  apply Forall_cons in Hsep as [[Hk Hv] Hsep].
  apply Forall_cons in Hwf as [Hwfv Hwf]. simpl in *.
  assert (k ∉ dict_keys done_) as Hkdone.
  { unfold dict_keys in *. rewrite fmap_app in Hnd.
    apply NoDup_app in Hnd as (_ & Hd & _). intros Hin.
    apply (Hd k Hin). left. }
  (* no key already emitted lies below [P ++ [k]] *)
  assert (∀ k', k' ∈ dict_keys acc → ∀ q, split sep k' ≠ P ++ k :: q) as Hfresh.
  { intros k' Hk' q Heq. apply elem_of_paths_of_key in Hk'.
    rewrite Hpaths in Hk'. apply list_elem_of_fmap in Hk' as (e & He & Hin).
    apply flat_map_leaf_step_below in Hin as (k0 & q0 & Hk0 & He0).
    rewrite <- He, Heq in He0. apply app_inv_head in He0.
    injection He0 as -> _. done. }
  replace (done_ ++ (k, v) :: kvs) with ((done_ ++ [(k, v)]) ++ kvs)
    by by rewrite <- app_assoc.
  assert (Hsplit := stands_for_join p P k Hs Hk).
  apply IH; try done.
  - intros Hp. specialize (Hroot Hp). by apply Forall_cons in Hroot as [_ ?].
  - by rewrite <- app_assoc.
  - unfold flatten_step. repeat case_match;
      by first [apply NoDup_dict_keys_set|apply NoDup_dict_update].
  - rewrite flat_map_app. simpl. rewrite app_nil_r, <- Hpaths.
    unfold flatten_step, leaf_step. simpl.
    rewrite Hsplit, nonempty_mapping_spec.
    assert (length (P ++ [k]) = S (length P)) as Hlen
      by (rewrite length_app; simpl; lia).
    assert (paths_of (dict_set acc (join_key p k) v) =
            paths_of acc ++ [(P ++ [k], v)]) as Hone.
    { rewrite dict_set_absent.
      - rewrite paths_of_app. simpl. by rewrite Hsplit.
      - apply dict_get_None. intros Hin. by apply (Hfresh _ Hin []). }
    destruct ((0 <? depth) && (depth <=? Z.of_nat (length (P ++ [k]))))
      eqn:Elim; [done|].
    destruct (nonempty_mapping v) eqn:Ev; [|done].
    rewrite Hlen in Elim. destruct Hv as [Hv|Hv]; [congruence|].
    rewrite <- Hlen in Hv.
    assert (join_key p k ≠ "") as Hnk.
    { intros Heq. destruct p as [|a p]; [|done]. simpl in Heq.
      specialize (Hroot eq_refl). apply Forall_cons in Hroot as [Hx _].
      simpl in Hx. rewrite Hx in Ev; done. }
    rewrite dict_update_fresh.
    + rewrite paths_of_app. f_equal. apply Hrecv; try done.
      right. by split.
    + unfold dict_keys. rewrite fmap_app. apply NoDup_app. split_and!.
      * done.
      * intros k' Hk' Hk''. apply elem_of_paths_of_key in Hk''.
        rewrite (Hrecv (join_key p k) (P ++ [k])) in Hk''; try done;
          [|right; by split].
        apply list_elem_of_fmap in Hk'' as (e & He & Hin).
        apply leaves_below in Hin as (k0 & q0 & He0).
        apply (Hfresh _ Hk' (k0 :: q0)).
        rewrite He, He0. by rewrite <- app_assoc.
      * by apply flatten_value_NoDup.
Qed.

Lemma flattens_to_leaves_all depth v : flattens_to_leaves depth v.
Proof.
  induction v as [| | | | |kvs IH] using value_ind'; try done.
  intros p P Hs Hp Hsep%keys_sep_free_within_dict [Hnd Hwf]%wf_value_dict.
  rewrite flatten_value_dict, leaves_dict.
  destruct p as [|a p]; [done|]. rewrite andb_false_r.
  by apply (flatten_fold_leaves depth (String a p) P kvs [] []);
    try done; try constructor.
Qed.

(** The flat mapping of a document, under paths, is the list of its
    leaves: the keys that are joined must be free of the separator. *)
Lemma flatten_dict_leaves_within depth (d : dict) :
  wf_dict d → keys_sep_free_within depth 0 (VDict d) = true →
  no_empty_root_key d = true →
  paths_of (flatten_dict d depth "") = leaves depth [] (VDict d).
Proof.
  intros [Hnd Hwf]%wf_value_dict Hsep%keys_sep_free_within_dict
    Hroot%no_empty_root_key_Forall.
  unfold flatten_dict. rewrite flatten_value_dict, leaves_dict. simpl.
  destruct (Z.eqb_spec depth 1) as [->|Hd]; simpl.
  - clear Hnd Hwf Hroot. induction Hsep as [|[k v] d [Hk _] _ IH]; [done|].
    simpl in *. rewrite IH. unfold leaf_step. simpl.
    by rewrite (split_sep_free k).
  - apply (flatten_fold_leaves depth "" [] d [] []); try done.
    + by left.
    + apply Forall_forall. intros kv _. apply flattens_to_leaves_all.
    + constructor.
Qed.

Lemma flatten_dict_leaves depth (d : dict) :
  wf_dict d → keys_sep_free (VDict d) = true → no_empty_root_key d = true →
  paths_of (flatten_dict d depth "") = leaves depth [] (VDict d).
Proof.
  intros Hwf Hsep Hroot. apply flatten_dict_leaves_within; [done| |done].
  by apply keys_sep_free_within_all.
Qed.

(** Unflattening what [flatten_dict] returns, in the order it returns it,
    rebuilds the document: its keys must be free of the separator, and its
    root must not bind the empty key to a non-empty mapping. *)
Lemma unflatten_flatten depth (d : dict) :
  wf_dict d → keys_sep_free (VDict d) = true → no_empty_root_key d = true →
  unflatten_dict (flatten_dict d depth "") = Ok d.
Proof.
  intros Hwf Hsep Hroot.
  pose proof (unflatten_loop_put_all (flatten_dict d depth "") []) as H.
  rewrite put_all_put_paths in H.
  fold (paths_of (flatten_dict d depth "")) in H.
  rewrite flatten_dict_leaves, put_leaves_root in H by done.
  unfold unflatten_dict. destruct (unflatten_loop _ _); simpl in H; congruence.
Qed.

Implicit Types (e : dict).
Implicit Types (y : value).

(** ** Mappings up to the order of their entries *)

Lemma deq_refl d : deq d d.
Proof. induction d as [|[k v] d IH]; constructor; [apply veq_refl|done]. Qed.

Lemma veq_trans x y z : veq x y → veq y z → veq x z.
Proof.
  intros Hxy Hyz. inversion Hxy; subst; [done|].
  inversion Hyz; subst; [done|]. apply veq_dict. by eapply deq_trans.
Qed.

Lemma veq_dict_inv d y : veq (VDict d) y → ∃ d', y = VDict d' ∧ deq d d'.
Proof.
  intros H. inversion H; subst; eexists; (split; [done|]);
    [apply deq_refl|done].
Qed.

Lemma veq_is_dict x y : veq x y → is_dict x = is_dict y.
Proof. by intros []. Qed.

Lemma deq_keys d d' : deq d d' → dict_keys d ≡ₚ dict_keys d'.
Proof.
  induction 1 as [|k v v' d d' _ _ IH|kv1 kv2 d|d1 d2 d3 _ IH1 _ IH2]; simpl.
  - done.
  - by constructor.
  - apply perm_swap.
  - by etrans.
Qed.

Lemma deq_NoDup d d' : deq d d' → NoDup (dict_keys d) → NoDup (dict_keys d').
Proof. intros H%deq_keys. by rewrite H. Qed.

Lemma deq_app_l e d d' : deq d d' → deq (e ++ d) (e ++ d').
Proof.
  intros H. induction e as [|[k v] e IH]; simpl; [done|].
  constructor; [apply veq_refl|done].
Qed.

Lemma lookup_rel_trans a b c : lookup_rel a b → lookup_rel b c → lookup_rel a c.
Proof.
  destruct a, b, c; simpl; try done. apply veq_trans.
Qed.

Lemma deq_lookup d d' k :
  deq d d' → NoDup (dict_keys d) → lookup_rel (dict_get d k) (dict_get d' k).
Proof.
  induction 1 as [|k0 v v' d d' Hv _ IH|[k1 v1] [k2 v2] d|d1 d2 d3 H1 IH1 _ IH2];
    intros Hnd; simpl.
  - done.
  - apply NoDup_cons in Hnd as [_ Hnd]. destruct (String.eqb k0 k); [done|auto].
  - apply NoDup_cons in Hnd as [Hne _]. rewrite not_elem_of_cons in Hne.
    destruct (String.eqb_spec k1 k) as [->|], (String.eqb_spec k2 k) as [->|];
      simpl; try apply veq_refl.
    + by destruct Hne.
    + destruct (dict_get d k); simpl; [apply veq_refl|done].
  - eapply lookup_rel_trans; [by apply IH1|]. apply IH2. by eapply deq_NoDup.
Qed.

Lemma dict_set_veq d k x x' : veq x x' → deq (dict_set d k x) (dict_set d k x').
Proof.
  intros Hx. induction d as [|[k0 v0] d IH]; simpl.
  - constructor; [done|constructor].
  - destruct (String.eqb k0 k); constructor; try done;
      first [apply veq_refl|apply deq_refl].
Qed.

Lemma dict_set_deq d d' k x x' :
  deq d d' → NoDup (dict_keys d) → veq x x' →
  deq (dict_set d k x) (dict_set d' k x').
Proof.
  intros H. revert x x'.
  induction H as [|k0 v v' d d' Hv Hd IH|[k1 v1] [k2 v2] d|d1 d2 d3 H1 IH1 _ IH2];
    intros x x' Hnd Hx; simpl.
  - constructor; [done|constructor].
  - apply NoDup_cons in Hnd as [_ Hnd].
    destruct (String.eqb k0 k); constructor; auto.
  - apply NoDup_cons in Hnd as [Hne _]. rewrite not_elem_of_cons in Hne.
    destruct (String.eqb_spec k1 k) as [->|], (String.eqb_spec k2 k) as [->|];
      simpl.
    + by destruct Hne.
    + eapply deq_trans; [apply deq_swap|].
      constructor; [apply veq_refl|]. constructor; [done|apply deq_refl].
    + eapply deq_trans; [apply deq_swap|].
      constructor; [done|]. constructor; [apply veq_refl|apply deq_refl].
    + eapply deq_trans; [apply deq_swap|].
      constructor; [apply veq_refl|]. constructor; [apply veq_refl|].
      by apply dict_set_veq.
  - eapply deq_trans; [apply IH1; [done|apply veq_refl]|].
    apply IH2; [by eapply deq_NoDup|done].
Qed.

Lemma dict_set_comm e a b x y :
  a ≠ b → deq (dict_set (dict_set e a x) b y) (dict_set (dict_set e b y) a x).
Proof.
  intros Hab. induction e as [|[k0 v0] e IH]; simpl.
  - destruct (String.eqb_spec a b); [done|].
    destruct (String.eqb_spec b a); [congruence|]. apply deq_swap.
  - destruct (String.eqb_spec k0 a) as [Ha|Ha],
             (String.eqb_spec k0 b) as [Hb|Hb]; subst; simpl; try done.
    + destruct (String.eqb_spec a b); [done|]. rewrite String.eqb_refl.
      apply deq_refl.
    + rewrite String.eqb_refl. destruct (String.eqb_spec b a); [congruence|].
      apply deq_refl.
    + destruct (String.eqb_spec k0 a), (String.eqb_spec k0 b); try done.
      constructor; [apply veq_refl|done].
Qed.

(** ** [put] up to the order of entries *)

Lemma oeq_refl a : oeq a a.
Proof. destruct a; simpl; [apply veq_refl|done]. Qed.

Lemma oeq_trans a b c : oeq a b → oeq b c → oeq a c.
Proof. destruct a, b, c; simpl; try done. apply veq_trans. Qed.

Lemma wf_dict_get d k x : wf_value (VDict d) → dict_get d k = Some x → wf_value x.
Proof.
  intros [_ Hwf]%wf_value_dict Hget%dict_get_Some_elem.
  rewrite Forall_forall in Hwf. apply (Hwf _ Hget).
Qed.

Lemma wf_default d k : wf_value (VDict d) → wf_value (default (VDict []) (dict_get d k)).
Proof.
  intros Hwf. destruct (dict_get d k) eqn:E; simpl; [by eapply wf_dict_get|done].
Qed.

Lemma put_wf P : ∀ node node' x,
  wf_value node → wf_value x → put node P x = Ok node' → wf_value node'.
Proof.
  induction P as [|k P IH]; intros node node' x Hnode Hx; simpl.
  - by intros [= <-].
  - destruct node as [| | | | |d]; try done.
    destruct (put _ P x) as [c'|] eqn:E; [|done]. simpl. intros [= <-].
    apply IH in E; [|by apply wf_default|done].
    apply wf_value_dict in Hnode as [Hnd Hwf]. apply wf_value_dict. split.
    + by apply NoDup_dict_keys_set.
    + by apply (Forall_dict_set wf_value).
Qed.

Lemma put_veq P : ∀ node node' x,
  veq node node' → wf_value node → oeq (put node P x) (put node' P x).
Proof.
  induction P as [|k P IH]; intros node node' x Hveq Hwf; simpl.
  - apply veq_refl.
  - destruct node as [| | | | |d];
      try (inversion Hveq; subst; done).
    apply veq_dict_inv in Hveq as (d' & -> & Hd).
    pose proof (Hwf) as [Hnd _]%wf_value_dict.
    pose proof (deq_lookup d d' k Hd Hnd) as Hlook.
    assert (veq (default (VDict []) (dict_get d k))
                (default (VDict []) (dict_get d' k))) as Hc.
    { destruct (dict_get d k), (dict_get d' k); simpl in *; try done.
      apply veq_refl. }
    specialize (IH _ _ x Hc (wf_default d k Hwf)).
    destruct (put (default (VDict []) (dict_get d k)) P x),
             (put (default (VDict []) (dict_get d' k)) P x); simpl in *;
      try done.
    apply veq_dict. by apply dict_set_deq.
Qed.

Lemma incomparable_cons_ne (a b : string) P Q : a ≠ b → incomparable (a :: P) (b :: Q).
Proof. intros Hab. split; intros ?%prefix_cons_inv_1; congruence. Qed.

Lemma incomparable_cons_inv (a : string) P Q :
  incomparable (a :: P) (a :: Q) → incomparable P Q.
Proof. intros [H1 H2]. split; intros H; [apply H1|apply H2]; by apply prefix_cons. Qed.

(** Updates at two paths neither of which is a prefix of the other
    commute. *)
Lemma put_comm P : ∀ Q node x y,
  incomparable P Q →
  oeq (n ← put node P x; put n Q y) (n ← put node Q y; put n P x).
Proof.
  induction P as [|a P IH]; intros Q node x y Hinc.
  { destruct Hinc as [[] _]. apply prefix_nil. }
  destruct Q as [|b Q].
  { destruct Hinc as [_ []]. apply prefix_nil. }
  destruct node as [| | | | |e]; try done.
  rewrite !put_cons.
  destruct (decide (a = b)) as [<-|Hab].
  - apply incomparable_cons_inv in Hinc.
    specialize (IH Q (default (VDict []) (dict_get e a)) x y Hinc).
    destruct (put (default (VDict []) (dict_get e a)) P x) as [ca|] eqn:Ea,
             (put (default (VDict []) (dict_get e a)) Q y) as [cb|] eqn:Eb;
      simpl in *;
      rewrite ?put_cons, ?dict_get_set_eq; simpl.
    + destruct (put ca Q y), (put cb P x); simpl in *; try done.
      rewrite !dict_set_set. apply veq_dict. by apply dict_set_veq.
    + by destruct (put ca Q y).
    + by destruct (put cb P x).
    + done.
  - destruct (put (default (VDict []) (dict_get e a)) P x) as [ca|] eqn:Ea,
             (put (default (VDict []) (dict_get e b)) Q y) as [cb|] eqn:Eb;
      simpl;
      rewrite ?put_cons, ?dict_get_set_ne by done; rewrite ?Ea, ?Eb; simpl;
      try done.
    apply veq_dict. by apply dict_set_comm.
Qed.

Implicit Types (l : list (list string * value)).

(** ** Unflattening in any order *)

Lemma pairwise_perm {A} (R : A → A → Prop) (l l' : list A) :
  (∀ a b, R a b → R b a) → l ≡ₚ l' → pairwise R l → pairwise R l'.
Proof.
  intros Hsym Hperm. induction Hperm as [|a l l' Hp IH|a b l|l1 l2 l3 _ IH1 _ IH2];
    intros Hl.
  - done.
  - inversion Hl; subst. constructor; [by rewrite <- Hp|auto].
  - inversion Hl as [|? ? Ha Hl']; subst. inversion Hl' as [|? ? Hb Hl'']; subst.
    apply Forall_cons in Ha as [Hab Ha].
    constructor; [|by constructor]. constructor; [by apply Hsym|done].
  - auto.
Qed.

Lemma incomparable_sym P Q : incomparable P Q → incomparable Q P.
Proof. by intros [? ?]. Qed.

Lemma put_paths_veq l : ∀ node node',
  veq node node' → wf_value node → Forall (λ a, wf_value a.2) l →
  oeq (put_paths l node) (put_paths l node').
Proof.
  induction l as [|[P x] l IH]; intros node node' Hveq Hwf Hl; simpl; [done|].
  apply Forall_cons in Hl as [Hx Hl]. simpl in Hx.
  pose proof (put_veq P node node' x Hveq Hwf) as H.
  destruct (put node P x) as [n|] eqn:E, (put node' P x) as [n'|]; simpl in *;
    try done.
  apply IH; [done| |done]. apply (put_wf P node n x Hwf Hx E).
Qed.

Lemma put_paths_perm l l' :
  l ≡ₚ l' → pairwise apart l → Forall (λ a, wf_value a.2) l →
  ∀ node node', veq node node' → wf_value node →
    oeq (put_paths l node) (put_paths l' node').
Proof.
  intros Hperm.
  induction Hperm as [|[P x] l l' Hp IH|[Q y] [P x] l|l1 l2 l3 H12 IH1 H23 IH2];
    intros Hpw Hwfl node node' Hveq Hwf.
  - done.
  - simpl. inversion Hpw; subst. apply Forall_cons in Hwfl as [Hx Hwfl].
    pose proof (put_veq P node node' x Hveq Hwf) as H.
    destruct (put node P x) as [n|] eqn:E, (put node' P x) as [n'|];
      simpl in *; try done.
    apply IH; try done. apply (put_wf P node n x Hwf Hx E).
  - inversion Hpw as [|? ? HP Hpw']; subst.
    apply Forall_cons in HP as [HPQ _]. unfold apart in HPQ. simpl in HPQ.
    apply Forall_cons in Hwfl as [Hx [Hy Hwfl]%Forall_cons]. simpl in Hx, Hy.
    assert (∀ node P x Q y,
              put_paths ((P, x) :: (Q, y) :: l) node =
              n ← (n ← put node P x; put n Q y); put_paths l n) as Hassoc.
    { intros node0 P0 x0 Q0 y0. simpl. by destruct (put node0 P0 x0). }
    rewrite !Hassoc. clear Hassoc.
    assert (oeq (n ← put node P x; put n Q y) (n ← put node' Q y; put n P x))
      as H.
    { eapply oeq_trans; [by apply put_comm|].
      pose proof (put_veq Q node node' y Hveq Hwf) as H.
      destruct (put node Q y) as [n|] eqn:E, (put node' Q y) as [n'|];
        simpl in *; try done.
      apply put_veq; [done|]. apply (put_wf Q node n y Hwf Hy E). }
    destruct (put node P x) as [n1|] eqn:E1; simpl in *.
    + destruct (put n1 Q y) as [n2|] eqn:E2; simpl in *.
      * destruct (n ← put node' Q y; put n P x) as [n2'|]; simpl in *; [|done].
        apply put_paths_veq; [done| |done].
        apply (put_wf Q n1 n2 y (put_wf P node n1 x Hwf Hx E1) Hy E2).
      * by destruct (n ← put node' Q y; put n P x).
    + by destruct (n ← put node' Q y; put n P x).
  - eapply oeq_trans; [apply (IH1 Hpw Hwfl node node); [apply veq_refl|done]|].
    apply IH2; try done.
    + eapply pairwise_perm; [|done..]. intros a b. apply incomparable_sym.
    + by rewrite <- H12.
Qed.

(** ** From [veq] to Python equality *)

Lemma py_eq_veq x : ∀ y, wf_value x → veq x y → py_eq x y = true.
Proof.
  induction x as [| | | | |d IH] using value_ind'; intros y Hwf Hveq;
    try (inversion Hveq; subst; by apply py_eq_refl).
  apply veq_dict_inv in Hveq as (d' & -> & Hd).
  pose proof Hwf as [Hnd Hwfd]%wf_value_dict.
  rewrite py_eq_dict. apply andb_true_iff. split.
  - apply Nat.eqb_eq.
    transitivity (length (dict_keys d)); [symmetry; apply length_map|].
    transitivity (length (dict_keys d')); [|apply length_map].
    apply Permutation_length. by apply deq_keys.
  - apply entries_eq_true. intros k v Hin.
    pose proof (deq_lookup d d' k Hd Hnd) as Hlook.
    rewrite (dict_get_elem _ _ _ Hnd Hin) in Hlook.
    destruct (dict_get d' k) as [v'|]; [|done]. exists v'. split; [done|].
    rewrite Forall_forall in IH, Hwfd.
    apply (IH _ Hin); [apply (Hwfd _ Hin)|done].
Qed.

(** ** The leaves of a document do not get in each other's way *)

Lemma below_incomparable P (k k' : string) Q Q' :
  k ≠ k' → incomparable (P ++ k :: Q) (P ++ k' :: Q').
Proof.
  intros Hne. split; intros H%prefix_app_inv%prefix_cons_inv_1; congruence.
Qed.

Lemma pairwise_app {A} (R : A → A → Prop) (l1 l2 : list A) :
  pairwise R l1 → pairwise R l2 → (∀ a b, a ∈ l1 → b ∈ l2 → R a b) →
  pairwise R (l1 ++ l2).
Proof.
  intros H1 H2 H12. induction H1 as [|a l1 Ha H1 IH]; simpl; [done|].
  constructor.
  - apply Forall_app. split; [done|]. apply Forall_forall. intros b Hb.
    apply H12; [left|done].
  - apply IH. intros a' b Ha' Hb. apply H12; [by right|done].
Qed.

Lemma leaves_apart depth v : ∀ P, wf_value v → pairwise apart (leaves depth P v).
Proof.
  induction v as [| | | | |kvs IH] using value_ind'; intros P Hwf;
    try constructor.
  apply wf_value_dict in Hwf as [Hnd Hwf]. rewrite leaves_dict.
  induction kvs as [|[k v] kvs IHk]; simpl; [constructor|].
  apply Forall_cons in IH as [IHv IH]. apply Forall_cons in Hwf as [Hwfv Hwf].
  apply NoDup_cons in Hnd as [Hk Hnd]. simpl in *.
  apply pairwise_app.
  - unfold leaf_step. simpl.
    assert (pairwise apart [(P ++ [k], v)]) as Hone by by repeat constructor.
    destruct (_ && _); [done|]. destruct (nonempty_mapping v); [|done].
    by apply IHv.
  - by apply IHk.
  - intros a b (q & Ha)%leaf_step_below (k' & q' & Hk' & Hb)%flat_map_leaf_step_below.
    unfold apart. rewrite Ha, Hb. simpl. apply below_incomparable.
    intros ->. done.
Qed.

Lemma leaves_wf depth v : ∀ P,
  wf_value v → Forall (λ a, wf_value a.2) (leaves depth P v).
Proof.
  induction v as [| | | | |kvs IH] using value_ind'; intros P Hwf;
    try constructor.
  apply wf_value_dict in Hwf as [_ Hwf]. rewrite leaves_dict.
  induction kvs as [|[k v] kvs IHk]; simpl; [constructor|].
  apply Forall_cons in IH as [IHv IH]. apply Forall_cons in Hwf as [Hwfv Hwf].
  apply Forall_app. split; [|by apply IHk].
  unfold leaf_step. simpl.
  destruct (_ && _); [by repeat constructor|].
  destruct (nonempty_mapping v); [by apply IHv|by repeat constructor].
Qed.

Lemma put_paths_wf l : ∀ node n,
  wf_value node → Forall (λ a, wf_value a.2) l →
  put_paths l node = Ok n → wf_value n.
Proof.
  induction l as [|[P x] l IH]; intros node n Hn Hl; simpl.
  - by intros [= <-].
  - apply Forall_cons in Hl as [Hx Hl].
    destruct (put node P x) as [n1|] eqn:E; [|done]. simpl. apply IH; [|done].
    apply (put_wf P node n1 x Hn Hx E).
Qed.

(** Unflattening the flat mapping of a document with its entries in any
    order rebuilds a document equal to the original. *)
Lemma unflatten_permuted depth (d flat : dict) :
  wf_dict d → keys_sep_free_within depth 0 (VDict d) = true →
  no_empty_root_key d = true →
  flat ≡ₚ flatten_dict d depth "" →
  ∃ r, unflatten_dict flat = Ok r ∧ wf_dict r ∧ veq (VDict r) (VDict d) ∧
       py_eq (VDict r) (VDict d) = true.
Proof.
  intros Hwf Hsep Hroot Hperm.
  assert (paths_of flat ≡ₚ leaves depth [] (VDict d)) as Hp.
  { rewrite <- flatten_dict_leaves_within by done. unfold paths_of.
    by apply Permutation_map. }
  assert (pairwise apart (paths_of flat)) as Hapart.
  { eapply pairwise_perm; [|symmetry; apply Hp|by apply leaves_apart].
    intros a b. apply incomparable_sym. }
  assert (Forall (λ a, wf_value a.2) (paths_of flat)) as Hwfl.
  { rewrite Hp. by apply leaves_wf. }
  pose proof (put_paths_perm _ _ Hp Hapart Hwfl (VDict []) (VDict [])
                (veq_refl _) (reflexivity _)) as H.
  rewrite put_leaves_root in H by done.
  pose proof (unflatten_loop_put_all flat []) as Hu.
  rewrite put_all_put_paths in Hu. fold (paths_of flat) in Hu.
  destruct (put_paths (paths_of flat) (VDict [])) as [u|] eqn:E; [|done].
  simpl in H. unfold unflatten_dict.
  destruct (unflatten_loop flat []) as [r|]; [|done].
  injection Hu as ->. exists r.
  assert (wf_dict r) as Hr.
  { apply (put_paths_wf _ _ _ (reflexivity _ : wf_value (VDict [])) Hwfl E). }
  split_and!; [done..|]. by apply py_eq_veq.
Qed.

(** ** Union with the empty document *)

Lemma same_bindings_perm d1 d2 :
  NoDup (dict_keys d1) → NoDup (dict_keys d2) →
  (∀ k, dict_get d1 k = dict_get d2 k) → d1 ≡ₚ d2.
Proof.
  intros H1 H2 Hget. apply NoDup_Permutation.
  - by eapply NoDup_fmap_1.
  - by eapply NoDup_fmap_1.
  - intros [k v]. split; intros Hin.
    + apply dict_get_Some_elem. rewrite <- Hget. by apply dict_get_elem.
    + apply dict_get_Some_elem. rewrite Hget. by apply dict_get_elem.
Qed.

Lemma flatten_dict_nil depth : flatten_dict [] depth "" = [].
Proof. unfold flatten_dict. simpl. by destruct (_ && _). Qed.

(** The result mapping of the union of the empty document with [B]. *)
Lemma union_empty_result o (B : dict) compare_mode depth :
  wf_dict B →
  ∃ r, set_operation_result o (flatten_dict [] depth "")
         (flatten_dict B depth "") "union" compare_mode = Ok r ∧
       wf_dict r ∧
       (∀ k, dict_get r k = dict_get (flatten_dict B depth "") k).
Proof.
  intros HB. rewrite flatten_dict_nil.
  destruct (set_operation_result_union o [] (flatten_dict B depth "")
              compare_mode) as (r & Hr & Hnd & Hget).
  exists r. split_and!; [done| |done].
  apply (set_operation_result_wf o [] (flatten_dict B depth "")
           "union" compare_mode); [constructor|by apply flatten_value_wf|done].
Qed.

(** C5, as stated, fails, at depth 0 and beyond depth 1.  At depth 0 the
    union of the empty document with a nested document is the flat form of
    that document.  Beyond depth 1 the result is unflattened, and comes
    back changed in two ways, so that each of the two conditions of the
    amended claim is needed there: a key with a separator among those that
    are joined comes back split into nested mappings, although the root
    binds no empty key; and an empty root key bound to a non-empty mapping
    is lost, although every key is free of the separator. *)
Lemma union_empty_is_not_identity :
  ¬ (∀ o (B : dict) compare_mode depth,
        wf_dict B →
        ∃ r, perform_set_operation o [] B "union" compare_mode depth = Ok r ∧
             py_eq (VDict r) (VDict B) = true) ∧
  ¬ (∀ o (B : dict) compare_mode depth,
        wf_dict B → 1 < depth → no_empty_root_key B = true →
        ∃ r, perform_set_operation o [] B "union" compare_mode depth = Ok r ∧
             py_eq (VDict r) (VDict B) = true) ∧
  ¬ (∀ o (B : dict) compare_mode depth,
        wf_dict B → 1 < depth →
        keys_sep_free_within depth 0 (VDict B) = true →
        ∃ r, perform_set_operation o [] B "union" compare_mode depth = Ok r ∧
             py_eq (VDict r) (VDict B) = true) ∧
  perform_set_operation insertion_order [] [("a", VDict [("b", VInt 1)])]
    "union" "kv" 0 = Ok [("a.b", VInt 1)] ∧
  perform_set_operation insertion_order [] [("a.b", VInt 1)] "union" "kv" 2
    = Ok [("a", VDict [("b", VInt 1)])] ∧
  perform_set_operation insertion_order [] [("", VDict [("a", VInt 1)])]
    "union" "kv" 2 = Ok [("a", VInt 1)].
Proof.
  split_and!; [| | |reflexivity..].
  - intros H.
    destruct (H insertion_order [("a", VDict [("b", VInt 1)])] "kv" 0)
      as (r & Hr & Heq); [reflexivity|].
    vm_compute in Hr. injection Hr as <-. vm_compute in Heq. discriminate Heq.
  - intros H.
    destruct (H insertion_order [("a.b", VInt 1)] "kv" 2)
      as (r & Hr & Heq); [reflexivity|lia|reflexivity|].
    vm_compute in Hr. injection Hr as <-. vm_compute in Heq. discriminate Heq.
  - intros H.
    destruct (H insertion_order [("", VDict [("a", VInt 1)])] "kv" 2)
      as (r & Hr & Heq); [reflexivity|lia|reflexivity|].
    vm_compute in Hr. injection Hr as <-. vm_compute in Heq. discriminate Heq.
Qed.

(** C5, amended: the union of the empty document with [B] returns a mapping
    equal to [B] when the depth is 1; when the depth is greater than 1 it
    does so provided the keys of the first [depth] levels of [B], the ones
    [flatten_dict] joins into flat keys, are free of the separator (keys
    further down may hold it) and the root does not bind the empty key to a
    non-empty mapping; when the depth is 0 or less it returns the flat
    mapping of [B].  This holds in every compare mode and for every
    iteration order. *)
Theorem union_with_empty_document o (B : dict) (compare_mode : string) (depth : Z) :
  wf_dict B →
  (depth = 1 →
   ∃ r, perform_set_operation o [] B "union" compare_mode depth = Ok r ∧
        py_eq (VDict r) (VDict B) = true) ∧
  (1 < depth → keys_sep_free_within depth 0 (VDict B) = true →
   no_empty_root_key B = true →
   ∃ r, perform_set_operation o [] B "union" compare_mode depth = Ok r ∧
        py_eq (VDict r) (VDict B) = true) ∧
  (depth ≤ 0 →
   ∃ r, perform_set_operation o [] B "union" compare_mode depth = Ok r ∧
        py_eq (VDict r) (VDict (flatten_dict B depth "")) = true).
Proof.
  intros HB.
  destruct (union_empty_result o B compare_mode depth HB)
    as (r & Hr & Hwf & Hget).
  pose proof (flatten_value_NoDup depth "" (VDict B) HB) as Hnd.
  fold (flatten_dict B depth "") in Hnd.
  split_and!.
  - intros ->. exists r. rewrite perform_set_operation_flat, Hr by done.
    split; [done|]. apply py_eq_same_bindings; [done| |done].
    by apply wf_value_dict in HB as [? _].
  - intros Hd Hsep Hroot.
    destruct (unflatten_permuted depth B r HB Hsep Hroot)
      as (r' & Hr' & _ & _ & Heq).
    { apply same_bindings_perm; [|done..].
      by apply wf_value_dict in Hwf as [? _]. }
    exists r'. unfold perform_set_operation. rewrite Hr. simpl.
    by rewrite (proj2 (Z.ltb_lt 1 depth) Hd).
  - intros Hd. exists r. rewrite perform_set_operation_flat, Hr by lia.
    split; [done|]. by apply py_eq_same_bindings.
Qed.

Lemma union_with_empty_document_witness :
  wf_dict dotted_below ∧
  keys_sep_free (VDict dotted_below) = false ∧
  keys_sep_free_within 2 0 (VDict dotted_below) = true ∧
  no_empty_root_key dotted_below = true ∧
  ∃ r, perform_set_operation reverse_order [] dotted_below "union" "kv" 2
       = Ok r ∧
       py_eq (VDict r) (VDict dotted_below) = true.
Proof.
  split_and!; [reflexivity..|].
  apply (union_with_empty_document reverse_order dotted_below "kv" 2);
    [reflexivity|lia|reflexivity..].
Defined.

(** ** The round trip and the empty key *)

(** C1 at the failing input: the document binds the empty key to a
    non-empty mapping; its keys hold no separator and it has no empty
    mapping, yet unflattening its flat mapping gives another document. *)
Theorem empty_key_breaks_round_trip :
  let d := [("", VDict [("a", VInt 1)])] in
  wf_dict d ∧ keys_sep_free (VDict d) = true ∧
  flatten_dict d 0 "" = [("a", VInt 1)] ∧
  unflatten_dict (flatten_dict d 0 "") = Ok [("a", VInt 1)] ∧
  py_eq (VDict [("a", VInt 1)]) (VDict d) = false.
Proof. by split_and!. Qed.

(** The round trip holds when, besides, the root does not bind the empty key
    to a non-empty mapping. *)
Lemma round_trip_depth_0 (d : dict) :
  wf_dict d → keys_sep_free (VDict d) = true → no_empty_root_key d = true →
  ∃ r, unflatten_dict (flatten_dict d 0 "") = Ok r ∧
       py_eq (VDict r) (VDict d) = true.
Proof.
  intros Hwf Hsep Hroot. exists d. split; [by apply unflatten_flatten|].
  by apply py_eq_refl.
Qed.

(** ** Intersection in key-value mode *)

(** C6 at the failing input: an empty mapping and an empty list have the
    same hashable form, so intersection keeps the entry, with the value of
    whichever document comes first; the two results have the same keys and
    are not equal. *)
Theorem intersect_kv_values_differ :
  let A := [("a", VDict [])] in
  let B := [("a", VList [])] in
  make_hashable (VDict []) = make_hashable (VList []) ∧
  perform_set_operation insertion_order A B "intersect" "kv" 1 = Ok A ∧
  perform_set_operation insertion_order B A "intersect" "kv" 1 = Ok B ∧
  dict_keys A = dict_keys B ∧
  py_eq (VDict A) (VDict B) = false ∧
  py_eq (VDict B) (VDict A) = false.
Proof. by split_and!. Qed.

(** The same with a non-empty mapping and the list of its items. *)
Example intersect_kv_values_differ_nonempty :
  let A := [("a", VDict [("x", VInt 1)])] in
  let B := [("a", VList [VList [VStr "x"; VInt 1]])] in
  perform_set_operation insertion_order A B "intersect" "kv" 1 = Ok A ∧
  perform_set_operation insertion_order B A "intersect" "kv" 1 = Ok B ∧
  py_eq (VDict A) (VDict B) = false.
Proof. by split_and!. Qed.

(** ** Union in the two compare modes *)

(** In a conflict-free flat mapping the paths of two different keys are not
    prefixes of each other. *)
Lemma conflict_free_apart flat :
  NoDup (dict_keys flat) → conflict_free flat → pairwise apart (paths_of flat).
Proof.
  unfold conflict_free. intros Hnd Hcf.
  assert (∀ k1 k2, k1 ∈ dict_keys flat → k2 ∈ dict_keys flat → k1 ≠ k2 →
                   incomparable (split sep k1) (split sep k2)) as Hinc.
  { rewrite Forall_forall in Hcf.
    assert (∀ k1 k2, k1 ∈ dict_keys flat → k2 ∈ dict_keys flat → k1 ≠ k2 →
                     ¬ split sep k1 `prefix_of` split sep k2) as Hhalf.
    { intros k1 k2 H1 H2 Hne Hpre. specialize (Hcf k1 H1).
      rewrite Forall_forall in Hcf. apply (Hcf k2 H2). split; [done|].
      intros Heq. by apply Hne, split_inj. }
    intros k1 k2 H1 H2 Hne. split; apply Hhalf; done. }
  clear Hcf. induction flat as [|[k v] flat IH]; [constructor|].
  change (dict_keys ((k, v) :: flat)) with (k :: dict_keys flat) in *.
  change (paths_of ((k, v) :: flat))
    with ((split sep k, v) :: paths_of flat).
  apply NoDup_cons in Hnd as [Hk Hnd]. constructor.
  - apply Forall_forall. intros a Ha. unfold paths_of in Ha.
    apply list_elem_of_In, in_map_iff in Ha as (kv & <- & Hin%list_elem_of_In).
    unfold apart. simpl. apply Hinc.
    + left.
    + right. by apply list_elem_of_fmap_2.
    + intros ->. apply Hk. by apply list_elem_of_fmap_2.
  - apply IH; [done|]. intros k1 k2 H1 H2. apply Hinc; by right.
Qed.

(** Unflattening a conflict-free flat mapping gives equal documents
    whatever the order of its entries. *)
Lemma unflatten_any_order flat flat' :
  flat ≡ₚ flat' → NoDup (dict_keys flat) → conflict_free flat →
  Forall (λ kv, wf_value kv.2) flat →
  ∃ r r', unflatten_dict flat = Ok r ∧ unflatten_dict flat' = Ok r' ∧
          py_eq (VDict r) (VDict r') = true.
Proof.
  intros Hperm Hnd Hcf Hwf.
  destruct (conflict_free_unflatten_ok flat Hcf) as [r Hr].
  assert (Forall (λ a, wf_value a.2) (paths_of flat)) as Hwfl.
  { unfold paths_of. by rewrite Forall_fmap. }
  assert (paths_of flat ≡ₚ paths_of flat') as Hp
    by by apply Permutation_map.
  pose proof (put_paths_perm _ _ Hp (conflict_free_apart flat Hnd Hcf) Hwfl
                (VDict []) (VDict []) (veq_refl _) (reflexivity _)) as H.
  pose proof (unflatten_loop_put_all flat []) as Hu.
  pose proof (unflatten_loop_put_all flat' []) as Hu'.
  rewrite put_all_put_paths in Hu, Hu'.
  fold (paths_of flat) in Hu. fold (paths_of flat') in Hu'.
  unfold unflatten_dict in *. rewrite Hr in Hu. simpl in Hu.
  rewrite Hu in H.
  destruct (put_paths (paths_of flat') (VDict [])) as [u'|] eqn:E'; [|done].
  destruct (unflatten_loop flat' []) as [r'|]; [|done].
  injection Hu' as ->. exists r, r'. split_and!; [done..|].
  apply py_eq_veq; [|done].
  apply (put_paths_wf _ _ _ (reflexivity _ : wf_value (VDict [])) Hwfl Hu).
Qed.

(** C9: for a union the result mapping is the same in [keys] mode and in
    [kv] mode, under any two iteration orders: either binds each key of
    either flat mapping exactly once, to the value of the left document
    when it has the key and to that of the right one otherwise, and the two
    mappings are equal.  Up to depth 1 they are what
    [perform_set_operation] returns; beyond depth 1 it returns their
    unflattened forms, which are equal as soon as the result mapping is
    conflict-free. *)
Theorem union_same_in_both_modes o1 o2 (A B : dict) (depth : Z) :
  wf_dict A → wf_dict B →
  ∃ rk rkv,
    set_operation_result o1 (flatten_dict A depth "") (flatten_dict B depth "")
      "union" "keys" = Ok rk ∧
    set_operation_result o2 (flatten_dict A depth "") (flatten_dict B depth "")
      "union" "kv" = Ok rkv ∧
    NoDup (dict_keys rk) ∧ NoDup (dict_keys rkv) ∧
    (∀ k, k ∈ dict_keys rk ↔
          k ∈ dict_keys (flatten_dict A depth "") ∨
          k ∈ dict_keys (flatten_dict B depth "")) ∧
    (∀ k, dict_get rk k =
            resolve (flatten_dict A depth "") (flatten_dict B depth "") k ∧
          dict_get rkv k =
            resolve (flatten_dict A depth "") (flatten_dict B depth "") k) ∧
    py_eq (VDict rk) (VDict rkv) = true ∧
    (depth ≤ 1 →
     perform_set_operation o1 A B "union" "keys" depth = Ok rk ∧
     perform_set_operation o2 A B "union" "kv" depth = Ok rkv) ∧
    (1 < depth → conflict_free rk →
     ∃ uk ukv,
       perform_set_operation o1 A B "union" "keys" depth = Ok uk ∧
       perform_set_operation o2 A B "union" "kv" depth = Ok ukv ∧
       py_eq (VDict uk) (VDict ukv) = true).
Proof.
  intros HA HB.
  set (flat1 := flatten_dict A depth ""). set (flat2 := flatten_dict B depth "").
  destruct (set_operation_result_union o1 flat1 flat2 "keys")
    as (rk & Hrk & Hndk & Hgetk).
  destruct (set_operation_result_union o2 flat1 flat2 "kv")
    as (rkv & Hrkv & Hndkv & Hgetkv).
  assert (wf_dict rk) as Hwfk.
  { apply (set_operation_result_wf o1 flat1 flat2 "union" "keys");
      [by apply flatten_value_wf..|done]. }
  exists rk, rkv. split_and!; try done.
  - intros k. rewrite <- !dict_get_is_Some, Hgetk. unfold resolve.
    destruct (dict_get flat1 k) as [v|]; [|by split; [right|intros [[? [=]]|?]]].
    split; [left|]; eauto.
  - apply py_eq_same_bindings; [done..|].
    intros k. by rewrite Hgetk, Hgetkv.
  - intros Hd. by rewrite !perform_set_operation_flat.
  - intros Hd Hcf.
    destruct (unflatten_any_order rk rkv) as (uk & ukv & Huk & Hukv & Heq);
      [|done..| |].
    + apply same_bindings_perm; [done..|]. intros k. by rewrite Hgetk, Hgetkv.
    + by apply wf_value_dict in Hwfk as [_ ?].
    + exists uk, ukv. unfold perform_set_operation.
      fold flat1 flat2. rewrite Hrk, Hrkv. simpl.
      by rewrite (proj2 (Z.ltb_lt 1 depth) Hd).
Qed.

Lemma union_same_in_both_modes_witness :
  wf_dict nested1 ∧ wf_dict nested2 ∧
  ∃ rk rkv,
    set_operation_result insertion_order
      (flatten_dict nested1 2 "") (flatten_dict nested2 2 "") "union" "keys"
      = Ok rk ∧
    set_operation_result reverse_order
      (flatten_dict nested1 2 "") (flatten_dict nested2 2 "") "union" "kv"
      = Ok rkv ∧
    py_eq (VDict rk) (VDict rkv) = true.
Proof.
  split_and!; [reflexivity..|].
  destruct (union_same_in_both_modes insertion_order reverse_order
              nested1 nested2 2)
    as (rk & rkv & H1 & H2 & _ & _ & _ & _ & H3 & _);
    [reflexivity..|].
  by exists rk, rkv.
Defined.

(** ** What intersection does guarantee *)

Lemma hashable_eqb_sym a : ∀ b, hashable_eqb a b = hashable_eqb b a.
Proof.
  induction a as [|x|n|s|xs IH] using hashable_ind'; intros [|y|m|t|ys];
    simpl; try done.
  - by destruct x, y.
  - apply Z.eqb_sym.
  - apply Z.eqb_sym.
  - apply Z.eqb_sym.
  - apply String.eqb_sym.
  - revert ys. induction IH as [|x xs Hx _ IHxs]; intros [|y ys]; try done.
    by rewrite Hx, IHxs.
Qed.

(** Without repeated keys, the set of items of a flat mapping holds one item
    per entry. *)
Lemma items_of_NoDup flat :
  NoDup (dict_keys flat) →
  items_of flat = map (λ kv, (kv.1, make_hashable kv.2)) flat.
Proof.
  intros Hnd. unfold items_of, set_of.
  assert (∀ (l acc : dict), NoDup (dict_keys (acc ++ l)) →
            fold_left (set_add item_eqb)
              (map (λ kv, (kv.1, make_hashable kv.2)) l)
              (map (λ kv, (kv.1, make_hashable kv.2)) acc) =
            map (λ kv, (kv.1, make_hashable kv.2)) (acc ++ l)) as H.
  { clear. induction l as [|[k v] l IH]; intros acc Hnd; simpl.
    - by rewrite app_nil_r.
    - unfold set_add at 2.
      replace (set_mem item_eqb _ _) with false.
      + specialize (IH (acc ++ [(k, v)])). rewrite map_app in IH. simpl in IH.
        rewrite IH; rewrite <- app_assoc; done.
      + symmetry. apply not_true_is_false.
        intros (y & Hy & Heq%item_eqb_key)%set_mem_true. simpl in Heq.
        apply list_elem_of_In, in_map_iff in Hy as (kv & <- & Hin).
        simpl in Heq. unfold dict_keys in Hnd. rewrite fmap_app in Hnd.
        apply NoDup_app in Hnd as (_ & Hd & _).
        apply (Hd k); [|left]. rewrite Heq.
        apply list_elem_of_fmap_2. by apply list_elem_of_In. }
  apply (H flat []). done.
Qed.

Lemma elem_of_items_of flat k h :
  NoDup (dict_keys flat) →
  (k, h) ∈ items_of flat ↔ ∃ v, dict_get flat k = Some v ∧ h = make_hashable v.
Proof.
  intros Hnd. rewrite items_of_NoDup by done.
  rewrite list_elem_of_In, in_map_iff. split.
  - intros ([k' v] & [= <- <-] & Hin%list_elem_of_In). exists v.
    split; [by apply dict_get_elem|done].
  - intros (v & Hget%dict_get_Some_elem & ->). exists (k, v).
    split; [done|]. by apply list_elem_of_In.
Qed.

Lemma agree_sym flat1 flat2 k : agree flat1 flat2 k → agree flat2 flat1 k.
Proof.
  intros (v1 & v2 & H1 & H2 & Heq). exists v2, v1.
  split_and!; [done..|]. by rewrite hashable_eqb_sym.
Qed.

Lemma inter_items_keys flat1 flat2 k :
  NoDup (dict_keys flat1) → NoDup (dict_keys flat2) →
  k ∈ (set_inter item_eqb (items_of flat1) (items_of flat2)).*1 ↔
  agree flat1 flat2 k.
Proof.
  intros H1 H2. unfold set_inter. split.
  - intros ([k' h] & -> & [Hmem Hin]%list_elem_of_filter)%list_elem_of_fmap.
    simpl. apply elem_of_items_of in Hin as (v1 & Hv1 & ->); [|done].
    apply Is_true_true, set_mem_true in Hmem as ([k2 h2] & Hin2 & Heq).
    unfold item_eqb in Heq. simpl in Heq.
    apply andb_true_iff in Heq as [->%String.eqb_eq Heq].
    apply elem_of_items_of in Hin2 as (v2 & Hv2 & ->); [|done].
    by exists v1, v2.
  - intros (v1 & v2 & Hv1 & Hv2 & Heq).
    apply list_elem_of_fmap. exists (k, make_hashable v1). split; [done|].
    apply list_elem_of_filter. split.
    + apply Is_true_true, set_mem_true. exists (k, make_hashable v2). split.
      * apply elem_of_items_of; [done|]. by exists v2.
      * unfold item_eqb. simpl. by rewrite String.eqb_refl.
    + apply elem_of_items_of; [done|]. by exists v1.
Qed.

Lemma inter_keys_keys flat1 flat2 k :
  k ∈ set_inter String.eqb (set_of String.eqb (dict_keys flat1))
        (set_of String.eqb (dict_keys flat2)) ↔
  k ∈ dict_keys flat1 ∧ k ∈ dict_keys flat2.
Proof.
  unfold set_inter. rewrite list_elem_of_filter, keys_set_of.
  rewrite Is_true_true, set_mem_true. split.
  - intros [(y & Hy & ->%String.eqb_eq) H1]. split; [done|].
    by apply keys_set_of.
  - intros [H1 H2]. split; [|done]. exists k.
    split; [by apply keys_set_of|apply String.eqb_refl].
Qed.

(** X19: The result mappings of [intersect] with the two documents in either
    order bind the same keys, in both modes and at every depth; in [kv]
    mode the two values of a key have equal hashable forms.  Up to depth 1
    the result mappings are what [perform_set_operation] returns. *)
Lemma intersect_commutes_up_to_hashing o1 o2 (A B : dict) compare_mode depth :
  wf_dict A → wf_dict B →
  ∃ r1 r2,
    set_operation_result o1 (flatten_dict A depth "") (flatten_dict B depth "")
      "intersect" compare_mode = Ok r1 ∧
    set_operation_result o2 (flatten_dict B depth "") (flatten_dict A depth "")
      "intersect" compare_mode = Ok r2 ∧
    (∀ k, k ∈ dict_keys r1 ↔ k ∈ dict_keys r2) ∧
    (String.eqb compare_mode "keys" = false →
     ∀ k v1 v2, dict_get r1 k = Some v1 → dict_get r2 k = Some v2 →
       hashable_eqb (make_hashable v1) (make_hashable v2) = true) ∧
    (depth ≤ 1 →
     perform_set_operation o1 A B "intersect" compare_mode depth = Ok r1 ∧
     perform_set_operation o2 B A "intersect" compare_mode depth = Ok r2).
Proof.
  intros HA HB.
  set (flat1 := flatten_dict A depth ""). set (flat2 := flatten_dict B depth "").
  pose proof (flatten_value_NoDup depth "" (VDict A) HA) as Hnd1.
  pose proof (flatten_value_NoDup depth "" (VDict B) HB) as Hnd2.
  fold (flatten_dict A depth "") in Hnd1. fold (flatten_dict B depth "") in Hnd2.
  fold flat1 in Hnd1. fold flat2 in Hnd2.
  assert (∀ r1 r2,
    set_operation_result o1 flat1 flat2 "intersect" compare_mode = Ok r1 →
    set_operation_result o2 flat2 flat1 "intersect" compare_mode = Ok r2 →
    depth ≤ 1 →
    perform_set_operation o1 A B "intersect" compare_mode depth = Ok r1 ∧
    perform_set_operation o2 B A "intersect" compare_mode depth = Ok r2)
    as Hperform.
  { intros r1 r2 H1 H2 Hd. by rewrite !perform_set_operation_flat. }
  destruct (String.eqb compare_mode "keys") eqn:Emode.
  - destruct (prefer_file1_spec flat1 flat2
                (key_order o1 (set_inter String.eqb
                   (set_of String.eqb (dict_keys flat1))
                   (set_of String.eqb (dict_keys flat2)))) [])
      as (r1 & Hr1 & _ & Hget1).
    { intros k. rewrite elem_of_key_order, inter_keys_keys. tauto. }
    destruct (prefer_file1_spec flat2 flat1
                (key_order o2 (set_inter String.eqb
                   (set_of String.eqb (dict_keys flat2))
                   (set_of String.eqb (dict_keys flat1)))) [])
      as (r2 & Hr2 & _ & Hget2).
    { intros k. rewrite elem_of_key_order, inter_keys_keys. tauto. }
    assert (∀ k, is_Some (dict_get r1 k) ↔
                 k ∈ dict_keys flat1 ∧ k ∈ dict_keys flat2) as Hs1.
    { intros k. rewrite Hget1. case_decide as Hin;
        rewrite elem_of_key_order, inter_keys_keys in Hin.
      - split; [done|]. intros _. unfold resolve.
        destruct Hin as [[v ->]%dict_get_is_Some _]. eauto.
      - simpl. split; [by intros [? ?]|done]. }
    assert (∀ k, is_Some (dict_get r2 k) ↔
                 k ∈ dict_keys flat2 ∧ k ∈ dict_keys flat1) as Hs2.
    { intros k. rewrite Hget2. case_decide as Hin;
        rewrite elem_of_key_order, inter_keys_keys in Hin.
      - split; [done|]. intros _. unfold resolve.
        destruct Hin as [[v ->]%dict_get_is_Some _]. eauto.
      - simpl. split; [by intros [? ?]|done]. }
    assert (set_operation_result o1 flat1 flat2 "intersect" compare_mode
            = Ok r1) as HR1
      by (unfold set_operation_result; rewrite Emode; exact Hr1).
    assert (set_operation_result o2 flat2 flat1 "intersect" compare_mode
            = Ok r2) as HR2
      by (unfold set_operation_result; rewrite Emode; exact Hr2).
    exists r1, r2. split_and!; [done..| |done|by apply Hperform].
    intros k. rewrite <- !dict_get_is_Some, Hs1, Hs2. tauto.
  - destruct (from_file_spec flat1
                (item_order o1 (set_inter item_eqb (items_of flat1)
                                  (items_of flat2))).*1 [])
      as (r1 & Hr1 & _ & Hget1).
    { intros k. rewrite (fmap_Permutation _ _ _ (item_order_perm o1 _)).
      intros (? & _ & ? & _)%inter_items_keys; [|done..].
      apply dict_get_is_Some. eauto. }
    destruct (from_file_spec flat2
                (item_order o2 (set_inter item_eqb (items_of flat2)
                                  (items_of flat1))).*1 [])
      as (r2 & Hr2 & _ & Hget2).
    { intros k. rewrite (fmap_Permutation _ _ _ (item_order_perm o2 _)).
      intros (? & _ & ? & _)%inter_items_keys; [|done..].
      apply dict_get_is_Some. eauto. }
    assert (∀ k, is_Some (dict_get r1 k) ↔ agree flat1 flat2 k) as Hk1.
    { intros k. rewrite Hget1. case_decide as Hin;
        rewrite (fmap_Permutation _ _ _ (item_order_perm o1 _)),
                inter_items_keys in Hin by done.
      - split; [done|]. intros _. destruct Hin as (? & _ & -> & _). eauto.
      - simpl. split; [by intros [? ?]|done]. }
    assert (∀ k, is_Some (dict_get r2 k) ↔ agree flat2 flat1 k) as Hk2.
    { intros k. rewrite Hget2. case_decide as Hin;
        rewrite (fmap_Permutation _ _ _ (item_order_perm o2 _)),
                inter_items_keys in Hin by done.
      - split; [done|]. intros _. destruct Hin as (? & _ & -> & _). eauto.
      - simpl. split; [by intros [? ?]|done]. }
    assert (set_operation_result o1 flat1 flat2 "intersect" compare_mode
            = Ok r1) as HR1
      by (unfold set_operation_result; rewrite Emode; exact Hr1).
    assert (set_operation_result o2 flat2 flat1 "intersect" compare_mode
            = Ok r2) as HR2
      by (unfold set_operation_result; rewrite Emode; exact Hr2).
    exists r1, r2. split_and!; [done..| | |by apply Hperform].
    + intros k. rewrite <- !dict_get_is_Some, Hk1, Hk2.
      split; apply agree_sym.
    + intros _ k v1 v2 Hv1 Hv2.
      destruct (proj1 (Hk1 k)) as (w1 & w2 & Hw1 & Hw2 & Heq); [eauto|].
      assert (dict_get flat1 k = Some v1) as E1.
      { specialize (Hget1 k). rewrite Hv1 in Hget1.
        by case_decide; simpl in Hget1. }
      assert (dict_get flat2 k = Some v2) as E2.
      { specialize (Hget2 k). rewrite Hv2 in Hget2.
        by case_decide; simpl in Hget2. }
      congruence.
Qed.

(** ** More on [flatten_dict] *)

(** X1: for every depth, unflattening what [flatten_dict] returns gives the
    document back, entry for entry and in the same order, when the keys of
    the document are free of the separator and its root does not bind the
    empty key to a non-empty mapping. *)
Theorem round_trip_every_depth (d : dict) (depth : Z) :
  wf_dict d → keys_sep_free (VDict d) = true → no_empty_root_key d = true →
  unflatten_dict (flatten_dict d depth "") = Ok d.
Proof. apply unflatten_flatten. Qed.

Lemma round_trip_every_depth_witness :
  wf_dict nested1 ∧ keys_sep_free (VDict nested1) = true ∧
  no_empty_root_key nested1 = true ∧
  unflatten_dict (flatten_dict nested1 2 "") = Ok nested1.
Proof.
  split_and!; [reflexivity..|].
  apply (round_trip_every_depth nested1 2); reflexivity.
Defined.

(** X2: without a depth limit ([depth <= 0]) no value of the flat mapping is
    a non-empty mapping: every nested mapping has been walked into. *)
Theorem flatten_unlimited_is_flat (d : dict) (depth : Z) (k : string) (v : value) :
  depth ≤ 0 →
  dict_get (flatten_dict d depth "") k = Some v →
  nonempty_mapping v = false.
Proof.
  intros Hd Hget%dict_get_Some_elem.
  pose proof (flatten_value_leaves depth (VDict d) "" Hd) as H.
  rewrite Forall_forall in H. apply (H _ Hget).
Qed.

Lemma flatten_unlimited_is_flat_witness :
  0 ≤ 0 ∧
  dict_get (flatten_dict nested1 0 "") "database.port" = Some (VInt 5432) ∧
  nonempty_mapping (VInt 5432) = false.
Proof.
  assert (dict_get (flatten_dict nested1 0 "") "database.port"
          = Some (VInt 5432)) as H by reflexivity.
  split_and!; [lia|exact H|].
  apply (flatten_unlimited_is_flat nested1 0 "database.port" (VInt 5432));
    [lia|exact H].
Defined.

(** A mapping none of whose values is a non-empty mapping is its own flat
    mapping, at every depth. *)
Lemma flatten_dict_flat (d : dict) (depth : Z) :
  NoDup (dict_keys d) →
  Forall (λ kv, nonempty_mapping kv.2 = false) d →
  flatten_dict d depth "" = d.
Proof.
  intros Hnd Hflat. unfold flatten_dict. rewrite flatten_value_dict.
  case_match; [done|].
  rewrite (fold_left_ext_Forall _ (λ a kv, dict_set a kv.1 kv.2)
             (λ kv, nonempty_mapping kv.2 = false)); [|done|].
  - by apply (fold_dict_set_app d []).
  - intros acc [k v] Hv. unfold flatten_step. simpl in *.
    rewrite nonempty_mapping_spec, Hv. by case_match.
Qed.

(** X3: flattening is idempotent: the flat mapping of a document flattened
    without limit is left as it is by flattening it again, at whatever
    depth. *)
Theorem flatten_dict_idempotent (d : dict) (depth depth' : Z) :
  wf_dict d → depth ≤ 0 →
  flatten_dict (flatten_dict d depth "") depth' "" = flatten_dict d depth "".
Proof.
  intros Hwf Hd. apply flatten_dict_flat.
  - by apply (flatten_value_NoDup depth "" (VDict d)).
  - by apply (flatten_value_leaves depth (VDict d) "").
Qed.

Lemma flatten_dict_idempotent_witness :
  wf_dict nested1 ∧ 0 ≤ 0 ∧
  flatten_dict (flatten_dict nested1 0 "") 2 "" = flatten_dict nested1 0 "".
Proof.
  split_and!; [reflexivity|lia|].
  apply (flatten_dict_idempotent nested1 0 2); [reflexivity|lia].
Defined.

(** ** The depth limit *)

Section emitted_entries.
Variable Q : string * value → Prop.

Lemma Forall_dict_set_kv d k v :
  Forall Q d → Q (k, v) → Forall Q (dict_set d k v).
Proof.
  intros Hd Hv. induction Hd as [|[k' v'] d Hx Hd IH]; simpl.
  - by repeat constructor.
  - destruct (String.eqb k' k); constructor; done.
Qed.

Lemma Forall_dict_update_kv d (l : dict) :
  Forall Q d → Forall Q l → Forall Q (dict_update d l).
Proof.
  intros Hd Hl. revert d Hd. unfold dict_update.
  induction Hl as [|[k v] l Hx Hl IH]; intros d Hd; simpl; [done|].
  apply IH. by apply Forall_dict_set_kv.
Qed.

(** [Q] holds of every entry a fold of [flatten_step] emits as soon as it
    holds of what each step emits. *)
Lemma Forall_flatten_fold_kv rec depth (p : string) kvs acc :
  Forall Q acc →
  Forall (λ kv,
    let new_key := join_key p kv.1 in
    let reached := 0 < depth ≤ Z.of_nat (segments new_key) in
    (reached ∨ nonempty_mapping kv.2 = false → Q (new_key, kv.2)) ∧
    (¬ reached → nonempty_mapping kv.2 = true →
     Forall Q (rec new_key kv.2))) kvs →
  Forall Q (fold_left (flatten_step rec depth p) kvs acc).
Proof.
  intros Hacc Hkvs. revert acc Hacc.
  induction Hkvs as [|[k v] kvs [Hv Hrec] Hkvs IH]; intros acc Hacc; simpl;
    [done|].
  apply IH. unfold flatten_step. simpl in *.
  rewrite length_split, nonempty_mapping_spec.
  destruct ((0 <? depth) && (depth <=? _)) eqn:E.
  - apply andb_true_iff in E as [E1%Z.ltb_lt E2%Z.leb_le].
    apply Forall_dict_set_kv; [done|]. apply Hv. left. lia.
  - assert (¬ (0 < depth ≤ Z.of_nat (segments (join_key p k)))) as Hn.
    { intros [? ?]. apply andb_false_iff in E as [E%Z.ltb_ge|E%Z.leb_gt]; lia. }
    destruct (nonempty_mapping v) eqn:Ev.
    + apply Forall_dict_update_kv; [done|]. by apply Hrec.
    + apply Forall_dict_set_kv; [done|]. apply Hv. by right.
Qed.
End emitted_entries.

Lemma segments_sep_free k : sep_free k = true → segments k = 1%nat.
Proof. intros H. by rewrite <- length_split, split_sep_free. Qed.

Lemma segments_join_key (p k : string) :
  sep_free k = true →
  segments (join_key p k) = if str_truthy p then S (segments p) else 1%nat.
Proof.
  intros Hk. destruct p as [|a p]; simpl; [by apply segments_sep_free|].
  rewrite <- !length_split.
  rewrite (split_join_key_nonempty (String a p) k) by done.
  rewrite length_app, (split_sep_free k) by done. simpl. lia.
Qed.

Lemma flatten_value_within_depth depth v : ∀ (p : string),
  0 < depth → keys_sep_free v = true →
  (str_truthy p = true → Z.of_nat (segments p) < depth) →
  Forall (within_depth depth) (flatten_value depth p v).
Proof.
  induction v as [| | | | |kvs IH] using value_ind'; intros p Hd Hsep Hp;
    try by constructor.
  apply keys_sep_free_dict in Hsep. rewrite flatten_value_dict.
  destruct ((depth =? 1) && negb (str_truthy p)) eqn:E.
  - apply andb_true_iff in E as [->%Z.eqb_eq _].
    eapply Forall_impl; [apply Hsep|]. intros [k v] [Hk _]. simpl in *.
    unfold within_depth. simpl. rewrite (segments_sep_free k Hk). lia.
  - apply Forall_flatten_fold_kv; [constructor|].
    rewrite Forall_forall in IH, Hsep. apply Forall_forall.
    intros [k v] Hin. destruct (Hsep _ Hin) as [Hk Hv]. simpl in *.
    pose proof (segments_join_key p k Hk) as Hseg.
    assert (Z.of_nat (segments (join_key p k)) ≤ depth) as Hle.
    { rewrite Hseg. destruct (str_truthy p); [|lia].
      specialize (Hp eq_refl). lia. }
    split.
    + intros Hcase. unfold within_depth. simpl. split; [done|].
      intros Hne. destruct Hcase as [?|Hf]; [lia|congruence].
    + intros Hn Hne. apply (IH _ Hin); [done..|]. intros _. lia.
Qed.

(** X4: with a depth limit [depth >= 1] and keys free of the separator,
    every key of the flat mapping has at most [depth] segments, and a value
    that is still a non-empty mapping sits under a key of exactly [depth]
    segments. *)
Theorem flatten_dict_within_depth (d : dict) (depth : Z) (k : string) (v : value) :
  0 < depth → keys_sep_free (VDict d) = true →
  dict_get (flatten_dict d depth "") k = Some v →
  Z.of_nat (length (split sep k)) ≤ depth ∧
  (nonempty_mapping v = true → Z.of_nat (length (split sep k)) = depth).
Proof.
  intros Hd Hsep Hget%dict_get_Some_elem.
  pose proof (flatten_value_within_depth depth (VDict d) "" Hd Hsep) as H.
  rewrite Forall_forall in H. rewrite length_split.
  apply (H (λ Hp, ltac:(done)) (k, v) Hget).
Qed.

Lemma flatten_dict_within_depth_witness :
  0 < 2 ∧ keys_sep_free (VDict three_levels) = true ∧
  dict_get (flatten_dict three_levels 2 "") "a.b" = Some (VDict [("c", VInt 1)]) ∧
  Z.of_nat (length (split sep "a.b")) ≤ 2.
Proof.
  assert (dict_get (flatten_dict three_levels 2 "") "a.b"
          = Some (VDict [("c", VInt 1)])) as H by reflexivity.
  split_and!; [lia|reflexivity|exact H|].
  apply (flatten_dict_within_depth three_levels 2 "a.b" (VDict [("c", VInt 1)]));
    [lia|reflexivity|exact H].
Defined.

(** ** More on [unflatten_dict] *)

Lemma unflatten_loop_sep_free (d : dict) : ∀ acc,
  NoDup (dict_keys (acc ++ d)) →
  Forall (λ kv, sep_free kv.1 = true) d →
  unflatten_loop d acc = Ok (acc ++ d).
Proof.
  induction d as [|[k v] d IH]; intros acc Hnd Hsep; simpl.
  - by rewrite app_nil_r.
  - apply Forall_cons in Hsep as [Hk Hsep]. simpl in Hk.
    rewrite (split_sep_free k Hk). simpl.
    rewrite dict_set_absent.
    + rewrite IH; rewrite <- ?app_assoc; done.
    + apply dict_get_None. unfold dict_keys in *. rewrite fmap_app in Hnd.
      apply NoDup_app in Hnd as (_ & Hd & _). intros Hin.
      apply (Hd k Hin). left.
Qed.

(** X5: a mapping whose keys hold no separator is left as it is by
    [unflatten_dict]. *)
Theorem unflatten_dict_sep_free (d : dict) :
  NoDup (dict_keys d) → Forall (λ kv, sep_free kv.1 = true) d →
  unflatten_dict d = Ok d.
Proof. intros Hnd Hsep. by apply (unflatten_loop_sep_free d []). Qed.

Lemma unflatten_dict_sep_free_witness :
  NoDup (dict_keys nested1) ∧
  Forall (λ kv, sep_free kv.1 = true) nested1 ∧
  unflatten_dict nested1 = Ok nested1.
Proof.
  assert (NoDup (dict_keys nested1)) as H1
    by (apply (bool_decide_eq_true_1 (NoDup _)); reflexivity).
  assert (Forall (λ kv, sep_free kv.1 = true) nested1) as H2
    by (repeat constructor).
  split_and!; [exact H1|exact H2|].
  apply (unflatten_dict_sep_free nested1 H1 H2).
Defined.

(** X6: on a conflict-free flat mapping the order of the entries does not
    matter: unflattening any rearrangement of it returns an equal
    document. *)
Theorem unflatten_order_irrelevant (flat flat' : dict) :
  flat ≡ₚ flat' → NoDup (dict_keys flat) → conflict_free flat →
  Forall (λ kv, wf_value kv.2) flat →
  ∃ r r', unflatten_dict flat = Ok r ∧ unflatten_dict flat' = Ok r' ∧
          py_eq (VDict r) (VDict r') = true.
Proof. apply unflatten_any_order. Qed.

Lemma unflatten_order_irrelevant_witness :
  flat_example ≡ₚ List.rev flat_example ∧
  NoDup (dict_keys flat_example) ∧ conflict_free flat_example ∧
  Forall (λ kv, wf_value kv.2) flat_example ∧
  ∃ r r', unflatten_dict flat_example = Ok r ∧
          unflatten_dict (List.rev flat_example) = Ok r' ∧
          py_eq (VDict r) (VDict r') = true.
Proof.
  assert (flat_example ≡ₚ List.rev flat_example) as H1
    by apply Permutation_rev.
  assert (NoDup (dict_keys flat_example)) as H2
    by (apply (bool_decide_eq_true_1 (NoDup _)); reflexivity).
  assert (conflict_free flat_example) as H3
    by (apply (bool_decide_eq_true_1 (conflict_free _)); vm_compute; reflexivity).
  assert (Forall (λ kv, wf_value kv.2) flat_example) as H4
    by (repeat constructor).
  split_and!; [exact H1|exact H2|exact H3|exact H4|].
  apply (unflatten_order_irrelevant flat_example (List.rev flat_example)
           H1 H2 H3 H4).
Defined.

(** ** Reading back what was unflattened *)

Lemma get_path_nil_nonempty P : P ≠ [] → get_path (VDict []) P = None.
Proof. by destruct P. Qed.

(** [put] at [Q] leaves alone every path that [Q] is not comparable
    with. *)
Lemma get_path_put_other Q : ∀ P node node' y,
  put node Q y = Ok node' → incomparable P Q →
  get_path node' P = get_path node P.
Proof.
  induction Q as [|b Q IH]; intros P node node' y Hput [HPQ HQP].
  { destruct HQP. apply prefix_nil. }
  destruct P as [|a P]; [destruct HPQ; apply prefix_nil|].
  destruct node as [| | | | |e]; try done.
  rewrite put_cons in Hput.
  destruct (put (default (VDict []) (dict_get e b)) Q y) as [c'|] eqn:E;
    [|done].
  injection Hput as <-. simpl.
  destruct (decide (b = a)) as [->|Hne].
  - rewrite dict_get_set_eq.
    assert (incomparable P Q) as Hinc.
    { split; intros H; [apply HPQ|apply HQP]; by apply prefix_cons. }
    rewrite (IH P _ _ _ E Hinc).
    destruct (dict_get e a); [done|]. simpl. apply get_path_nil_nonempty.
    intros ->. apply HPQ. apply prefix_cons, prefix_nil.
  - by rewrite dict_get_set_ne.
Qed.

Lemma put_paths_get_other (l : list (list string * value)) : ∀ node r P x,
  put_paths l node = Ok r → Forall (apart (P, x)) l →
  get_path r P = get_path node P.
Proof.
  induction l as [|[Q y] l IH]; intros node r P x Hput Hl; simpl in *.
  - by injection Hput as <-.
  - apply Forall_cons in Hl as [HPQ Hl].
    destruct (put node Q y) as [n|] eqn:E; [|done]. simpl in Hput.
    rewrite (IH _ _ _ _ Hput Hl). by eapply get_path_put_other.
Qed.

Lemma put_paths_read_back (l : list (list string * value)) : ∀ node r,
  pairwise apart l → put_paths l node = Ok r →
  Forall (λ a, get_path r a.1 = Some a.2) l.
Proof.
  induction l as [|[P x] l IH]; intros node r Hpw Hput; [constructor|].
  inversion Hpw as [|? ? HP Hpw']; subst. simpl in Hput.
  destruct (put node P x) as [n|] eqn:E; [|done]. simpl in Hput.
  constructor.
  - simpl. rewrite (put_paths_get_other l n r P x Hput HP).
    by eapply get_path_put.
  - by eapply IH.
Qed.

Lemma conflict_free_read_back (flat : dict) :
  NoDup (dict_keys flat) → conflict_free flat →
  ∃ r, unflatten_dict flat = Ok r ∧
       ∀ k v, dict_get flat k = Some v →
              get_path (VDict r) (split sep k) = Some v.
Proof.
  intros Hnd Hcf. destruct (conflict_free_unflatten_ok flat Hcf) as [r Hr].
  exists r. split; [done|]. intros k v Hget%dict_get_Some_elem.
  pose proof (unflatten_loop_put_all flat []) as Hu.
  unfold unflatten_dict in Hr. rewrite Hr, put_all_put_paths in Hu.
  fold (paths_of flat) in Hu. simpl in Hu.
  pose proof (put_paths_read_back _ _ _ (conflict_free_apart flat Hnd Hcf) Hu)
    as Hall.
  rewrite Forall_forall in Hall.
  apply (Hall (split sep k, v)). unfold paths_of.
  apply list_elem_of_In, in_map_iff. exists (k, v).
  split; [done|]. by apply list_elem_of_In.
Qed.

(** X7: what [unflatten_dict] builds from a conflict-free flat mapping can be
    read back: following the segments of a key from the root of the result
    leads to the value the flat mapping binds to that key. *)
Theorem unflatten_read_back (flat : dict) :
  NoDup (dict_keys flat) → conflict_free flat →
  ∃ r, unflatten_dict flat = Ok r ∧
       ∀ k v, dict_get flat k = Some v →
              get_path (VDict r) (split sep k) = Some v.
Proof. apply conflict_free_read_back. Qed.

Lemma unflatten_read_back_witness :
  NoDup (dict_keys flat_example) ∧ conflict_free flat_example ∧
  ∃ r, unflatten_dict flat_example = Ok r ∧
       ∀ k v, dict_get flat_example k = Some v →
              get_path (VDict r) (split sep k) = Some v.
Proof.
  assert (NoDup (dict_keys flat_example)) as H2
    by (apply (bool_decide_eq_true_1 (NoDup _)); reflexivity).
  assert (conflict_free flat_example) as H3
    by (apply (bool_decide_eq_true_1 (conflict_free _)); vm_compute; reflexivity).
  split_and!; [exact H2|exact H3|].
  apply (unflatten_read_back flat_example H2 H3).
Defined.

(** ** Conflicts *)

(** Below a value that is not a mapping nothing can be put. *)
Lemma put_below_scalar P : ∀ Q node node' x y,
  put node P x = Ok node' → is_dict x = false → Q ≠ [] →
  put node' (P ++ Q) y = Raise TypeError.
Proof.
  induction P as [|a P IH]; intros Q node node' x y Hput Hx HQ.
  - injection Hput as <-. destruct Q as [|b Q]; [done|]. by destruct x.
  - destruct node as [| | | | |e]; try done. rewrite put_cons in Hput.
    destruct (put (default (VDict []) (dict_get e a)) P x) as [c'|] eqn:E;
      [|done].
    injection Hput as <-. simpl. rewrite dict_get_set_eq. simpl.
    by rewrite (IH Q _ _ _ y E Hx HQ).
Qed.

Lemma get_path_app P : ∀ Q node y,
  get_path node (P ++ Q) = Some y → ∃ z, get_path node P = Some z.
Proof.
  induction P as [|a P IH]; intros Q node y; simpl; [by eexists|].
  destruct node as [| | | | |e]; try done.
  destruct (dict_get e a); [apply IH|done].
Qed.

Lemma proper_prefix_app P Q' :
  proper_prefix P Q' → ∃ Q, Q' = P ++ Q ∧ Q ≠ [].
Proof.
  intros [[Q ->] Hne]. exists Q. split; [done|]. intros ->.
  by rewrite app_nil_r in Hne.
Qed.

Lemma unflatten_loop_app (l1 l2 : dict) : ∀ acc,
  unflatten_loop (l1 ++ l2) acc = r ← unflatten_loop l1 acc; unflatten_loop l2 r.
Proof.
  induction l1 as [|[k v] l1 IH]; intros acc; simpl; [done|].
  destruct (set_path acc (split sep k) v); simpl; [apply IH|done].
Qed.

Lemma set_path_ok_put d P x d' :
  set_path d P x = Ok d' → put (VDict d) P x = Ok (VDict d').
Proof.
  intros H. destruct P as [|a P]; [done|].
  rewrite set_path_put by done. by rewrite H.
Qed.

(** X8: a key bound to a value that is not a mapping, directly followed by a
    key whose segment path extends its own, makes [unflatten_dict] raise
    [TypeError], whatever comes before (as long as the part up to the
    first key unflattens) and after; with the two keys alone in the other
    order it returns, and the shorter key then holds its own value. *)
Theorem unflatten_scalar_then_extension
    (pre rest : dict) (k1 k2 : string) (v1 v2 : value) :
  proper_prefix (split sep k1) (split sep k2) → is_dict v1 = false →
  (∃ r, unflatten_dict (pre ++ [(k1, v1)]) = Ok r) →
  unflatten_dict (pre ++ (k1, v1) :: (k2, v2) :: rest) = Raise TypeError ∧
  ∃ r, unflatten_dict [(k2, v2); (k1, v1)] = Ok r ∧
       get_path (VDict r) (split sep k1) = Some v1.
Proof.
  intros (Q & HQ & Hne)%proper_prefix_app Hv1 [r Hr]. split.
  - unfold unflatten_dict in *.
    replace (pre ++ (k1, v1) :: (k2, v2) :: rest)
      with ((pre ++ [(k1, v1)]) ++ (k2, v2) :: rest)
      by by rewrite <- app_assoc.
    rewrite unflatten_loop_app, Hr. simpl.
    rewrite unflatten_loop_app in Hr.
    destruct (unflatten_loop pre []) as [r0|] eqn:E0; [|done].
    simpl in Hr. destruct (set_path r0 (split sep k1) v1) as [r1|] eqn:E1;
      [|done].
    injection Hr as ->. apply set_path_ok_put in E1.
    pose proof (put_below_scalar _ Q _ _ _ v2 E1 Hv1 Hne) as Hput.
    rewrite <- HQ, set_path_put in Hput by apply split_not_nil.
    destruct (set_path r (split sep k2) v2); simpl in *; congruence.
  - pose proof (unflatten_loop_put_all [(k2, v2); (k1, v1)] []) as Hu.
    simpl in Hu.
    destruct (put_absent_ok (split sep k2) (VDict []) v2) as [n2 Hn2].
    { apply absent_empty, split_not_nil. }
    rewrite Hn2 in Hu. simpl in Hu.
    pose proof (get_path_put _ _ _ _ Hn2) as Hg. rewrite HQ in Hg.
    apply get_path_app in Hg as [z Hz].
    destruct (put_present_ok (split sep k1) n2 v1 z Hz) as [n1 Hn1].
    rewrite Hn1 in Hu. simpl in Hu. unfold unflatten_dict. simpl.
    destruct (set_path [] (split sep k2) v2) as [d2|]; simpl in *; [|done].
    destruct (set_path d2 (split sep k1) v1) as [d1|]; simpl in *; [|done].
    exists d1. split; [done|]. injection Hu as <-. by eapply get_path_put.
Qed.

Lemma unflatten_scalar_then_extension_witness :
  proper_prefix (split sep "db") (split sep "db.host") ∧
  is_dict (VStr "sqlite") = false ∧
  (∃ r, unflatten_dict ([("app", VInt 1)] ++ [("db", VStr "sqlite")]) = Ok r) ∧
  unflatten_dict ([("app", VInt 1)] ++ ("db", VStr "sqlite") ::
                  ("db.host", VStr "localhost") :: []) = Raise TypeError.
Proof.
  assert (proper_prefix (split sep "db") (split sep "db.host")) as H1
    by (apply (bool_decide_eq_true_1 (proper_prefix _ _)); reflexivity).
  assert (∃ r, unflatten_dict ([("app", VInt 1)] ++ [("db", VStr "sqlite")])
               = Ok r) as H3 by (eexists; reflexivity).
  split_and!; [exact H1|reflexivity|exact H3|].
  apply (unflatten_scalar_then_extension [("app", VInt 1)] [] "db" "db.host"
           (VStr "sqlite") (VStr "localhost") H1 (eq_refl _) H3).
Defined.

(** ** The only exception *)

Lemma put_raises_TypeError P : ∀ node x (e : exn),
  put node P x = Raise e → e = TypeError.
Proof.
  induction P as [|a P IH]; intros node x e; simpl; [done|].
  destruct node as [| | | | |d]; try by intros [= <-].
  destruct (put _ P x) as [c|e'] eqn:E; simpl; [done|].
  intros [= <-]. by eapply IH.
Qed.

Lemma unflatten_loop_raises_TypeError (flat : dict) : ∀ acc (e : exn),
  unflatten_loop flat acc = Raise e → e = TypeError.
Proof.
  induction flat as [|[k v] flat IH]; intros acc e; simpl; [done|].
  destruct (set_path acc (split sep k) v) as [r|e'] eqn:E; simpl.
  - apply IH.
  - intros [= <-].
    pose proof (set_path_put (split sep k) acc v (split_not_nil _ _)) as H.
    rewrite E in H. simpl in H. by eapply put_raises_TypeError.
Qed.

(** ** [make_hashable] and the order of keys *)

Lemma ascii_compare_Lt_trans (a b c : ascii) :
  Ascii.compare a b = Lt → Ascii.compare b c = Lt → Ascii.compare a c = Lt.
Proof.
  unfold Ascii.compare. rewrite !N.compare_lt_iff. apply N.lt_trans.
Qed.

Lemma string_leb_trans (s1 : string) : ∀ s2 s3 : string,
  String.leb s1 s2 = true → String.leb s2 s3 = true → String.leb s1 s3 = true.
Proof.
  unfold String.leb.
  induction s1 as [|c1 s1 IH]; intros [|c2 s2] [|c3 s3]; simpl; try done.
  destruct (Ascii.compare c1 c2) eqn:E12; try done;
    destruct (Ascii.compare c2 c3) eqn:E23; try done.
  - apply Ascii.compare_eq_iff in E12 as ->. rewrite E23. apply IH.
  - apply Ascii.compare_eq_iff in E12 as ->. by rewrite E23.
  - apply Ascii.compare_eq_iff in E23 as <-. by rewrite E12.
  - by rewrite (ascii_compare_Lt_trans _ _ _ E12 E23).
Qed.

Lemma string_leb_false (s1 s2 : string) :
  String.leb s1 s2 = false → String.leb s2 s1 = true.
Proof. destruct (String.leb_total s1 s2); congruence. Qed.

(** Inserting two items with different keys, in either order. *)
Lemma insert_sorted_comm (x y : string * hashable)
    (l : list (string * hashable)) :
  x.1 ≠ y.1 →
  insert_sorted x (insert_sorted y l) = insert_sorted y (insert_sorted x l).
Proof.
  intros Hne.
  assert (String.leb x.1 y.1 = true → String.leb y.1 x.1 = false) as Hxy.
  { intros H. apply not_true_is_false. intros H'.
    by apply Hne, String.leb_antisym. }
  induction l as [|z l IH]; simpl.
  - destruct (String.leb x.1 y.1) eqn:E.
    + by rewrite (Hxy eq_refl).
    + by rewrite (string_leb_false _ _ E).
  - destruct (String.leb y.1 z.1) eqn:Eyz, (String.leb x.1 z.1) eqn:Exz; simpl.
    + destruct (String.leb x.1 y.1) eqn:E.
      * rewrite (Hxy eq_refl). simpl. by rewrite Eyz.
      * rewrite (string_leb_false _ _ E). simpl. by rewrite Exz.
    + rewrite Eyz. simpl.
      assert (String.leb x.1 y.1 = false) as ->.
      { apply not_true_is_false. intros H.
        by rewrite (string_leb_trans _ _ _ H Eyz) in Exz. }
      simpl. by rewrite Exz.
    + rewrite Exz. simpl.
      assert (String.leb y.1 x.1 = false) as ->.
      { apply not_true_is_false. intros H.
        by rewrite (string_leb_trans _ _ _ H Exz) in Eyz. }
      simpl. by rewrite Eyz.
    + by rewrite Exz, Eyz, IH.
Qed.

Lemma make_hashable_dict d :
  make_hashable (VDict d) = HTuple (map pair_tuple (hashable_items d)).
Proof. done. Qed.

(** [veq] keeps well-formedness and the hashable form. *)
Lemma veq_make_hashable v v' :
  veq v v' → wf_value v → wf_value v' ∧ make_hashable v = make_hashable v'.
Proof.
  revert v v'.
  apply (veq_mut
    (λ v v', wf_value v → wf_value v' ∧ make_hashable v = make_hashable v')
    (λ d d', wf_dict d → wf_dict d' ∧ hashable_items d = hashable_items d')).
  - done.
  - intros d d' _ IH Hwf. destruct (IH Hwf) as [Hwf' Heq].
    split; [done|]. by rewrite !make_hashable_dict, Heq.
  - done.
  - intros k v v' d d' _ IHv Hd IHd [Hnd Hwf]%wf_value_dict.
    apply NoDup_cons in Hnd as [Hk Hnd]. apply Forall_cons in Hwf as [Hv Hwf].
    destruct (IHv Hv) as [Hv' Heqv].
    destruct (IHd (proj2 (wf_value_dict d) (conj Hnd Hwf))) as [Hwf' Heqd].
    apply wf_value_dict in Hwf' as [Hnd' Hwf']. split.
    + apply wf_value_dict. split; [|by constructor].
      apply NoDup_cons. split; [|done].
      change (k ∉ dict_keys d'). by rewrite <- (deq_keys d d' Hd).
    + unfold hashable_items in *. simpl. by rewrite Heqv, Heqd.
  - intros [k1 v1] [k2 v2] d [Hnd Hwf]%wf_value_dict.
    apply NoDup_cons in Hnd as [Hk1 [Hk2 Hnd]%NoDup_cons].
    apply Forall_cons in Hwf as [Hv1 [Hv2 Hwf]%Forall_cons].
    apply not_elem_of_cons in Hk1 as [Hne Hk1]. split.
    + apply wf_value_dict. split; [|by repeat constructor].
      apply NoDup_cons. split; [|by apply NoDup_cons].
      apply not_elem_of_cons. by split.
    + unfold hashable_items. simpl. by apply insert_sorted_comm.
  - intros d1 d2 d3 _ IH1 _ IH2 Hwf.
    destruct (IH1 Hwf) as [Hwf2 Heq1]. destruct (IH2 Hwf2) as [Hwf3 Heq2].
    split; [done|congruence].
Qed.

(** X9: [make_hashable] does not depend on the order in which a mapping, or
    any mapping nested in it through mappings, lists its entries: two
    documents that differ only in that order have the same hashable form,
    so key-value comparison never tells them apart. *)
Theorem make_hashable_order_insensitive (v v' : value) :
  veq v v' → wf_value v → make_hashable v = make_hashable v'.
Proof. intros Hveq Hwf. by apply veq_make_hashable. Qed.

Lemma make_hashable_order_insensitive_witness :
  veq settings_ab settings_ba ∧ wf_value settings_ab ∧
  make_hashable settings_ab = make_hashable settings_ba.
Proof.
  assert (veq settings_ab settings_ba) as H by (apply veq_dict, deq_swap).
  split_and!; [exact H|reflexivity|].
  apply (make_hashable_order_insensitive settings_ab settings_ba H).
  reflexivity.
Defined.

(** ** The set operations, key by key *)

Section string_sets.
Implicit Types (s : list string) (k : string).

Lemma str_set_mem k s : set_mem String.eqb k s = true ↔ k ∈ s.
Proof.
  rewrite set_mem_true. split.
  - by intros (y & Hy & ->%String.eqb_eq).
  - intros H. exists k. split; [done|apply String.eqb_refl].
Qed.

Lemma str_set_mem_false k s : set_mem String.eqb k s = false ↔ k ∉ s.
Proof. rewrite <- str_set_mem. by destruct (set_mem String.eqb k s). Qed.

Lemma elem_of_str_union k s1 s2 :
  k ∈ set_union String.eqb s1 s2 ↔ k ∈ s1 ∨ k ∈ s2.
Proof.
  unfold set_union. rewrite elem_of_app, list_elem_of_filter. split.
  - tauto.
  - intros [H|H]; [by left|]. destruct (decide (k ∈ s1)); [by left|right].
    split; [|done]. apply Is_true_true, negb_true_iff.
    by apply str_set_mem_false.
Qed.

Lemma elem_of_str_inter k s1 s2 :
  k ∈ set_inter String.eqb s1 s2 ↔ k ∈ s1 ∧ k ∈ s2.
Proof.
  unfold set_inter. rewrite list_elem_of_filter, Is_true_true, str_set_mem.
  tauto.
Qed.

Lemma elem_of_str_diff k s1 s2 :
  k ∈ set_diff String.eqb s1 s2 ↔ k ∈ s1 ∧ k ∉ s2.
Proof.
  unfold set_diff. rewrite list_elem_of_filter, Is_true_true, negb_true_iff.
  rewrite str_set_mem_false. tauto.
Qed.

Lemma elem_of_str_symdiff k s1 s2 :
  k ∈ set_symdiff String.eqb s1 s2 ↔ (k ∈ s1 ∧ k ∉ s2) ∨ (k ∈ s2 ∧ k ∉ s1).
Proof. unfold set_symdiff. by rewrite elem_of_app, !elem_of_str_diff. Qed.
End string_sets.

Lemma dict_mem_false flat k : dict_mem flat k = false ↔ k ∉ dict_keys flat.
Proof. rewrite <- dict_mem_true. by destruct (dict_mem flat k). Qed.

Lemma keeps_bound operation in1 in2 :
  keeps operation in1 in2 = true → in1 || in2 = true.
Proof. unfold keeps. repeat case_match; destruct in1, in2; done. Qed.

(** The keys [keys] mode selects. *)
Lemma keys_mode_selects flat1 flat2 operation k :
  k ∈ (let keys1 := set_of String.eqb (dict_keys flat1) in
       let keys2 := set_of String.eqb (dict_keys flat2) in
       if String.eqb operation "union" then set_union String.eqb keys1 keys2
       else if String.eqb operation "intersect" then set_inter String.eqb keys1 keys2
       else if String.eqb operation "diff" then set_diff String.eqb keys1 keys2
       else if String.eqb operation "rdiff" then set_diff String.eqb keys2 keys1
       else if String.eqb operation "symdiff" then set_symdiff String.eqb keys1 keys2
       else []) ↔
  keeps operation (dict_mem flat1 k) (dict_mem flat2 k) = true.
Proof.
  unfold keeps. simpl.
  assert (∀ flat, k ∈ set_of String.eqb (dict_keys flat) ↔ dict_mem flat k = true)
    as Hin by (intros flat; by rewrite keys_set_of, dict_mem_true).
  assert (∀ flat, k ∉ set_of String.eqb (dict_keys flat) ↔ dict_mem flat k = false)
    as Hnin.
  { intros flat. rewrite Hin. by destruct (dict_mem flat k). }
  repeat case_match;
    rewrite ?elem_of_str_union, ?elem_of_str_inter, ?elem_of_str_diff,
            ?elem_of_str_symdiff, ?Hin, ?Hnin;
    try (destruct (dict_mem flat1 k), (dict_mem flat2 k); simpl;
         intuition congruence).
  split; [by intros ?%elem_of_nil|done].
Qed.

Lemma keys_mode_lookup o flat1 flat2 operation :
  ∃ r, set_operation_result o flat1 flat2 operation "keys" = Ok r ∧
       NoDup (dict_keys r) ∧
       ∀ k, dict_get r k =
            if keeps operation (dict_mem flat1 k) (dict_mem flat2 k)
            then resolve flat1 flat2 k else None.
Proof.
  unfold set_operation_result. simpl.
  match goal with |- ∃ r, prefer_file1 _ _ (key_order o ?ks) [] = _ ∧ _ =>
    set (result_keys := ks) end.
  assert (∀ k, k ∈ key_order o result_keys ↔
               keeps operation (dict_mem flat1 k) (dict_mem flat2 k) = true)
    as Hsel.
  { intros k. rewrite elem_of_key_order. apply keys_mode_selects. }
  destruct (prefer_file1_spec flat1 flat2 (key_order o result_keys) [])
    as (r & Hr & Hnd & Hget).
  { intros k Hk%Hsel%keeps_bound. rewrite <- !dict_mem_true.
    by apply orb_true_iff. }
  exists r. split_and!; [done|apply Hnd; constructor|].
  intros k. rewrite Hget. case_decide as Hin.
  - apply Hsel in Hin. by rewrite Hin.
  - rewrite Hsel in Hin. by apply not_true_is_false in Hin as ->.
Qed.

(** ** Key-value mode *)

Lemma agreeb_sym flat1 flat2 k : agreeb flat1 flat2 k = agreeb flat2 flat1 k.
Proof.
  unfold agreeb. destruct (dict_get flat1 k), (dict_get flat2 k); try done.
  apply hashable_eqb_sym.
Qed.

Lemma agreeb_bound flat1 flat2 k :
  agreeb flat1 flat2 k = true →
  dict_mem flat1 k = true ∧ dict_mem flat2 k = true.
Proof.
  unfold agreeb, dict_mem.
  by destruct (dict_get flat1 k), (dict_get flat2 k).
Qed.

(** Whether the item of an entry of [flat1] is in the item set of [flat2]. *)
Lemma item_mem_agreeb flat1 flat2 k v1 :
  NoDup (dict_keys flat2) →
  dict_get flat1 k = Some v1 →
  set_mem item_eqb (k, make_hashable v1) (items_of flat2) = agreeb flat1 flat2 k.
Proof.
  intros Hnd Hget. unfold agreeb. rewrite Hget.
  apply Bool.eq_iff_eq_true. rewrite set_mem_true. split.
  - intros ([k2 h2] & Hin & Heq). unfold item_eqb in Heq. simpl in Heq.
    apply andb_true_iff in Heq as [->%String.eqb_eq Heq].
    apply elem_of_items_of in Hin as (v2 & -> & ->); done.
  - destruct (dict_get flat2 k) as [v2|] eqn:E2; [|done]. intros Heq.
    exists (k, make_hashable v2). split.
    + apply elem_of_items_of; [done|]. by exists v2.
    + unfold item_eqb. simpl. by rewrite String.eqb_refl.
Qed.

Lemma inter_items_agreeb flat1 flat2 k :
  NoDup (dict_keys flat1) → NoDup (dict_keys flat2) →
  k ∈ (set_inter item_eqb (items_of flat1) (items_of flat2)).*1 ↔
  agreeb flat1 flat2 k = true.
Proof.
  intros H1 H2. unfold set_inter. split.
  - intros ([k' h] & -> & [Hmem Hin]%list_elem_of_filter)%list_elem_of_fmap.
    simpl. apply elem_of_items_of in Hin as (v1 & Hv1 & ->); [|done].
    apply Is_true_true in Hmem. by rewrite (item_mem_agreeb flat1) in Hmem.
  - intros Hag. pose proof Hag as [Hm _]%agreeb_bound.
    unfold dict_mem in Hm. destruct (dict_get flat1 k) as [v1|] eqn:E1; [|done].
    apply list_elem_of_fmap. exists (k, make_hashable v1). split; [done|].
    apply list_elem_of_filter. split.
    + apply Is_true_true. by rewrite (item_mem_agreeb flat1).
    + apply elem_of_items_of; [done|]. by exists v1.
Qed.

Lemma diff_items_agreeb flat1 flat2 k :
  NoDup (dict_keys flat1) → NoDup (dict_keys flat2) →
  k ∈ (set_diff item_eqb (items_of flat1) (items_of flat2)).*1 ↔
  dict_mem flat1 k = true ∧ agreeb flat1 flat2 k = false.
Proof.
  intros H1 H2. unfold set_diff. split.
  - intros ([k' h] & -> & [Hmem Hin]%list_elem_of_filter)%list_elem_of_fmap.
    simpl. apply elem_of_items_of in Hin as (v1 & Hv1 & ->); [|done].
    apply Is_true_true, negb_true_iff in Hmem.
    rewrite (item_mem_agreeb flat1) in Hmem by done.
    split; [|done]. unfold dict_mem. by rewrite Hv1.
  - intros [Hm Hag].
    unfold dict_mem in Hm. destruct (dict_get flat1 k) as [v1|] eqn:E1; [|done].
    apply list_elem_of_fmap. exists (k, make_hashable v1). split; [done|].
    apply list_elem_of_filter. split.
    + apply Is_true_true, negb_true_iff. by rewrite (item_mem_agreeb flat1).
    + apply elem_of_items_of; [done|]. by exists v1.
Qed.

Lemma keeps_kv_bound operation flat1 flat2 k :
  keeps_kv operation (dict_mem flat1 k) (dict_mem flat2 k)
    (agreeb flat1 flat2 k) = true →
  dict_mem flat1 k || dict_mem flat2 k = true.
Proof.
  unfold keeps_kv. destruct (agreeb flat1 flat2 k) eqn:E.
  - apply agreeb_bound in E as [-> ->]. done.
  - repeat case_match; destruct (dict_mem flat1 k), (dict_mem flat2 k); done.
Qed.

Lemma kv_mode_lookup o flat1 flat2 operation compare_mode :
  NoDup (dict_keys flat1) → NoDup (dict_keys flat2) →
  String.eqb compare_mode "keys" = false →
  ∃ r, set_operation_result o flat1 flat2 operation compare_mode = Ok r ∧
       NoDup (dict_keys r) ∧
       ∀ k, dict_get r k =
            if keeps_kv operation (dict_mem flat1 k) (dict_mem flat2 k)
                 (agreeb flat1 flat2 k)
            then kv_value operation flat1 flat2 k else None.
Proof.
  intros H1 H2 Hmode. unfold set_operation_result. rewrite Hmode.
  unfold keeps_kv, kv_value.
  assert (∀ keys (sel : string → bool),
    (∀ k, k ∈ keys ↔ sel k = true) →
    (∀ k, sel k = true → dict_mem flat1 k || dict_mem flat2 k = true) →
    ∃ r, prefer_file1 flat1 flat2 keys [] = Ok r ∧ NoDup (dict_keys r) ∧
         ∀ k, dict_get r k = if sel k then resolve flat1 flat2 k else None)
    as Hpref.
  { intros keys sel Hsel Hb.
    destruct (prefer_file1_spec flat1 flat2 keys []) as (r & Hr & Hnd & Hget).
    { intros k Hk%Hsel%Hb. rewrite <- !dict_mem_true. by apply orb_true_iff. }
    exists r. split_and!; [done|apply Hnd; constructor|].
    intros k. rewrite Hget. case_decide as Hin.
    - apply Hsel in Hin. by rewrite Hin.
    - rewrite Hsel in Hin. by apply not_true_is_false in Hin as ->. }
  assert (∀ flat keys (sel : string → bool),
    (∀ k, k ∈ keys ↔ sel k = true) →
    (∀ k, sel k = true → dict_mem flat k = true) →
    ∃ r, from_file flat keys [] = Ok r ∧ NoDup (dict_keys r) ∧
         ∀ k, dict_get r k = if sel k then dict_get flat k else None)
    as Hfrom.
  { intros flat keys sel Hsel Hb.
    destruct (from_file_spec flat keys []) as (r & Hr & Hnd & Hget).
    { intros k Hk%Hsel%Hb. by apply dict_mem_true. }
    exists r. split_and!; [done|apply Hnd; constructor|].
    intros k. rewrite Hget. case_decide as Hin.
    - apply Hsel in Hin. by rewrite Hin.
    - rewrite Hsel in Hin. by apply not_true_is_false in Hin as ->. }
  assert (∀ (l : list (string * hashable)) k,
            k ∈ map fst (item_order o l) ↔ k ∈ l.*1) as Hord.
  { intros l k. by rewrite (fmap_Permutation _ _ _ (item_order_perm o _)). }
  destruct (String.eqb operation "union") eqn:E1;
    [|destruct (String.eqb operation "intersect") eqn:E2;
      [|destruct (String.eqb operation "diff") eqn:E3;
        [|destruct (String.eqb operation "rdiff") eqn:E4;
          [|destruct (String.eqb operation "symdiff") eqn:E5]]]].
  - apply String.eqb_eq in E1 as ->. simpl.
    apply (Hpref _ (λ k, dict_mem flat1 k || dict_mem flat2 k)); [|done].
    intros k. rewrite Hord, (set_union_image item_eqb fst item_eqb_key).
    rewrite !keys_items_of, orb_true_iff, <- !dict_mem_true. done.
  - apply String.eqb_eq in E2 as ->. simpl.
    destruct (Hfrom flat1 (map fst (item_order o (set_inter item_eqb
                (items_of flat1) (items_of flat2))))
                (λ k, agreeb flat1 flat2 k)) as (r & Hr & Hnd & Hget).
    + intros k. by rewrite Hord, inter_items_agreeb.
    + intros k Hk. by apply agreeb_bound in Hk as [? _].
    + exists r. split_and!; [done..|]. intros k. rewrite Hget.
      destruct (agreeb flat1 flat2 k) eqn:E; [|done].
      apply agreeb_bound in E as [Hm _]. unfold resolve, dict_mem in *.
      by destruct (dict_get flat1 k).
  - apply String.eqb_eq in E3 as ->. simpl.
    destruct (Hfrom flat1 (map fst (item_order o (set_diff item_eqb
                (items_of flat1) (items_of flat2))))
                (λ k, dict_mem flat1 k && negb (agreeb flat1 flat2 k)))
      as (r & Hr & Hnd & Hget).
    + intros k. rewrite Hord, diff_items_agreeb by done.
      by rewrite andb_true_iff, negb_true_iff.
    + by intros k [? _]%andb_true_iff.
    + exists r. split_and!; [done..|]. intros k. rewrite Hget.
      destruct (dict_mem flat1 k) eqn:Hm; [|done]. simpl.
      destruct (negb _); [|done]. unfold resolve, dict_mem in *.
      by destruct (dict_get flat1 k).
  - apply String.eqb_eq in E4 as ->. simpl.
    destruct (Hfrom flat2 (map fst (item_order o (set_diff item_eqb
                (items_of flat2) (items_of flat1))))
                (λ k, dict_mem flat2 k && negb (agreeb flat1 flat2 k)))
      as (r & Hr & Hnd & Hget).
    + intros k. rewrite Hord, diff_items_agreeb by done.
      by rewrite andb_true_iff, negb_true_iff, (agreeb_sym flat2).
    + by intros k [? _]%andb_true_iff.
    + exists r. split_and!; done.
  - apply String.eqb_eq in E5 as ->. simpl.
    apply (Hpref _ (λ k, (dict_mem flat1 k || dict_mem flat2 k)
                         && negb (agreeb flat1 flat2 k))).
    + intros k. unfold set_symdiff. rewrite Hord, fmap_app, elem_of_app.
      rewrite !diff_items_agreeb by done. rewrite (agreeb_sym flat2).
      destruct (dict_mem flat1 k), (dict_mem flat2 k), (agreeb flat1 flat2 k);
        simpl; intuition congruence.
    + by intros k [? _]%andb_true_iff.
  - exists []. split_and!; [done|constructor|done].
Qed.

(** ** What the five operations return *)

(** What [perform_set_operation] does with the result mapping [r]. *)
Lemma perform_set_operation_result o (A B : dict) operation compare_mode depth r :
  set_operation_result o (flatten_dict A depth "") (flatten_dict B depth "")
    operation compare_mode = Ok r →
  perform_set_operation o A B operation compare_mode depth =
  if 1 <? depth then unflatten_dict r else Ok r.
Proof. intros Hr. unfold perform_set_operation. by rewrite Hr. Qed.

(** X10: In [keys] mode the result mapping of every operation, for every
    iteration order of the key sets and every depth, binds no key twice and
    binds a key exactly when the operation keeps it ([keeps]: union in
    either, intersect in both, diff in the first only, rdiff in the second
    only, symdiff in exactly one, anything else nothing), to the value of
    the first flattened document when it has the key and else to that of the
    second.  Up to depth 1 it is what [perform_set_operation] returns;
    beyond, what is handed to [unflatten_dict]. *)
Theorem keys_mode_key_by_key o (A B : dict) operation depth :
  ∃ r,
    set_operation_result o (flatten_dict A depth "") (flatten_dict B depth "")
      operation "keys" = Ok r ∧
    NoDup (dict_keys r) ∧
    (∀ k, dict_get r k =
          if keeps operation (dict_mem (flatten_dict A depth "") k)
               (dict_mem (flatten_dict B depth "") k)
          then resolve (flatten_dict A depth "") (flatten_dict B depth "") k
          else None) ∧
    perform_set_operation o A B operation "keys" depth =
      if 1 <? depth then unflatten_dict r else Ok r.
Proof.
  destruct (keys_mode_lookup o (flatten_dict A depth "")
              (flatten_dict B depth "") operation) as (r & Hr & Hnd & Hget).
  exists r. split_and!; [done..|]. by apply perform_set_operation_result.
Qed.

(** X11: In [kv] mode (any compare mode other than [keys]) the result
    mapping of every operation binds no key twice and binds a key exactly
    when [keeps_kv] says so: union keeps the keys of either document,
    intersect the keys on which the two flattened documents agree (values
    with equal hashable forms), diff the keys of the first on which they do
    not agree, rdiff those of the second, symdiff those of either.  rdiff
    gives the value of the second document, the other operations that of
    the first when it has the key. *)
Theorem kv_mode_key_by_key o (A B : dict) operation compare_mode depth :
  wf_dict A → wf_dict B → compare_mode ≠ "keys" →
  ∃ r,
    set_operation_result o (flatten_dict A depth "") (flatten_dict B depth "")
      operation compare_mode = Ok r ∧
    NoDup (dict_keys r) ∧
    (∀ k, dict_get r k =
          if keeps_kv operation (dict_mem (flatten_dict A depth "") k)
               (dict_mem (flatten_dict B depth "") k)
               (agreeb (flatten_dict A depth "") (flatten_dict B depth "") k)
          then kv_value operation (flatten_dict A depth "")
                 (flatten_dict B depth "") k
          else None) ∧
    perform_set_operation o A B operation compare_mode depth =
      if 1 <? depth then unflatten_dict r else Ok r.
Proof.
  intros HA HB Hmode.
  destruct (kv_mode_lookup o (flatten_dict A depth "")
              (flatten_dict B depth "") operation compare_mode)
    as (r & Hr & Hnd & Hget).
  - by apply (flatten_value_NoDup depth "" (VDict A)).
  - by apply (flatten_value_NoDup depth "" (VDict B)).
  - by apply String.eqb_neq.
  - exists r. split_and!; [done..|]. by apply perform_set_operation_result.
Qed.

Lemma kv_mode_key_by_key_witness :
  ∃ r,
    set_operation_result reverse_order (flatten_dict file1 1 "")
      (flatten_dict file2 1 "") "symdiff" "kv" = Ok r ∧
    NoDup (dict_keys r) ∧
    (∀ k, dict_get r k =
          if keeps_kv "symdiff" (dict_mem (flatten_dict file1 1 "") k)
               (dict_mem (flatten_dict file2 1 "") k)
               (agreeb (flatten_dict file1 1 "") (flatten_dict file2 1 "") k)
          then kv_value "symdiff" (flatten_dict file1 1 "")
                 (flatten_dict file2 1 "") k
          else None) ∧
    perform_set_operation reverse_order file1 file2 "symdiff" "kv" 1 =
      if 1 <? 1 then unflatten_dict r else Ok r.
Proof.
  apply (kv_mode_key_by_key reverse_order file1 file2 "symdiff" "kv" 1).
  - vm_compute. reflexivity.
  - vm_compute. reflexivity.
  - discriminate.
Defined.

(** ** A document against itself *)

Lemma hashable_eqb_refl a : hashable_eqb a a = true.
Proof.
  induction a as [|x|n|s|xs IH] using hashable_ind'; simpl; try done.
  - by destruct x.
  - apply Z.eqb_refl.
  - apply String.eqb_refl.
  - induction IH as [|x xs Hx _ IHxs]; [done|]. by rewrite Hx, IHxs.
Qed.

Lemma agreeb_refl flat k : agreeb flat flat k = dict_mem flat k.
Proof.
  unfold agreeb, dict_mem. destruct (dict_get flat k); [|done].
  apply hashable_eqb_refl.
Qed.

Lemma dict_get_all_None {V} (d : list (string * V)) :
  (∀ k, dict_get d k = None) → d = [].
Proof.
  destruct d as [|[k v] d]; [done|]. intros H. specialize (H k).
  simpl in H. by rewrite String.eqb_refl in H.
Qed.

(** X12: A document diffed against itself is empty: for the operations
    [diff], [rdiff] and [symdiff], every compare mode, every depth and every
    iteration order, [perform_set_operation] on [A] and [A] returns the
    empty mapping and raises nothing. *)
Theorem self_difference_is_empty o (A : dict) operation compare_mode depth :
  wf_dict A →
  operation = "diff" ∨ operation = "rdiff" ∨ operation = "symdiff" →
  perform_set_operation o A A operation compare_mode depth = Ok [].
Proof.
  intros HA Hop.
  assert (∃ r, set_operation_result o (flatten_dict A depth "")
                 (flatten_dict A depth "") operation compare_mode = Ok r ∧
               ∀ k, dict_get r k = None) as (r & Hr & Hget).
  { destruct (String.eqb compare_mode "keys") eqn:Emode.
    - apply String.eqb_eq in Emode as ->.
      destruct (keys_mode_lookup o (flatten_dict A depth "")
                  (flatten_dict A depth "") operation) as (r & Hr & _ & Hget).
      exists r. split; [done|]. intros k. rewrite Hget.
      destruct Hop as [->|[->| ->]]; unfold keeps; simpl;
        by destruct (dict_mem _ k).
    - destruct (kv_mode_lookup o (flatten_dict A depth "")
                  (flatten_dict A depth "") operation compare_mode)
        as (r & Hr & _ & Hget);
        [by apply (flatten_value_NoDup depth "" (VDict A))..|done|].
      exists r. split; [done|]. intros k. rewrite Hget, agreeb_refl.
      destruct Hop as [->|[->| ->]]; unfold keeps_kv; simpl;
        by destruct (dict_mem _ k). }
  apply dict_get_all_None in Hget as ->.
  rewrite (perform_set_operation_result _ _ _ _ _ _ _ Hr).
  by destruct (1 <? depth).
Qed.

Lemma self_difference_is_empty_witness :
  perform_set_operation reverse_order nested1 nested1 "symdiff" "kv" 2 = Ok [].
Proof.
  apply (self_difference_is_empty reverse_order nested1 "symdiff" "kv" 2).
  - vm_compute. reflexivity.
  - right. right. reflexivity.
Defined.

(** X13: [union] and [intersect] of a document with itself give back its
    flattened form, in both modes, at every depth and for every iteration
    order: the result mapping binds the keys of [flatten_dict A depth] to
    the same values, so it is equal to it (Python equality of mappings); at
    depth 1 that is [A] itself. *)
Theorem self_union_and_intersect o (A : dict) operation compare_mode depth :
  wf_dict A →
  operation = "union" ∨ operation = "intersect" →
  ∃ r,
    set_operation_result o (flatten_dict A depth "") (flatten_dict A depth "")
      operation compare_mode = Ok r ∧
    (∀ k, dict_get r k = dict_get (flatten_dict A depth "") k) ∧
    py_eq (VDict r) (VDict (flatten_dict A depth "")) = true ∧
    (depth ≤ 1 → perform_set_operation o A A operation compare_mode depth = Ok r) ∧
    (depth = 1 → py_eq (VDict r) (VDict A) = true).
Proof.
  intros HA Hop.
  pose proof (flatten_value_NoDup depth "" (VDict A) HA) as HndA.
  assert (∃ r, set_operation_result o (flatten_dict A depth "")
                 (flatten_dict A depth "") operation compare_mode = Ok r ∧
               NoDup (dict_keys r) ∧
               ∀ k, dict_get r k = dict_get (flatten_dict A depth "") k)
    as (r & Hr & Hnd & Hget).
  { destruct (String.eqb compare_mode "keys") eqn:Emode.
    - apply String.eqb_eq in Emode as ->.
      destruct (keys_mode_lookup o (flatten_dict A depth "")
                  (flatten_dict A depth "") operation) as (r & Hr & Hnd & Hget).
      exists r. split_and!; [done..|]. intros k. rewrite Hget.
      unfold resolve, dict_mem.
      destruct Hop as [->| ->]; unfold keeps; simpl;
        by destruct (dict_get _ k).
    - destruct (kv_mode_lookup o (flatten_dict A depth "")
                  (flatten_dict A depth "") operation compare_mode)
        as (r & Hr & Hnd & Hget); [done..|].
      exists r. split_and!; [done..|]. intros k. rewrite Hget, agreeb_refl.
      unfold kv_value, resolve, dict_mem.
      destruct Hop as [->| ->]; unfold keeps_kv; simpl;
        by destruct (dict_get _ k). }
  assert (py_eq (VDict r) (VDict (flatten_dict A depth "")) = true) as Heq.
  { apply py_eq_same_bindings; [|done..].
    apply (set_operation_result_wf o (flatten_dict A depth "")
             (flatten_dict A depth "") operation compare_mode);
      [by apply flatten_value_wf..|done]. }
  exists r. split_and!; [done..| |].
  - intros Hd. by rewrite perform_set_operation_flat.
  - intros ->. by rewrite flatten_dict_depth_1 in Heq.
Qed.

Lemma self_union_and_intersect_witness :
  ∃ r,
    set_operation_result reverse_order (flatten_dict nested1 0 "")
      (flatten_dict nested1 0 "") "intersect" "kv" = Ok r ∧
    (∀ k, dict_get r k = dict_get (flatten_dict nested1 0 "") k) ∧
    py_eq (VDict r) (VDict (flatten_dict nested1 0 "")) = true ∧
    (0 ≤ 1 → perform_set_operation reverse_order nested1 nested1
               "intersect" "kv" 0 = Ok r) ∧
    (0 = 1 → py_eq (VDict r) (VDict nested1) = true).
Proof.
  apply (self_union_and_intersect reverse_order nested1 "intersect" "kv" 0).
  - vm_compute. reflexivity.
  - right. reflexivity.
Defined.

(** ** rdiff is diff with the documents swapped *)

Lemma prefer_file1_swap flat1 flat2 keys : ∀ acc,
  (∀ k, k ∈ keys → dict_mem flat1 k = false ∧ dict_mem flat2 k = true) →
  prefer_file1 flat1 flat2 keys acc = prefer_file1 flat2 flat1 keys acc.
Proof.
  induction keys as [|key keys IH]; intros acc Hkeys; simpl; [done|].
  destruct (Hkeys key) as [-> ->]; [left|].
  destruct (subscript flat2 key); simpl; [|done].
  apply IH. intros k Hk. apply Hkeys. by right.
Qed.

(** X14: [rdiff] on [A] and [B] is [diff] on [B] and [A]: the two calls of
    [perform_set_operation] give the same outcome, entry for entry, in
    every compare mode and at every depth. *)
Theorem rdiff_is_swapped_diff o (A B : dict) compare_mode depth :
  perform_set_operation o A B "rdiff" compare_mode depth =
  perform_set_operation o B A "diff" compare_mode depth.
Proof.
  unfold perform_set_operation. f_equal.
  unfold set_operation_result.
  destruct (String.eqb compare_mode "keys"); simpl; [|done].
  apply prefer_file1_swap. intros k.
  rewrite elem_of_key_order, elem_of_str_diff, !keys_set_of.
  rewrite <- dict_mem_false, dict_mem_true. tauto.
Qed.

(** ** The first document splits into diff and intersect *)

(** X15: In both modes and at every depth, [diff] and [intersect] split the
    first flattened document: their result mappings share no key, and each
    entry of [flatten_dict A depth] is, with its value unchanged, in the
    one or in the other; neither holds anything else. *)
Theorem diff_and_intersect_partition o1 o2 (A B : dict) compare_mode depth :
  wf_dict A → wf_dict B →
  ∃ rd ri,
    set_operation_result o1 (flatten_dict A depth "") (flatten_dict B depth "")
      "diff" compare_mode = Ok rd ∧
    set_operation_result o2 (flatten_dict A depth "") (flatten_dict B depth "")
      "intersect" compare_mode = Ok ri ∧
    (∀ k, dict_get rd k = None ∨ dict_get ri k = None) ∧
    (∀ k, dict_get (flatten_dict A depth "") k =
          match dict_get rd k with
          | Some v => Some v
          | None => dict_get ri k
          end) ∧
    (depth ≤ 1 →
     perform_set_operation o1 A B "diff" compare_mode depth = Ok rd ∧
     perform_set_operation o2 A B "intersect" compare_mode depth = Ok ri).
Proof.
  intros HA HB.
  pose proof (flatten_value_NoDup depth "" (VDict A) HA) as HndA.
  pose proof (flatten_value_NoDup depth "" (VDict B) HB) as HndB.
  set (flat1 := flatten_dict A depth "") in *.
  set (flat2 := flatten_dict B depth "") in *.
  assert (∃ rd ri,
    set_operation_result o1 flat1 flat2 "diff" compare_mode = Ok rd ∧
    set_operation_result o2 flat1 flat2 "intersect" compare_mode = Ok ri ∧
    ∃ sel : string → bool,
      (∀ k, dict_get rd k = if dict_mem flat1 k && negb (sel k)
                            then dict_get flat1 k else None) ∧
      (∀ k, dict_get ri k = if dict_mem flat1 k && sel k
                            then dict_get flat1 k else None))
    as (rd & ri & Hrd & Hri & sel & Hgd & Hgi).
  { destruct (String.eqb compare_mode "keys") eqn:Emode.
    - apply String.eqb_eq in Emode as ->.
      destruct (keys_mode_lookup o1 flat1 flat2 "diff") as (rd & Hrd & _ & Hgd).
      destruct (keys_mode_lookup o2 flat1 flat2 "intersect")
        as (ri & Hri & _ & Hgi).
      exists rd, ri. split_and!; [done..|]. exists (dict_mem flat2).
      split; intros k; [rewrite Hgd|rewrite Hgi]; unfold keeps; simpl;
        unfold resolve, dict_mem; destruct (dict_get flat1 k); simpl; try done;
        by destruct (dict_get flat2 k).
    - destruct (kv_mode_lookup o1 flat1 flat2 "diff" compare_mode)
        as (rd & Hrd & _ & Hgd); [done..|].
      destruct (kv_mode_lookup o2 flat1 flat2 "intersect" compare_mode)
        as (ri & Hri & _ & Hgi); [done..|].
      exists rd, ri. split_and!; [done..|]. exists (agreeb flat1 flat2).
      split; intros k; [rewrite Hgd|rewrite Hgi]; unfold keeps_kv, kv_value;
        simpl.
      + unfold resolve, dict_mem. destruct (dict_get flat1 k); simpl; [|done].
        by destruct (agreeb flat1 flat2 k).
      + destruct (agreeb flat1 flat2 k) eqn:E.
        * apply agreeb_bound in E as [E _]. rewrite E. simpl.
          unfold resolve, dict_mem in *. by destruct (dict_get flat1 k).
        * by rewrite andb_false_r. }
  exists rd, ri. split_and!; [done..| | |].
  - intros k. rewrite Hgd, Hgi.
    destruct (dict_mem flat1 k), (sel k); simpl; auto.
  - intros k. rewrite Hgd, Hgi. unfold dict_mem.
    destruct (dict_get flat1 k), (sel k); simpl; done.
  - intros Hd. by rewrite !perform_set_operation_flat.
Qed.

Lemma diff_and_intersect_partition_witness :
  ∃ rd ri,
    set_operation_result insertion_order (flatten_dict file1 1 "")
      (flatten_dict file2 1 "") "diff" "kv" = Ok rd ∧
    set_operation_result reverse_order (flatten_dict file1 1 "")
      (flatten_dict file2 1 "") "intersect" "kv" = Ok ri ∧
    (∀ k, dict_get rd k = None ∨ dict_get ri k = None) ∧
    (∀ k, dict_get (flatten_dict file1 1 "") k =
          match dict_get rd k with
          | Some v => Some v
          | None => dict_get ri k
          end) ∧
    (1 ≤ 1 →
     perform_set_operation insertion_order file1 file2 "diff" "kv" 1 = Ok rd ∧
     perform_set_operation reverse_order file1 file2 "intersect" "kv" 1 = Ok ri).
Proof.
  apply (diff_and_intersect_partition insertion_order reverse_order
           file1 file2 "kv" 1).
  - vm_compute. reflexivity.
  - vm_compute. reflexivity.
Defined.

(** ** Failure *)


(** ** flatten_dict on objects, at every depth *)

Lemma flatten_dict_S fuel (st : Store.store) (data : Store.ref) depth (p : string) :
  Store.flatten_dict (S fuel) st data depth p =
  match st !! data with
  | Some (Store.ODict kvs) =>
      if (depth =? 1) && negb (str_truthy p) then
        Ok (Store.alloc st (Store.ODict kvs))
      else
        store_loop fuel depth p (Store.alloc st (Store.ODict [])).2 kvs
          (Store.alloc st (Store.ODict [])).1
  | _ => Raise TypeError
  end.
Proof.
  simpl. destruct (st !! data) as [[|kvs]|]; try done.
  destruct (_ && _); [done|].
  generalize (<[fresh (dom st):=Store.ODict []]> st).
  induction kvs as [|[k c] kvs IH]; intros st0; [done|].
  simpl. unfold store_step at 1. simpl.
  destruct (_ && _).
  - destruct (Store.setitem _ _ _ _); simpl; [apply IH|done].
  - destruct (Store.nonempty_dict st0 c).
    + destruct c; try done.
      destruct (Store.flatten_dict fuel st0 r depth _) as [sub|]; simpl; [|done].
      destruct (Store.update _ _ _); simpl; [apply IH|done].
    + destruct (Store.setitem _ _ _ _); simpl; [apply IH|done].
Qed.

Lemma represents_items_dict_set (b : Store.store) (acc : dict)
    (its : list (string * Store.cell)) (k : string) x c :
  represents_items b acc its → Store.represents b x c →
  represents_items b (dict_set acc k x) (dict_set its k c).
Proof.
  intros H Hx. unfold represents_items in *.
  induction H as [|[k1 x1] [k2 c2] acc its [Hk Hx1] H IH]; simpl in *.
  - by constructor.
  - subst k2. destruct (String.eqb k1 k); constructor; done.
Qed.

Lemma represents_items_dict_update (b : Store.store) (l : dict)
    (more : list (string * Store.cell)) :
  represents_items b l more → ∀ (acc : dict) its,
  represents_items b acc its →
  represents_items b (dict_update acc l) (dict_update its more).
Proof.
  unfold dict_update.
  induction 1 as [|[k1 x1] [k2 c2] l more [Hk Hx1] H IH]; intros acc its Hacc;
    simpl in *; [done|].
  subst k2. apply IH. by apply represents_items_dict_set.
Qed.

Lemma Forall_cells_dict_set (Q : Store.cell → Prop)
    (its : list (string * Store.cell)) (k : string) (c : Store.cell) :
  Forall (λ kc, Q kc.2) its → Q c → Forall (λ kc, Q kc.2) (dict_set its k c).
Proof.
  intros Hd Hv. induction Hd as [|[k' c'] its Hx Hd IH]; simpl.
  - by repeat constructor.
  - destruct (String.eqb k' k); constructor; done.
Qed.

Lemma Forall_cells_dict_update (Q : Store.cell → Prop)
    (its more : list (string * Store.cell)) :
  Forall (λ kc, Q kc.2) its → Forall (λ kc, Q kc.2) more →
  Forall (λ kc, Q kc.2) (dict_update its more).
Proof.
  intros Hd Hl. revert its Hd. unfold dict_update.
  induction Hl as [|[k c] more Hx Hl IH]; intros its Hd; simpl; [done|].
  apply IH. by apply Forall_cells_dict_set.
Qed.

(** What a mapping held by [r] holds, [r] holds. *)
Lemma held_trans (st : Store.store) (r r' : Store.ref) (c : Store.cell) :
  held st r (Store.CRef r') → held st r' c → held st r c.
Proof.
  intros H Hc. remember (Store.CRef r') as c' eqn:E.
  induction H as [r items k c' Hr Hin|r items k r'' c' Hr Hin H IH]; subst.
  - by eapply held_below.
  - eapply held_below; [done..|]. by apply IH.
Qed.

(** The test [isinstance(value, dict) and value] on a cell that holds
    [x]. *)
Lemma nonempty_dict_represents (b st : Store.store) x c :
  b ⊆ st → Store.represents b x c →
  Store.nonempty_dict st c = is_dict x && truthy x.
Proof.
  intros Hsub Hrep. destruct x as [| | | |xs|kvs]; try by destruct c.
  - apply represents_list in Hrep as (r & items & -> & Hr & _).
    simpl. by rewrite (lookup_weaken _ _ _ _ Hr Hsub).
  - apply represents_dict in Hrep as (r & items & -> & Hr & H).
    simpl. rewrite (lookup_weaken _ _ _ _ Hr Hsub).
    by destruct H.
Qed.

Lemma flattens_on_store_mono depth v (n m : nat) :
  (n ≤ m)%nat → flattens_on_store depth v n → flattens_on_store depth v m.
Proof.
  intros Hnm H b st data p fuel Hfuel. apply H. lia.
Qed.

Lemma flattens_on_store_all depth (kvs : dict) :
  Forall (λ kv, ∃ n, flattens_on_store depth kv.2 n) kvs →
  ∃ n, Forall (λ kv, flattens_on_store depth kv.2 n) kvs.
Proof.
  induction 1 as [|kv kvs [n Hn] _ [m Hm]]; [by exists 0%nat|].
  exists (Nat.max n m). constructor.
  - apply (flattens_on_store_mono depth kv.2 n); [lia|done].
  - eapply Forall_impl; [exact Hm|]. intros kv' H. simpl in H.
    apply (flattens_on_store_mono depth kv'.2 m); [lia|done].
Qed.

Lemma store_loop_flattens depth (p : string) (b st : Store.store)
    (data items : Store.ref) (fuel : nat) (kvs : dict)
    (cs : list (string * Store.cell)) :
  Forall (λ kv, flattens_on_store depth kv.2 fuel) kvs →
  represents_items b kvs cs →
  Forall (λ kc, held b data kc.2) cs →
  b ⊆ st → st !! items = None →
  ∀ (stc : Store.store) (acc : dict) (its : list (string * Store.cell)),
    st ⊆ stc → stc !! items = Some (Store.ODict its) →
    represents_items b acc its →
    Forall (λ kc, held b data kc.2) its →
    ∃ st' more,
      store_loop fuel depth p items cs stc = Ok (st', items) ∧
      st ⊆ st' ∧ st' !! items = Some (Store.ODict more) ∧
      represents_items b
        (fold_left (flatten_step (flatten_value depth) depth p) kvs acc) more ∧
      Forall (λ kc, held b data kc.2) more.
Proof.
  intros Hall Hrep Hheld Hb Hitems. unfold represents_items in Hrep.
  induction Hrep as [|[k x] [k' c] kvs cs [Hk Hx] Hrep IH];
    intros stc acc its Hsub Hits Hacc Hhits; simpl in *.
  - by exists stc, its.
  - subst k'. apply Forall_cons in Hall as [Hxn Hall].
    apply Forall_cons in Hheld as [Hc Hheld]. simpl in Hc.
    specialize (IH Hall Hheld).
    assert (∀ cell, st ⊆ <[items := cell]> stc) as Hins.
    { intros cell. by apply insert_subseteq_r. }
    unfold store_step, flatten_step at 2. simpl.
    rewrite (nonempty_dict_represents b stc x c); [|by etrans|done].
    destruct ((0 <? depth) && _) eqn:Edepth;
      [|destruct (is_dict x && truthy x) eqn:Ex].
    + unfold Store.setitem. rewrite Hits. simpl.
      eapply IH; [done|by rewrite lookup_insert_eq| |].
      * by apply represents_items_dict_set.
      * by apply Forall_cells_dict_set.
    + apply andb_true_iff in Ex as [Ex _].
      destruct x as [| | | | |d]; try done.
      pose proof Hx as (r & ds & -> & Hr & Hds)%represents_dict.
      destruct (Hxn b stc r (join_key p k) fuel) as
        (sub & rs & more & Hflat & Hsubst & Hfresh & Hmore & Hrepm & Hhm);
        [lia|by etrans|done|done|].
      rewrite Hflat. simpl. unfold Store.update.
      rewrite (lookup_weaken _ _ _ _ Hits Hsubst), Hmore. simpl.
      eapply IH.
      * apply insert_subseteq_r; [done|]. by etrans.
      * by rewrite lookup_insert_eq.
      * by apply represents_items_dict_update.
      * apply Forall_cells_dict_update; [done|].
        eapply Forall_impl; [exact Hhm|]. intros kc Hkc. simpl in *.
        by eapply held_trans.
    + unfold Store.setitem. rewrite Hits. simpl.
      eapply IH; [done|by rewrite lookup_insert_eq| |].
      * by apply represents_items_dict_set.
      * by apply Forall_cells_dict_set.
Qed.

Lemma flatten_on_store depth v : ∃ n, flattens_on_store depth v n.
Proof.
  induction v as [| | | |xs _|kvs IH] using value_ind';
    try (exists 0%nat; by intros ? ? ? ? ? _ _ ?).
  apply flattens_on_store_all in IH as [n Hn].
  exists (S n). intros b st data p [|fuel] Hfuel Hb _ Hrep; [lia|].
  assert (n ≤ fuel)%nat as Hle by lia.
  apply represents_dict in Hrep as (r & cs & [= <-] & Hr & Hcs).
  rewrite flatten_dict_S, (lookup_weaken _ _ _ _ Hr Hb), flatten_value_dict.
  pose proof (alloc_fresh st (Store.ODict cs)) as Hfresh.
  assert (Forall (λ kc, held b data kc.2) cs) as Hheld.
  { apply Forall_forall. intros [k c] Hin. by eapply held_here. }
  destruct (_ && _).
  - eexists _, _, cs. split_and!; [done| |done| |done|done].
    + by apply insert_subseteq.
    + unfold Store.alloc. simpl. by rewrite lookup_insert_eq.
  - unfold Store.alloc in *. simpl in *.
    destruct (store_loop_flattens depth p b st data (fresh (dom st)) fuel kvs cs)
      with (stc := <[fresh (dom st) := Store.ODict []]> st) (acc := @nil (string * value))
           (its := @nil (string * Store.cell))
      as (st' & more & Hloop & Hsub & Hmore & Hrepm & Hhm); try done.
    + eapply Forall_impl; [done|]. intros kv H.
      by eapply flattens_on_store_mono.
    + by apply insert_subseteq.
    + by rewrite lookup_insert_eq.
    + constructor.
    + by exists st', (fresh (dom st)), more.
Qed.

(** X17: on objects, at every depth and for every parent key: once the
    recursion depth the interpreter allows ([fuel]) exceeds a bound that
    depends on the document only, [flatten_dict] called on a reference
    that holds the mapping [d] returns a reference that was not in use
    before, to a new mapping.  Its entries are those of
    [flatten_dict d depth parent_key], and its cells are cells the argument
    holds in the store before the call ([held]), with the values they have
    there: nothing below the new mapping is copied.  Every object of the
    store, the argument and all it refers to included, is left as it
    was. *)
Theorem flatten_dict_builds_new_object (st : Store.store) (data : Store.ref)
    (d : dict) (depth : Z) (parent_key : string) :
  Store.represents st (VDict d) (Store.CRef data) →
  ∃ n : nat, ∀ fuel : nat, (n ≤ fuel)%nat →
    ∃ st' r more,
      Store.flatten_dict fuel st data depth parent_key = Ok (st', r) ∧
      st !! r = None ∧ r ≠ data ∧
      (∀ r0 obj, st !! r0 = Some obj → st' !! r0 = Some obj) ∧
      st' !! r = Some (Store.ODict more) ∧
      Forall (λ kc, held st data kc.2) more ∧
      represents_items st (flatten_dict d depth parent_key) more ∧
      Store.represents st' (VDict (flatten_dict d depth parent_key)) (Store.CRef r) ∧
      Store.represents st' (VDict d) (Store.CRef data).
Proof.
  intros Hrep. destruct (flatten_on_store depth (VDict d)) as [n Hn].
  exists n. intros fuel Hfuel.
  destruct (Hn st st data parent_key fuel)
    as (st' & r & more & Hflat & Hsub & Hfresh & Hmore & Hrepm & Hheld);
    [done..|].
  exists st', r, more. split_and!; [done..| | |done|done|done| |].
  - intros ->. apply represents_dict in Hrep as (? & ? & [= <-] & ? & _).
    congruence.
  - intros r0 obj H. by eapply lookup_weaken.
  - apply represents_dict. exists r, more. split_and!; [done..|].
    eapply Forall2_impl; [apply Hrepm|]. intros [k x] [k' c'] [? ?].
    split; [done|]. by eapply represents_mono.
  - by eapply represents_mono.
Qed.

Lemma flatten_dict_builds_new_object_witness :
  ∃ n : nat, ∀ fuel : nat, (n ≤ fuel)%nat →
    ∃ st' r more,
      Store.flatten_dict fuel example_store 1%positive 0 "" = Ok (st', r) ∧
      example_store !! r = None ∧ r ≠ 1%positive ∧
      (∀ r0 obj, example_store !! r0 = Some obj → st' !! r0 = Some obj) ∧
      st' !! r = Some (Store.ODict more) ∧
      Forall (λ kc, held example_store 1%positive kc.2) more ∧
      represents_items example_store
        (flatten_dict [("database", VDict [("host", VStr "localhost")])] 0 "")
        more ∧
      Store.represents st'
        (VDict (flatten_dict [("database", VDict [("host", VStr "localhost")])]
                  0 "")) (Store.CRef r) ∧
      Store.represents st'
        (VDict [("database", VDict [("host", VStr "localhost")])])
        (Store.CRef 1%positive).
Proof.
  apply (flatten_dict_builds_new_object example_store 1%positive
           [("database", VDict [("host", VStr "localhost")])] 0 "").
  simpl. exists [("database", Store.CRef 2%positive)].
  split; [reflexivity|]. split_and!; try done.
  exists [("host", Store.CStr "localhost")]. split; [reflexivity|done].
Defined.

(** ** Equal values have equal hashable forms *)

Lemma hashable_eqb_tuple (xs ys : list hashable) :
  hashable_eqb (HTuple xs) (HTuple ys) = true ↔
  Forall2 (λ x y : hashable, hashable_eqb x y = true) xs ys.
Proof.
  simpl. revert ys. induction xs as [|x xs IH]; intros [|y ys]; simpl.
  - split; [constructor|done].
  - split; [done|inversion 1].
  - split; [done|inversion 1].
  - rewrite andb_true_iff, IH. split.
    + intros [? ?]. by constructor.
    + inversion 1; by subst.
Qed.

Lemma insert_sorted_rel (a b : string * hashable)
    (l1 l2 : list (string * hashable)) :
  a.1 = b.1 → hashable_eqb a.2 b.2 = true → items_rel l1 l2 →
  items_rel (insert_sorted a l1) (insert_sorted b l2).
Proof.
  intros Hk Hv H. unfold items_rel in *.
  induction H as [|x y l1 l2 [Hxy Hxyv] H IH]; simpl.
  - by repeat constructor.
  - rewrite <- Hk, <- Hxy. destruct (String.leb a.1 x.1).
    + by repeat constructor.
    + by constructor.
Qed.

Lemma sorted_rel (l1 l2 : list (string * hashable)) :
  items_rel l1 l2 → items_rel (sorted l1) (sorted l2).
Proof.
  unfold sorted. induction 1 as [|x y l1 l2 [Hk Hv] H IH]; simpl.
  - constructor.
  - by apply insert_sorted_rel.
Qed.

(** Sorting by key does not depend on the order of the items when no key
    is repeated. *)
Lemma sorted_perm (l l' : list (string * hashable)) :
  l ≡ₚ l' → NoDup l.*1 → sorted l = sorted l'.
Proof.
  unfold sorted.
  induction 1 as [|x l l' Hp IH|x y l|l1 l2 l3 H1 IH1 H2 IH2]; intros Hnd;
    simpl.
  - done.
  - apply NoDup_cons in Hnd as [_ Hnd]. by rewrite IH.
  - apply insert_sorted_comm. rewrite !fmap_cons in Hnd.
    apply NoDup_cons in Hnd as [Hy _]. apply not_elem_of_cons in Hy as [Hy _].
    done.
  - rewrite IH1 by done. apply IH2. by rewrite <- H1.
Qed.

Lemma py_eq_list_inv (xs ys : list value) :
  py_eq (VList xs) (VList ys) = true ↔ Forall2 (λ x y, py_eq x y = true) xs ys.
Proof.
  simpl. revert ys. induction xs as [|x xs IH]; intros [|y ys]; simpl.
  - split; [constructor|done].
  - split; [done|inversion 1].
  - split; [done|inversion 1].
  - rewrite andb_true_iff, IH. split.
    + intros [? ?]. by constructor.
    + inversion 1; by subst.
Qed.

Lemma reordered_perm d1 d2 :
  NoDup (dict_keys d1) → NoDup (dict_keys d2) →
  length d1 = length d2 →
  (∀ k, k ∈ dict_keys d1 → k ∈ dict_keys d2) →
  reordered d1 d2 ≡ₚ d2.
Proof.
  intros H1 H2 Hlen Hsub.
  assert ((reordered d1 d2).*1 = dict_keys d1) as Hkeys.
  { unfold reordered, dict_keys. rewrite <- list_fmap_compose.
    by apply list_fmap_ext. }
  apply submseteq_length_Permutation.
  - apply NoDup_submseteq.
    + apply (NoDup_fmap_1 fst). by rewrite Hkeys.
    + intros [k v] Hin. unfold reordered in Hin.
      apply list_elem_of_In, in_map_iff in Hin as ([k' v'] & [= <- <-] & Hin).
      cbn [fst snd]. apply dict_get_Some_elem.
      destruct (dict_get d2 k') as [x|] eqn:E; [done|].
      apply dict_get_None in E. destruct E. apply Hsub.
      apply list_elem_of_fmap. exists (k', v'). split; [done|].
      by apply list_elem_of_In.
  - unfold reordered. by rewrite length_map, Hlen.
Qed.

Lemma py_eq_make_hashable v : ∀ v',
  wf_value v → wf_value v' → py_eq v v' = true →
  hashable_eqb (make_hashable v) (make_hashable v') = true.
Proof.
  induction v as [|b|n|s|xs IH|d1 IH] using value_ind';
    intros [|b'|n'|s'|ys|d2] Hwf Hwf' Heq; try done.
  - apply hashable_eqb_tuple. apply py_eq_list_inv in Heq.
    apply wf_value_list in Hwf, Hwf'.
    apply Forall2_fmap.
    induction Heq as [|x y xs ys Hxy Heq IH']; [constructor|].
    apply Forall_cons in IH as [IHx IH]. apply Forall_cons in Hwf as [Hx Hwf].
    apply Forall_cons in Hwf' as [Hy Hwf'].
    constructor; [by apply IHx|by apply IH'].
  - rewrite py_eq_dict in Heq.
    apply andb_true_iff in Heq as [Hlen%Nat.eqb_eq Hent].
    rewrite entries_eq_true in Hent.
    apply wf_value_dict in Hwf as [Hnd1 Hwf1].
    apply wf_value_dict in Hwf' as [Hnd2 Hwf2].
    assert (reordered d1 d2 ≡ₚ d2) as Hperm.
    { apply reordered_perm; [done..|]. intros k Hk.
      apply list_elem_of_fmap in Hk as ([k' v] & -> & Hin).
      destruct (Hent _ _ Hin) as (v' & Hv' & _).
      apply dict_get_is_Some. simpl. by rewrite Hv'. }
    rewrite !make_hashable_dict. unfold hashable_items.
    rewrite <- (sorted_perm (map (λ kv, (kv.1, make_hashable kv.2))
                               (reordered d1 d2))
                  (map (λ kv, (kv.1, make_hashable kv.2)) d2)).
    2:{ by apply Permutation_map. }
    2:{ replace ((map (λ kv, (kv.1, make_hashable kv.2)) (reordered d1 d2)).*1)
          with (dict_keys d1); [done|].
        unfold reordered, dict_keys.
        change (?f <$> ?l) with (map f l). by rewrite !map_map. }
    apply hashable_eqb_tuple, Forall2_fmap.
    eapply Forall2_impl.
    + apply sorted_rel. unfold items_rel, reordered.
      rewrite map_map. apply Forall2_fmap, Forall_Forall2_diag.
      rewrite Forall_forall in IH, Hwf1, Hwf2. apply Forall_forall.
      intros [k v] Hin. simpl. split; [done|].
      destruct (Hent _ _ Hin) as (v' & Hv' & Hpy). rewrite Hv'. simpl.
      apply (IH _ Hin); [apply (Hwf1 _ Hin)| |done].
      apply (Hwf2 (k, v')). by apply dict_get_Some_elem.
    + intros [k h] [k' h'] [Hk Hh]. simpl in *. subst k'.
      unfold pair_tuple. simpl. by rewrite String.eqb_refl, Hh.
Qed.

Lemma wf_flat_value (A : dict) depth k v :
  wf_dict A → dict_get (flatten_dict A depth "") k = Some v → wf_value v.
Proof.
  intros HA Hget%dict_get_Some_elem.
  pose proof (flatten_value_wf depth (VDict A) "" HA) as Hwf.
  rewrite Forall_forall in Hwf. apply (Hwf _ Hget).
Qed.

(** X18: Key-value comparison never tells equal values apart: when the two
    flattened documents bind a key to values that are equal (Python [==]:
    mappings whatever the order of their entries, [True] and [1]), the
    result mapping binds the key, to the value of the first document, for
    [union] and [intersect], and does not bind it for [diff], [rdiff],
    [symdiff] or any other operation; in every compare mode other than
    [keys], at every depth and for every iteration order. *)
Theorem kv_mode_respects_equality o (A B : dict) operation compare_mode depth
    (k : string) (v1 v2 : value) (r : dict) :
  wf_dict A → wf_dict B → compare_mode ≠ "keys" →
  dict_get (flatten_dict A depth "") k = Some v1 →
  dict_get (flatten_dict B depth "") k = Some v2 →
  py_eq v1 v2 = true →
  set_operation_result o (flatten_dict A depth "") (flatten_dict B depth "")
    operation compare_mode = Ok r →
  dict_get r k =
    if String.eqb operation "union" || String.eqb operation "intersect"
    then Some v1 else None.
Proof.
  intros HA HB Hmode H1 H2 Heq Hr.
  destruct (kv_mode_lookup o (flatten_dict A depth "")
              (flatten_dict B depth "") operation compare_mode)
    as (r' & Hr' & _ & Hget).
  - by apply (flatten_value_NoDup depth "" (VDict A)).
  - by apply (flatten_value_NoDup depth "" (VDict B)).
  - by apply String.eqb_neq.
  - rewrite Hr in Hr'. injection Hr' as <-. rewrite Hget.
    unfold agreeb, dict_mem, kv_value, resolve, keeps_kv. rewrite H1, H2.
    rewrite (py_eq_make_hashable v1 v2);
      [|exact (wf_flat_value A depth k v1 HA H1)
       |exact (wf_flat_value B depth k v2 HB H2)|done].
    destruct (String.eqb operation "union") eqn:E1.
    { by apply String.eqb_eq in E1 as ->. }
    destruct (String.eqb operation "intersect") eqn:E2.
    { by apply String.eqb_eq in E2 as ->. }
    simpl. by repeat case_match.
Qed.

Lemma kv_mode_respects_equality_witness :
  dict_get [] "service" =
    if String.eqb "diff" "union" || String.eqb "diff" "intersect"
    then Some (VDict [("name", VStr "api"); ("replicas", VInt 1)]) else None.
Proof.
  apply (kv_mode_respects_equality insertion_order service_ab service_ba
           "diff" "kv" 1 "service"
           (VDict [("name", VStr "api"); ("replicas", VInt 1)])
           (VDict [("replicas", VBool true); ("name", VStr "api")]) []).
  - vm_compute. reflexivity.
  - vm_compute. reflexivity.
  - discriminate.
  - reflexivity.
  - reflexivity.
  - reflexivity.
  - reflexivity.
Defined.

Lemma intersect_commutes_up_to_hashing_witness :
  ∃ r1 r2,
    set_operation_result insertion_order (flatten_dict nested1 2 "")
      (flatten_dict nested2 2 "") "intersect" "kv" = Ok r1 ∧
    set_operation_result reverse_order (flatten_dict nested2 2 "")
      (flatten_dict nested1 2 "") "intersect" "kv" = Ok r2 ∧
    (∀ k, k ∈ dict_keys r1 ↔ k ∈ dict_keys r2) ∧
    (String.eqb "kv" "keys" = false →
     ∀ k v1 v2, dict_get r1 k = Some v1 → dict_get r2 k = Some v2 →
       hashable_eqb (make_hashable v1) (make_hashable v2) = true) ∧
    (2 ≤ 1 →
     perform_set_operation insertion_order nested1 nested2 "intersect" "kv" 2
       = Ok r1 ∧
     perform_set_operation reverse_order nested2 nested1 "intersect" "kv" 2
       = Ok r2).
Proof.
  apply (intersect_commutes_up_to_hashing insertion_order reverse_order
           nested1 nested2 "kv" 2).
  - vm_compute. reflexivity.
  - vm_compute. reflexivity.
Defined.

(** ** Operations that cannot fail *)

Lemma apart_conflict_free flat :
  pairwise apart (paths_of flat) → conflict_free flat.
Proof.
  intros Hpw.
  assert (∀ k1 k2, k1 ∈ dict_keys flat → k2 ∈ dict_keys flat →
                   ¬ proper_prefix (split sep k1) (split sep k2)) as H.
  { induction flat as [|[k v] flat IH]; [by intros k1 k2 ?%elem_of_nil|].
    change (paths_of ((k, v) :: flat))
      with ((split sep k, v) :: paths_of flat) in Hpw.
    inversion Hpw as [|x l Hk Hrest]; subst.
    assert (∀ k', k' ∈ dict_keys flat →
                  incomparable (split sep k) (split sep k')) as Hinc.
    { intros k' (kv & -> & Hin)%list_elem_of_fmap.
      rewrite Forall_forall in Hk.
      apply (Hk (split sep kv.1, kv.2)). unfold paths_of.
      apply list_elem_of_In, in_map_iff. exists kv.
      split; [done|by apply list_elem_of_In]. }
    change (dict_keys ((k, v) :: flat)) with (k :: dict_keys flat).
    intros k1 k2 [->|H1]%elem_of_cons [->|H2]%elem_of_cons.
    - by intros [_ ?].
    - intros [Hpre _]. by destruct (Hinc k2 H2).
    - intros [Hpre _]. by destruct (Hinc k1 H1).
    - by apply IH. }
  unfold conflict_free. apply Forall_forall. intros k1 H1.
  apply Forall_forall. intros k2 H2. by apply H.
Qed.

(** The flat mapping of a document whose keys are free of the separator
    has no conflicting keys. *)
Lemma flatten_dict_conflict_free (d : dict) depth :
  wf_dict d → keys_sep_free (VDict d) = true → no_empty_root_key d = true →
  conflict_free (flatten_dict d depth "").
Proof.
  intros Hwf Hsep Hroot. apply apart_conflict_free.
  rewrite flatten_dict_leaves by done. by apply leaves_apart.
Qed.

Lemma conflict_free_subset flat r :
  (∀ k, k ∈ dict_keys r → k ∈ dict_keys flat) →
  conflict_free flat → conflict_free r.
Proof.
  unfold conflict_free. rewrite !Forall_forall. intros Hsub Hcf k1 H1.
  apply Forall_forall. intros k2 H2.
  specialize (Hcf k1 (Hsub _ H1)). rewrite Forall_forall in Hcf.
  by apply Hcf, Hsub.
Qed.

(** X20: [intersect], [diff] and [rdiff] cannot fail on documents whose
    keys are free of the separator (and whose roots do not bind the empty
    key to a non-empty mapping): at every depth, in both modes and for
    every iteration order [perform_set_operation] returns a mapping.  The
    keys of their result mapping come from one flattened document, which
    has no conflicting keys; beyond depth 1 every entry of the result
    mapping is found in the returned document by following the segments of
    its key. *)
Theorem one_sided_operations_return o (A B : dict) operation compare_mode depth :
  wf_dict A → wf_dict B →
  keys_sep_free (VDict A) = true → keys_sep_free (VDict B) = true →
  no_empty_root_key A = true → no_empty_root_key B = true →
  one_sided operation = true →
  ∃ r result,
    set_operation_result o (flatten_dict A depth "") (flatten_dict B depth "")
      operation compare_mode = Ok r ∧
    perform_set_operation o A B operation compare_mode depth = Ok result ∧
    (depth ≤ 1 → result = r) ∧
    (1 < depth → ∀ k v, dict_get r k = Some v →
                        get_path (VDict result) (split sep k) = Some v).
Proof.
  intros HA HB HsA HsB HrA HrB Hop.
  pose proof (flatten_value_NoDup depth "" (VDict A) HA) as HndA.
  pose proof (flatten_value_NoDup depth "" (VDict B) HB) as HndB.
  pose proof (flatten_dict_conflict_free A depth HA HsA HrA) as HcfA.
  pose proof (flatten_dict_conflict_free B depth HB HsB HrB) as HcfB.
  set (flat1 := flatten_dict A depth "") in *.
  set (flat2 := flatten_dict B depth "") in *.
  assert (∃ r, set_operation_result o flat1 flat2 operation compare_mode = Ok r ∧
               NoDup (dict_keys r) ∧
               ((∀ k, k ∈ dict_keys r → k ∈ dict_keys flat1) ∨
                (∀ k, k ∈ dict_keys r → k ∈ dict_keys flat2)))
    as (r & Hr & Hnd & Hkeys).
  { apply bool_decide_eq_true_1 in Hop.
    destruct (String.eqb compare_mode "keys") eqn:Emode.
    - apply String.eqb_eq in Emode as ->.
      destruct (keys_mode_lookup o flat1 flat2 operation) as (r & Hr & Hnd & Hget).
      exists r. split_and!; [done..|].
      assert (∀ k, k ∈ dict_keys r →
                keeps operation (dict_mem flat1 k) (dict_mem flat2 k) = true)
        as Hk.
      { intros k Hin%dict_get_is_Some. rewrite Hget in Hin.
        destruct (keeps _ _ _); [done|by destruct Hin]. }
      rewrite !elem_of_cons in Hop.
      destruct Hop as [->|[->|[->|[]%elem_of_nil]]]; [left|left|right];
        intros k Hin%Hk; apply dict_mem_true; unfold keeps in Hin;
        simpl in Hin; by destruct (dict_mem flat1 k), (dict_mem flat2 k).
    - destruct (kv_mode_lookup o flat1 flat2 operation compare_mode)
        as (r & Hr & Hnd & Hget); [done..|].
      exists r. split_and!; [done..|].
      assert (∀ k, k ∈ dict_keys r →
                keeps_kv operation (dict_mem flat1 k) (dict_mem flat2 k)
                  (agreeb flat1 flat2 k) = true) as Hk.
      { intros k Hin%dict_get_is_Some. rewrite Hget in Hin.
        destruct (keeps_kv _ _ _ _); [done|by destruct Hin]. }
      rewrite !elem_of_cons in Hop.
      destruct Hop as [->|[->|[->|[]%elem_of_nil]]]; [left|left|right];
        intros k Hin%Hk; apply dict_mem_true; unfold keeps_kv in Hin;
        simpl in Hin.
      + by apply agreeb_bound in Hin as [? _].
      + by apply andb_true_iff in Hin as [? _].
      + by apply andb_true_iff in Hin as [? _]. }
  rewrite (perform_set_operation_result _ _ _ _ _ _ _ Hr).
  destruct (Z.ltb_spec 1 depth) as [Hd|Hd].
  - destruct (conflict_free_read_back r) as (result & Hres & Hback); [done| |].
    { destruct Hkeys as [Hk|Hk]; by eapply conflict_free_subset. }
    exists r, result. split_and!; [done..|lia|done].
  - exists r, r. split_and!; [done..|lia].
Qed.

Lemma one_sided_operations_return_witness :
  ∃ r result,
    set_operation_result reverse_order (flatten_dict nested1 3 "")
      (flatten_dict nested2 3 "") "diff" "kv" = Ok r ∧
    perform_set_operation reverse_order nested1 nested2 "diff" "kv" 3
      = Ok result ∧
    (3 ≤ 1 → result = r) ∧
    (1 < 3 → ∀ k v, dict_get r k = Some v →
                    get_path (VDict result) (split sep k) = Some v).
Proof.
  apply (one_sided_operations_return reverse_order nested1 nested2
           "diff" "kv" 3); reflexivity.
Defined.

(** ** Where the hashable form is exact *)

Lemma insert_sorted_Permutation (x : string * hashable)
    (l : list (string * hashable)) :
  insert_sorted x l ≡ₚ x :: l.
Proof.
  induction l as [|y l IH]; simpl; [done|].
  destruct (String.leb x.1 y.1); [done|].
  rewrite IH. apply perm_swap.
Qed.

Lemma sorted_Permutation (l : list (string * hashable)) : sorted l ≡ₚ l.
Proof.
  unfold sorted. induction l as [|x l IH]; simpl; [done|].
  by rewrite insert_sorted_Permutation, IH.
Qed.

Lemma Forall2_elem_of_l {A B} (R : A → B → Prop) (l1 : list A) (l2 : list B)
    (a : A) :
  Forall2 R l1 l2 → a ∈ l1 → ∃ b : B, b ∈ l2 ∧ R a b.
Proof.
  induction 1 as [|a' b' l1 l2 Hab H IH]; [by intros ?%elem_of_nil|].
  intros [->|Hin]%elem_of_cons.
  - exists b'. split; [left|done].
  - destruct (IH Hin) as (b & Hb & HR). exists b. split; [by right|done].
Qed.

Lemma list_free_dict (kvs : dict) :
  list_free (VDict kvs) = true ↔ Forall (λ kv, list_free kv.2 = true) kvs.
Proof. simpl. rewrite forallb_forall, Forall_forall. by setoid_rewrite list_elem_of_In. Qed.

Lemma hashable_eqb_py_eq v : ∀ v',
  wf_value v → wf_value v' → list_free v = true → list_free v' = true →
  hashable_eqb (make_hashable v) (make_hashable v') = true →
  py_eq v v' = true.
Proof.
  induction v as [|b|n|s|xs _|d1 IH] using value_ind';
    intros [|b'|n'|s'|ys|d2] Hwf Hwf' Hlf Hlf' Heq; try done.
  rewrite !make_hashable_dict in Heq. unfold hashable_items in Heq.
  apply hashable_eqb_tuple, Forall2_fmap in Heq.
  apply wf_value_dict in Hwf as [Hnd1 Hwf1].
  apply wf_value_dict in Hwf' as [Hnd2 Hwf2].
  apply list_free_dict in Hlf, Hlf'.
  rewrite py_eq_dict. apply andb_true_iff. split.
  - apply Nat.eqb_eq. apply Forall2_length in Heq.
    rewrite !(Permutation_length (sorted_Permutation _)), !length_map in Heq.
    done.
  - apply entries_eq_true. intros k v Hin.
    assert ((k, make_hashable v) ∈
              sorted (map (λ kv, (kv.1, make_hashable kv.2)) d1)) as Hs.
    { rewrite sorted_Permutation. apply list_elem_of_In, in_map_iff.
      exists (k, v). split; [done|by apply list_elem_of_In]. }
    destruct (Forall2_elem_of_l _ _ _ _ Heq Hs) as ([k' h'] & Hin' & Hrel).
    rewrite sorted_Permutation in Hin'.
    apply list_elem_of_In, in_map_iff in Hin'
      as ([k2 v'] & [= <- <-] & Hin2%list_elem_of_In).
    unfold pair_tuple in Hrel. simpl in Hrel.
    apply andb_true_iff in Hrel as [->%String.eqb_eq Hrel].
    rewrite andb_true_r in Hrel.
    exists v'. split; [by apply dict_get_elem|].
    rewrite Forall_forall in IH, Hwf1, Hwf2, Hlf, Hlf'.
    apply (IH _ Hin); [apply (Hwf1 _ Hin)|apply (Hwf2 _ Hin2)
                      |apply (Hlf _ Hin)|apply (Hlf' _ Hin2)|done].
Qed.

(** X21: On values that hold no list the hashable form is exact: two such
    values have equal hashable forms exactly when they are equal (Python
    [==]).  The values that key-value comparison confuses always involve a
    list. *)
Theorem hashable_form_exact_without_lists (v v' : value) :
  wf_value v → wf_value v' → list_free v = true → list_free v' = true →
  hashable_eqb (make_hashable v) (make_hashable v') = py_eq v v'.
Proof.
  intros Hwf Hwf' Hlf Hlf'. apply Bool.eq_iff_eq_true. split.
  - by apply hashable_eqb_py_eq.
  - by apply py_eq_make_hashable.
Qed.

Lemma hashable_form_exact_without_lists_witness :
  hashable_eqb (make_hashable settings_ab) (make_hashable settings_ba) =
  py_eq settings_ab settings_ba.
Proof.
  apply (hashable_form_exact_without_lists settings_ab settings_ba);
    reflexivity.
Defined.

(** ** symdiff is diff laid over rdiff *)

(** X22: In both modes, at every depth and for any iteration orders, the
    result mapping of [symdiff] binds a key exactly when that of [diff] or
    that of [rdiff] does, to the value [diff] gives it when it has the key
    and else to the one [rdiff] gives it. *)
Theorem symdiff_is_diff_over_rdiff o1 o2 o3 (A B : dict) compare_mode depth :
  wf_dict A → wf_dict B →
  ∃ rs rd rr,
    set_operation_result o1 (flatten_dict A depth "") (flatten_dict B depth "")
      "symdiff" compare_mode = Ok rs ∧
    set_operation_result o2 (flatten_dict A depth "") (flatten_dict B depth "")
      "diff" compare_mode = Ok rd ∧
    set_operation_result o3 (flatten_dict A depth "") (flatten_dict B depth "")
      "rdiff" compare_mode = Ok rr ∧
    (∀ k, dict_get rs k =
          match dict_get rd k with
          | Some v => Some v
          | None => dict_get rr k
          end) ∧
    (depth ≤ 1 →
     perform_set_operation o1 A B "symdiff" compare_mode depth = Ok rs ∧
     perform_set_operation o2 A B "diff" compare_mode depth = Ok rd ∧
     perform_set_operation o3 A B "rdiff" compare_mode depth = Ok rr).
Proof.
  intros HA HB.
  pose proof (flatten_value_NoDup depth "" (VDict A) HA) as HndA.
  pose proof (flatten_value_NoDup depth "" (VDict B) HB) as HndB.
  set (flat1 := flatten_dict A depth "") in *.
  set (flat2 := flatten_dict B depth "") in *.
  assert (∃ rs rd rr,
    set_operation_result o1 flat1 flat2 "symdiff" compare_mode = Ok rs ∧
    set_operation_result o2 flat1 flat2 "diff" compare_mode = Ok rd ∧
    set_operation_result o3 flat1 flat2 "rdiff" compare_mode = Ok rr ∧
    ∀ k, dict_get rs k =
         match dict_get rd k with
         | Some v => Some v
         | None => dict_get rr k
         end) as (rs & rd & rr & Hrs & Hrd & Hrr & Hget).
  { destruct (String.eqb compare_mode "keys") eqn:Emode.
    - apply String.eqb_eq in Emode as ->.
      destruct (keys_mode_lookup o1 flat1 flat2 "symdiff") as (rs & Hrs & _ & Hgs).
      destruct (keys_mode_lookup o2 flat1 flat2 "diff") as (rd & Hrd & _ & Hgd).
      destruct (keys_mode_lookup o3 flat1 flat2 "rdiff") as (rr & Hrr & _ & Hgr).
      exists rs, rd, rr. split_and!; [done..|]. intros k.
      rewrite Hgs, Hgd, Hgr. unfold keeps, resolve, dict_mem. simpl.
      by destruct (dict_get flat1 k), (dict_get flat2 k).
    - destruct (kv_mode_lookup o1 flat1 flat2 "symdiff" compare_mode)
        as (rs & Hrs & _ & Hgs); [done..|].
      destruct (kv_mode_lookup o2 flat1 flat2 "diff" compare_mode)
        as (rd & Hrd & _ & Hgd); [done..|].
      destruct (kv_mode_lookup o3 flat1 flat2 "rdiff" compare_mode)
        as (rr & Hrr & _ & Hgr); [done..|].
      exists rs, rd, rr. split_and!; [done..|]. intros k.
      rewrite Hgs, Hgd, Hgr.
      unfold keeps_kv, kv_value, resolve, agreeb, dict_mem. simpl.
      destruct (dict_get flat1 k), (dict_get flat2 k); simpl; try done.
      by destruct (hashable_eqb _ _). }
  exists rs, rd, rr. split_and!; [done..|].
  intros Hd. by rewrite !perform_set_operation_flat.
Qed.

Lemma symdiff_is_diff_over_rdiff_witness :
  ∃ rs rd rr,
    set_operation_result insertion_order (flatten_dict file1 1 "")
      (flatten_dict file2 1 "") "symdiff" "kv" = Ok rs ∧
    set_operation_result reverse_order (flatten_dict file1 1 "")
      (flatten_dict file2 1 "") "diff" "kv" = Ok rd ∧
    set_operation_result mixed_order (flatten_dict file1 1 "")
      (flatten_dict file2 1 "") "rdiff" "kv" = Ok rr ∧
    (∀ k, dict_get rs k =
          match dict_get rd k with
          | Some v => Some v
          | None => dict_get rr k
          end) ∧
    (1 ≤ 1 →
     perform_set_operation insertion_order file1 file2 "symdiff" "kv" 1 = Ok rs ∧
     perform_set_operation reverse_order file1 file2 "diff" "kv" 1 = Ok rd ∧
     perform_set_operation mixed_order file1 file2 "rdiff" "kv" 1 = Ok rr).
Proof.
  apply (symdiff_is_diff_over_rdiff insertion_order reverse_order mixed_order
           file1 file2 "kv" 1).
  - vm_compute. reflexivity.
  - vm_compute. reflexivity.
Defined.

(** ** The commands *)



(** ** unflatten_dict on objects *)

(** X24: [unflatten_dict] shares the mappings of its argument and writes
    into them: when the flat mapping binds a key [k] to a mapping object
    and then the key [k.x] to a value, the result binds [k] to that very
    object, and the entry [x] is written into it.  The mapping at [data]
    is left as it was, but the object it refers to under [k] holds the new
    entry after the call. *)
Theorem unflatten_dict_writes_into_argument (st : Store.store)
    (data r : Store.ref) (items : list (string * Store.cell))
    (k x : string) (c : Store.cell) :
  sep_free k = true → sep_free x = true →
  st !! data =
    Some (Store.ODict [(k, Store.CRef r); ((k ++ String sep x)%string, c)]) →
  st !! r = Some (Store.ODict items) →
  r ≠ data →
  ∃ st' result,
    Store.unflatten_dict st data = Ok (st', result) ∧
    st !! result = None ∧
    st' !! result = Some (Store.ODict [(k, Store.CRef r)]) ∧
    st' !! r = Some (Store.ODict (dict_set items x c)) ∧
    st' !! data = st !! data.
Proof.
  intros Hk Hx Hdata Hr Hne.
  pose proof (alloc_fresh st (Store.ODict [])) as Hfresh.
  unfold Store.unflatten_dict, Store.alloc in *. simpl in Hfresh.
  set (result := fresh (dom st)) in *.
  assert (result ≠ r) as Hrr by (intros ->; congruence).
  assert (result ≠ data) as Hrd by (intros ->; congruence).
  rewrite Hdata. simpl.
  rewrite (split_sep_free k Hk), split_app, (split_sep_free k Hk),
    (split_sep_free x Hx). simpl.
  assert (Store.setitem (<[result := Store.ODict []]> st) result k (Store.CRef r)
          = Ok (<[result := Store.ODict [(k, Store.CRef r)]]> st)) as ->.
  { unfold Store.setitem. rewrite lookup_insert_eq. simpl.
    by rewrite insert_insert_eq. }
  simpl. rewrite lookup_insert_eq. simpl. rewrite String.eqb_refl.
  unfold Store.setitem. rewrite lookup_insert_ne, Hr by done. simpl.
  eexists _, result. split_and!; [done|done| | |].
  - by rewrite lookup_insert_ne, lookup_insert_eq.
  - by rewrite lookup_insert_eq.
  - by rewrite !lookup_insert_ne.
Qed.

Lemma unflatten_dict_writes_into_argument_witness :
  ∃ st' result,
    Store.unflatten_dict aliased_store 1%positive = Ok (st', result) ∧
    aliased_store !! result = None ∧
    st' !! result = Some (Store.ODict [("a", Store.CRef 2%positive)]) ∧
    st' !! 2%positive =
      Some (Store.ODict (dict_set [("y", Store.CInt 1)] "x" (Store.CInt 5))) ∧
    st' !! 1%positive = aliased_store !! 1%positive.
Proof.
  apply (unflatten_dict_writes_into_argument aliased_store 1%positive
           2%positive [("y", Store.CInt 1)] "a" "x" (Store.CInt 5));
    [reflexivity..|discriminate].
Defined.
